(** * graphmodel/Model.py: note table, delta times, transcript, frames

  A shallow embedding of [src/graphmodel/Model.py].  Python integers are
  [Z]; Python dictionaries are association lists with pairwise distinct
  keys, read in list order (the iteration order); [Note] objects live in a
  store and are handled through references, because
  [update_delta_times] mutates them in place while the table, the
  transcript and the sound events all point at the same objects. *)

From Stdlib Require Import ZArith List Lia Sorted Permutation String Bool.
From stdpp Require Import base list sorting.
Import ListNotations.
Local Open Scope Z_scope.

(** ** Exceptions and results *)

Inductive exn : Type :=
| KeyError
| IndexError
| ValueError
| TypeError
| AttributeError
| NameError
| RecursionError.

Inductive result (A : Type) : Type :=
| Ok (a : A)
| Raise (e : exn).
Arguments Ok {A} a.
Arguments Raise {A} e.

#[global] Instance result_ret : MRet result := fun A a => Ok a.

#[global] Instance result_bind : MBind result := fun A B k r =>
  match r with
  | Ok a => k a
  | Raise e => Raise e
  end.

(** A Python [for] loop whose body may raise: the state is threaded through
  the iterations and the first exception aborts the loop. *)
Fixpoint for_each {A S : Type} (l : list A) (body : A -> S -> result S) (s : S)
  : result S :=
  match l with
  | [] => Ok s
  | x :: l' => s' ← body x s; for_each l' body s'
  end.

(** ** class Note *)

Module Note.

(** The attributes set by [__init__], in the order of the source.  The
    [context] list is created empty and never read; it is left out. *)
Record t : Type := mk {
  timeline_tick : Z;
  wait_ticks : Z;
  duration_ticks : Z;
  previous_delta_ticks : Z;
  next_delta_ticks : Z;
  channel : Z;
  pitch : Z;
  velocity : Z
  }.

(** [Note(timeline_tick, wait_ticks, duration_ticks, channel, pitch, velocity)] *)
Definition init (timeline_tick wait_ticks duration_ticks channel pitch velocity : Z) : t :=
  {| timeline_tick := timeline_tick;
     wait_ticks := wait_ticks;
     duration_ticks := duration_ticks;
     previous_delta_ticks := 0;
     next_delta_ticks := 0;
     channel := channel;
     pitch := pitch;
     velocity := velocity |}.

(** [(duration_ticks << 20) | (channel << 15) | (pitch << 8) | velocity] *)
Definition encode (self : t) : Z :=
  Z.lor (Z.lor (Z.lor (Z.shiftl (duration_ticks self) 20)
                      (Z.shiftl (channel self) 15))
               (Z.shiftl (pitch self) 8))
        (velocity self).

(** [__hash__] *)
Definition hash (self : t) : Z := encode self.

(** [__eq__] *)
Definition eq (self other : t) : bool := encode self =? encode other.

Definition set_previous_delta_ticks (v : Z) (self : t) : t :=
  {| timeline_tick := timeline_tick self;
     wait_ticks := wait_ticks self;
     duration_ticks := duration_ticks self;
     previous_delta_ticks := v;
     next_delta_ticks := next_delta_ticks self;
     channel := channel self;
     pitch := pitch self;
     velocity := velocity self |}.

Definition set_next_delta_ticks (v : Z) (self : t) : t :=
  {| timeline_tick := timeline_tick self;
     wait_ticks := wait_ticks self;
     duration_ticks := duration_ticks self;
     previous_delta_ticks := previous_delta_ticks self;
     next_delta_ticks := v;
     channel := channel self;
     pitch := pitch self;
     velocity := velocity self |}.

(** The four attributes that [encode] reads. *)
Definition same_identity_fields (a b : t) : Prop :=
  duration_ticks a = duration_ticks b /\ channel a = channel b /\
  pitch a = pitch b /\ velocity a = velocity b.

(** Two states of a note that differ at most in the two gap attributes. *)
Definition same_but_gaps (a b : t) : Prop :=
  timeline_tick a = timeline_tick b /\ wait_ticks a = wait_ticks b /\
  duration_ticks a = duration_ticks b /\ channel a = channel b /\
  pitch a = pitch b /\ velocity a = velocity b.

(** The widths written above [encode]: 5 bits of channel, 7 of pitch, 8 of
    velocity. *)
Definition in_range (n : t) : Prop :=
  0 <= channel n < 32 /\ 0 <= pitch n < 128 /\ 0 <= velocity n < 256.

End Note.

(** ** The store of Note objects *)

(** A reference to a Note object. *)
Definition ref : Type := nat.

(** Every reference a Python program holds points at a live object, so the
  store is a total function. *)
Definition heap : Type := ref -> Note.t.

Definition heap_update (r : ref) (f : Note.t -> Note.t) (h : heap) : heap :=
  fun r' => if Nat.eqb r' r then f (h r') else h r'.

(** ** Python dictionaries *)

Section Dict.
Context {V : Type}.

Definition dict : Type := list (Z * V).

(** [{}] *)
Definition dict_empty : dict := [].

(** [d[k]] *)
Fixpoint dict_get (k : Z) (d : dict) : result V :=
  match d with
  | [] => Raise KeyError
  | (k', v) :: d' => if k' =? k then Ok v else dict_get k d'
  end.

(** [k in d] *)
Fixpoint dict_contains (k : Z) (d : dict) : bool :=
  match d with
  | [] => false
  | (k', _) :: d' => if k' =? k then true else dict_contains k d'
  end.

(** [d[k] = v]: an existing key keeps its place, a new key goes last. *)
Fixpoint dict_set (k : Z) (v : V) (d : dict) : dict :=
  match d with
  | [] => [(k, v)]
  | (k', v') :: d' => if k' =? k then (k', v) :: d' else (k', v') :: dict_set k v d'
  end.

(** [for k in d] *)
Definition dict_keys (d : dict) : list Z := d.*1.

(** [d.items()] *)
Definition dict_items (d : dict) : list (Z * V) := d.

(** [OrderedDict(pairs)] *)
Definition OrderedDict (pairs : list (Z * V)) : dict :=
  foldl (fun d kv => dict_set (fst kv) (snd kv) d) [] pairs.

End Dict.
Arguments dict V : clear implicits.
Arguments dict_keys : simpl never.

(** ** sorted(l, key=...) *)

(** Python's [sorted] is stable and compares keys with [<] only. *)
Section Sorted.
Context {A : Type} (key : A -> Z).

Fixpoint sorted_insert (x : A) (l : list A) : list A :=
  match l with
  | [] => [x]
  | y :: l' => if key y <? key x then y :: sorted_insert x l' else x :: y :: l'
  end.

Fixpoint sorted (l : list A) : list A :=
  match l with
  | [] => []
  | x :: l' => sorted_insert x (sorted l')
  end.

(** The orders on elements that [key] induces. *)
Definition key_le (a b : A) : Prop := key a <= key b.
Definition key_lt (a b : A) : Prop := key a < key b.

End Sorted.

(** [a << n] on Python integers: a negative shift count raises. *)
Definition py_lshift (a n : Z) : result Z :=
  if n <? 0 then Raise ValueError else Ok (Z.shiftl a n).

(** [d[k]] where [k] may be Python's [None], which is never a key here. *)
Definition dict_get_opt {V : Type} (k : option Z) (d : dict V) : result V :=
  match k with
  | Some k => dict_get k d
  | None => Raise KeyError
  end.

(** [a - b] where [b] may be Python's [None]. *)
Definition py_sub_opt (a : Z) (b : option Z) : result Z :=
  match b with
  | Some b => Ok (a - b)
  | None => Raise TypeError
  end.

(** ** class OrganizedNotesTable(NotesTable) *)

Module OrganizedNotesTable.

Record t : Type := mk {
  table : dict (dict (dict ref));
  channels : list Z;
  channel_coding : Z
}.

Definition with_table (tb : dict (dict (dict ref))) (self : t) : t :=
  {| table := tb; channels := channels self; channel_coding := channel_coding self |}.

(** [__init__]: the base class sets [table] and [channels]. *)
Definition init : t :=
  {| table := dict_empty; channels := []; channel_coding := Z.shiftl 0 16 |}.

(** [self.channel_coding & (1 << channel)]; the caller tests it for truth. *)
Definition has_channel (channel : Z) (self : t) : result Z :=
  bit ← py_lshift 1 channel;
  Ok (Z.land (channel_coding self) bit).

(** The base class appends to [channels]; then the bit is set. *)
Definition add_channel (channel : Z) (self : t) : result t :=
  let appended := channels self ++ [channel] in
  bit ← py_lshift 1 channel;
  Ok {| table := table self;
        channels := appended;
        channel_coding := Z.lor (channel_coding self) bit |}.

Definition add_channel_if_not_exists (channel : Z) (self : t) : result t :=
  present ← has_channel channel self;
  if present =? 0 then add_channel channel self else Ok self.

Definition add (note : ref) (h : heap) (self : t) : result t :=
  let tick := Note.timeline_tick (h note) in
  let channel := Note.channel (h note) in
  let pitch := Note.pitch (h note) in
  self ← add_channel_if_not_exists channel self;
  let table1 :=
    if dict_contains tick (table self) then table self
    else dict_set tick dict_empty (table self) in
  row ← dict_get tick table1;
  let table2 :=
    if dict_contains channel row then table1
    else dict_set tick (dict_set channel dict_empty row) table1 in
  row ← dict_get tick table2;
  cell ← dict_get channel row;
  Ok (with_table (dict_set tick (dict_set channel (dict_set pitch note cell) row) table2) self).

(** [self.table[tick][channel][pitch]] *)
Definition get_note (tick channel pitch : Z) (self : t) : result ref :=
  row ← dict_get tick (table self);
  cell ← dict_get channel row;
  dict_get pitch cell.

Definition sort (self : t) : t :=
  with_table (OrderedDict (sorted fst (dict_items (table self)))) self.

(** The loop returns at its first iteration; with no iteration the function
    falls off its end and the call evaluates to [None]. *)
Definition first_tick (self : t) : result (option Z) :=
  match dict_keys (table self) with
  | tick :: _ => Ok (Some tick)
  | [] => Ok None
  end.

(** The first inner loop nest of [update_delta_times], for one [tick]. *)
Definition update_previous (self : t) (tick : Z) (previous_tick : option Z)
  (h : heap) : result heap :=
  row ← dict_get tick (table self);
  for_each (dict_keys row) (fun channel h =>
    cell ← (row ← dict_get tick (table self); dict_get channel row);
    for_each (dict_keys cell) (fun pitch h =>
      note ← get_note tick channel pitch self;
      delta ← py_sub_opt (Note.timeline_tick (h note)) previous_tick;
      Ok (heap_update note (Note.set_previous_delta_ticks delta) h)) h) h.

(** The second inner loop nest, over the notes at [previous_tick]. *)
Definition update_next (self : t) (tick : Z) (previous_tick : option Z)
  (h : heap) : result heap :=
  row ← dict_get_opt previous_tick (table self);
  for_each (dict_keys row) (fun channel h =>
    cell ← (row ← dict_get_opt previous_tick (table self); dict_get channel row);
    for_each (dict_keys cell) (fun pitch h =>
      note ← (row ← dict_get_opt previous_tick (table self);
              cell ← dict_get channel row;
              dict_get pitch cell);
      Ok (heap_update note
            (Note.set_next_delta_ticks (tick - Note.timeline_tick (h note))) h)) h) h.

(** One iteration of the outer loop; the state is [(previous_tick, store)]. *)
Definition update_step (self : t) (tick : Z) (st : option Z * heap)
  : result (option Z * heap) :=
  h ← update_previous self tick (fst st) (snd st);
  h ← update_next self tick (fst st) h;
  Ok (Some tick, h).

Definition update_delta_times (self : t) (h : heap) : result heap :=
  previous_tick ← first_tick self;
  st ← for_each (dict_keys (table self)) (update_step self) (previous_tick, h);
  Ok (snd st).

End OrganizedNotesTable.

(** ** class SoundEvent *)

Module SoundEvent.

(** [notes] is a Python tuple of Note references. *)
Record t : Type := mk { notes : list ref }.

(** [__init__]: the notes are appended one by one in the order given by
    [sorted(notes, key=lambda note: note.next_delta_ticks)]. *)
Definition init (ns : list ref) (h : heap) : t :=
  {| notes := foldl (fun acc note => acc ++ [note]) []
                (sorted (fun note => Note.next_delta_ticks (h note)) ns) |}.

(** [self.notes[0]] *)
Definition first (self : t) : result ref :=
  match notes self with
  | note :: _ => Ok note
  | [] => Raise IndexError
  end.

Definition shortest_note (self : t) : result ref :=
  match notes self with
  | note :: _ => Ok note
  | [] => Raise IndexError
  end.

End SoundEvent.

(** ** class MusicalTranscript *)

Module MusicalTranscript.

Record t : Type := mk {
  notes_table : OrganizedNotesTable.t;
  tracks : dict (list SoundEvent.t)
}.

(** The body of the loop over the channels of one [tick]. *)
Definition build_cell (tb : dict (dict (dict ref))) (h : heap) (tick channel : Z)
  (tracks : dict (list SoundEvent.t)) : result (dict (list SoundEvent.t)) :=
  cell ← (row ← dict_get tick tb; dict_get channel row);
  notes ← for_each (dict_keys cell) (fun pitch notes =>
             note ← (row ← dict_get tick tb; cell ← dict_get channel row;
                     dict_get pitch cell);
             Ok (notes ++ [note])) [];
  let sound_event := SoundEvent.init notes h in
  track ← dict_get channel tracks;
  Ok (dict_set channel (track ++ [sound_event]) tracks).

(** [__build__], returning the final value of [self.tracks]. *)
Definition build (nt : OrganizedNotesTable.t) (h : heap)
  : result (dict (list SoundEvent.t)) :=
  let tb := OrganizedNotesTable.table nt in
  let tracks0 :=
    foldl (fun tracks channel => dict_set channel [] tracks) dict_empty
      (OrganizedNotesTable.channels nt) in
  for_each (dict_keys tb) (fun tick tracks =>
    row ← dict_get tick tb;
    for_each (dict_keys row) (build_cell tb h tick) tracks) tracks0.

(** [MusicalTranscript(notes_table)] *)
Definition init (nt : OrganizedNotesTable.t) (h : heap) : result t :=
  tr ← build nt h;
  Ok {| notes_table := nt; tracks := tr |}.

(** [self.tracks[channel]] *)
Definition get_sound_events (channel : Z) (self : t) : result (list SoundEvent.t) :=
  dict_get channel (tracks self).

End MusicalTranscript.

(** ** class Frame *)

Module Frame.

Record t : Type := mk {
  max_size : Z;
  sound_events : list SoundEvent.t
}.

(** [Frame(max_size, sound_events=None)] *)
Definition init (max_size : Z) (sound_events : option (list SoundEvent.t)) : t :=
  {| max_size := max_size;
     sound_events := match sound_events with
                     | None => []
                     | Some evs => evs
                     end |}.

(** [self.sound_events += (sound_event,)] *)
Definition add (sound_event : SoundEvent.t) (self : t) : t :=
  {| max_size := max_size self;
     sound_events := sound_events self ++ [sound_event] |}.

(** [__sizeof__] *)
Definition sizeof (self : t) : Z := Z.of_nat (length (sound_events self)).

Definition is_full (self : t) : bool := sizeof self =? max_size self.

Definition first (self : t) : result SoundEvent.t :=
  match sound_events self with
  | ev :: _ => Ok ev
  | [] => Raise IndexError
  end.

Definition last_sound_event (self : t) : result SoundEvent.t :=
  match last (sound_events self) with
  | Some ev => Ok ev
  | None => Raise IndexError
  end.

End Frame.

(** ** The module-level functions *)

(** The two [def is_chord] statements of the module, in source order. *)
Inductive funcdef : Type :=
| is_chord_of_sound_event
| is_chord_of_notes.

(** What a caller may pass: a sound event, or a list or tuple of notes. *)
Inductive argument : Type :=
| ASoundEvent (sound_event : SoundEvent.t)
| ANotes (notes : list ref).

(** The module namespace: executing a [def] binds its name, replacing an
    earlier binding of the same name. *)
Definition globals : Type := list (string * funcdef).

Fixpoint globals_get (name : string) (g : globals) : option funcdef :=
  match g with
  | [] => None
  | (name', f) :: g' => if String.eqb name' name then Some f else globals_get name g'
  end.

Fixpoint globals_set (name : string) (f : funcdef) (g : globals) : globals :=
  match g with
  | [] => [(name, f)]
  | (name', f') :: g' =>
      if String.eqb name' name then (name', f) :: g' else (name', f') :: globals_set name f g'
  end.

(** The namespace once the module body has run. *)
Definition module_globals : globals :=
  globals_set "is_chord" is_chord_of_notes
    (globals_set "is_chord" is_chord_of_sound_event []).

(** Calling a global by name.  The first definition calls the global
    [is_chord] again, resolved when the call runs; [fuel] bounds the depth
    of calls. *)
Fixpoint call (fuel : nat) (g : globals) (name : string) (arg : argument)
  : result bool :=
  match fuel with
  | O => Raise RecursionError
  | S fuel' =>
      match globals_get name g with
      | None => Raise NameError
      | Some is_chord_of_sound_event =>
          match arg with
          | ASoundEvent sound_event =>
              call fuel' g "is_chord" (ANotes (SoundEvent.notes sound_event))
          | ANotes _ => Raise AttributeError
          end
      | Some is_chord_of_notes =>
          match arg with
          | ANotes notes => Ok (0 <? Z.of_nat (length notes))
          | ASoundEvent _ => Raise TypeError
          end
      end
  end.

(** [is_chord(arg)] as a caller of the module sees it. *)
Definition is_chord (fuel : nat) (arg : argument) : result bool :=
  call fuel module_globals "is_chord" arg.

(** ** Vocabulary of the statements *)

(** The Note references held by one [table[tick][channel]] cell and by one
    [table[tick]] row, in iteration order. *)
Definition cell_refs (cell : dict ref) : list ref := cell.*2.

Definition row_refs (row : dict (dict ref)) : list ref :=
  concat (cell_refs <$> row.*2).

(** [note_at tb t r]: the note [r] is stored at time-position [t]. *)
Definition note_at (tb : dict (dict (dict ref))) (t : Z) (r : ref) : Prop :=
  exists row, (t, row) ∈ tb /\ r ∈ row_refs row.

(** A dictionary never holds a key twice. *)
Definition dict_wf {V : Type} (d : dict V) : Prop := NoDup (dict_keys d).

(** The three levels of the table are dictionaries. *)
Definition table_wf (tb : dict (dict (dict ref))) : Prop :=
  dict_wf tb /\
  forall t row, (t, row) ∈ tb ->
    dict_wf row /\ forall c cell, (c, cell) ∈ row -> dict_wf cell.

(** What [add] establishes: a note sits in the cell named by its own
    [timeline_tick], [channel] and [pitch]. *)
Definition located (h : heap) (tb : dict (dict (dict ref))) : Prop :=
  forall t row c cell p r,
    (t, row) ∈ tb -> (c, cell) ∈ row -> (p, r) ∈ cell ->
    Note.timeline_tick (h r) = t /\ Note.channel (h r) = c /\ Note.pitch (h r) = p.

(** [add] registers the channel of every note it stores, once. *)
Definition channels_wf (self : OrganizedNotesTable.t) : Prop :=
  NoDup (OrganizedNotesTable.channels self) /\
  forall t row c cell,
    (t, row) ∈ OrganizedNotesTable.table self -> (c, cell) ∈ row ->
    c ∈ OrganizedNotesTable.channels self.

(** [add] creates a row or a cell only to put a note in it. *)
Definition inhabited (tb : dict (dict (dict ref))) : Prop :=
  forall t row, (t, row) ∈ tb ->
    row <> [] /\ forall c cell, (c, cell) ∈ row -> cell <> [].

(** The invariant of an OrganizedNotesTable over a store. *)
Definition wf (h : heap) (self : OrganizedNotesTable.t) : Prop :=
  table_wf (OrganizedNotesTable.table self) /\
  located h (OrganizedNotesTable.table self) /\
  inhabited (OrganizedNotesTable.table self) /\
  channels_wf self.

(** The gap attributes still hold what [Note.__init__] put there. *)
Definition default_gaps (h : heap) (tb : dict (dict (dict ref))) : Prop :=
  forall t r, note_at tb t r ->
    Note.previous_delta_ticks (h r) = 0 /\ Note.next_delta_ticks (h r) = 0.

(** The table iterates in strictly ascending time-position order. *)
Definition ascending (tb : dict (dict (dict ref))) : Prop :=
  StronglySorted Z.lt (dict_keys tb).

(** Positions among the keys of the table. *)
Definition first_position (tb : dict (dict (dict ref))) (t : Z) : Prop :=
  t ∈ dict_keys tb /\ forall k, k ∈ dict_keys tb -> t <= k.

Definition last_position (tb : dict (dict (dict ref))) (t : Z) : Prop :=
  t ∈ dict_keys tb /\ forall k, k ∈ dict_keys tb -> k <= t.

(** [t_prev] is the time-position immediately before [t]. *)
Definition consecutive (tb : dict (dict (dict ref))) (t_prev t : Z) : Prop :=
  t_prev ∈ dict_keys tb /\ t ∈ dict_keys tb /\ t_prev < t /\
  forall k, k ∈ dict_keys tb -> ~ (t_prev < k < t).

(** The passes of [update_delta_times] over a list of references. *)
Definition set_previous_all (previous_tick : Z) (refs : list ref) (h : heap) : heap :=
  foldl (fun h note =>
           heap_update note
             (Note.set_previous_delta_ticks (Note.timeline_tick (h note) - previous_tick)) h)
        h refs.

Definition set_next_all (tick : Z) (refs : list ref) (h : heap) : heap :=
  foldl (fun h note =>
           heap_update note
             (Note.set_next_delta_ticks (tick - Note.timeline_tick (h note))) h)
        h refs.

(** One iteration of the outer loop: [row] is the row of [t], [prow] the row
    of the previous tick [pt]. *)
Definition one_step (pt : Z) (prow : dict (dict ref)) (t : Z) (row : dict (dict ref))
  (h : heap) : heap :=
  set_next_all t (row_refs prow) (set_previous_all pt (row_refs row) h).

(** The outer loop of [update_delta_times] once every lookup has succeeded:
    [prow] is the row of [previous_tick]. *)
Fixpoint delta_loop (previous_tick : Z) (prow : dict (dict ref))
  (rest : dict (dict (dict ref))) (h : heap) : heap :=
  match rest with
  | [] => h
  | (tick, row) :: rest' =>
      delta_loop tick row rest' (one_step previous_tick prow tick row h)
  end.

(** The [(time-position, channel)] buckets of one channel, in the iteration
    order of the table: each row that has the channel contributes its cell. *)
Definition buckets (tb : dict (dict (dict ref))) (c : Z) : list (Z * dict ref) :=
  omap (fun kv => match dict_get c (snd kv) with
                  | Ok cell => Some (fst kv, cell)
                  | Raise _ => None
                  end) tb.

(** [self.tracks[channel].append(sound_event)] *)
Definition append_event (channel : Z) (sound_event : SoundEvent.t)
  (tracks : dict (list SoundEvent.t)) : result (dict (list SoundEvent.t)) :=
  track ← dict_get channel tracks;
  Ok (dict_set channel (track ++ [sound_event]) tracks).

(** The bitmask agrees with the list of channels. *)
Definition coding_wf (self : OrganizedNotesTable.t) : Prop :=
  forall c, 0 <= c ->
    (Z.testbit (OrganizedNotesTable.channel_coding self) c = true <->
     c ∈ OrganizedNotesTable.channels self).

(** What a lookup finds, an empty dictionary standing for a missing key:
    the dictionary [add] creates when the key is new. *)
Definition dict_get_or_empty {V : Type} (k : Z) (d : dict (dict V)) : dict V :=
  match dict_get k d with
  | Ok v => v
  | Raise _ => dict_empty
  end.

(** The table after [add] has stored [note] under [tick], [channel] and
    [pitch]. *)
Definition table_with (tick channel pitch : Z) (note : ref)
  (tb : dict (dict (dict ref))) : dict (dict (dict ref)) :=
  let row := dict_get_or_empty tick tb in
  let cell := dict_get_or_empty channel row in
  dict_set tick (dict_set channel (dict_set pitch note cell) row) tb.

(** ** A worked example *)

(** [for note in notes: table.add(note)] *)
Definition add_all (notes : list ref) (h : heap) (self : OrganizedNotesTable.t)
  : result OrganizedNotesTable.t :=
  for_each notes (fun note s => OrganizedNotesTable.add note h s) self.

(** Four notes fresh from their constructor: a chord of two at tick 0 on
    channel 0, and at tick 4 one note on channel 0 and one on channel 1,
    a channel that tick 0 does not have. *)
Definition example_heap : heap :=
  fun r =>
    match r with
    | 0%nat => Note.init 0 0 4 0 60 100
    | 1%nat => Note.init 0 0 4 0 64 100
    | 2%nat => Note.init 4 0 2 0 67 100
    | _ => Note.init 4 0 2 1 67 100
    end.

Definition example_notes : list ref := [2%nat; 0%nat; 1%nat; 3%nat].

(** The table those notes give once added and sorted. *)
Definition example_table : OrganizedNotesTable.t :=
  {| OrganizedNotesTable.table :=
       [(0, [(0, [(60, 0%nat); (64, 1%nat)])]);
        (4, [(0, [(67, 2%nat)]); (1, [(67, 3%nat)])])];
     OrganizedNotesTable.channels := [0; 1];
     OrganizedNotesTable.channel_coding := 3 |}.

(** The table those notes give when added in the order of [example_notes],
    before it is sorted. *)
Definition example_unsorted : OrganizedNotesTable.t :=
  {| OrganizedNotesTable.table :=
       [(4, [(0, [(67, 2%nat)]); (1, [(67, 3%nat)])]);
        (0, [(0, [(60, 0%nat); (64, 1%nat)])])];
     OrganizedNotesTable.channels := [0; 1];
     OrganizedNotesTable.channel_coding := 3 |}.

(** The same four notes with gaps as [update_delta_times] leaves them. *)
Definition example_annotated : heap :=
  fun r =>
    match r with
    | 0%nat => Note.set_next_delta_ticks 4 (Note.init 0 0 4 0 60 100)
    | 1%nat => Note.set_next_delta_ticks 4 (Note.init 0 0 4 0 64 100)
    | 2%nat => Note.set_previous_delta_ticks 4 (Note.init 4 0 2 0 67 100)
    | _ => Note.set_previous_delta_ticks 4 (Note.init 4 0 2 1 67 100)
    end.

(** Two notes that differ in every attribute outside the identity. *)
Definition example_note_early : Note.t := Note.init 0 0 4 0 60 100.
Definition example_note_late : Note.t :=
  Note.set_next_delta_ticks 7 (Note.init 96 3 4 0 60 100).

(** ** class NotesTable, the base class *)

Module NotesTable.

(** [table] holds notes directly in the base class and rows in the subclass,
    hence the parameter. *)
Record t (V : Type) : Type := mk {
  table : dict V;
  channels : list Z
}.
Arguments mk {V} table channels.
Arguments table {V} _.
Arguments channels {V} _.

Definition init {V : Type} : t V := {| table := dict_empty; channels := [] |}.

(** [x in l] for a list: the elements are compared one after the other. *)
Fixpoint list_contains (x : Z) (l : list Z) : bool :=
  match l with
  | [] => false
  | y :: l' => if y =? x then true else list_contains x l'
  end.

(** [self.table[note.timeline_tick] = note] *)
Definition add (note : ref) (h : heap) (self : t ref) : t ref :=
  {| table := dict_set (Note.timeline_tick (h note)) note (table self);
     channels := channels self |}.

(** [channel in self.channels] *)
Definition has_channel {V : Type} (channel : Z) (self : t V) : bool :=
  list_contains channel (channels self).

(** [self.channels.append(channel)] *)
Definition add_channel {V : Type} (channel : Z) (self : t V) : t V :=
  {| table := table self; channels := channels self ++ [channel] |}.

Definition add_channel_if_not_exists {V : Type} (channel : Z) (self : t V) : t V :=
  if has_channel channel self then self else add_channel channel self.

End NotesTable.

(** An OrganizedNotesTable seen as the NotesTable it extends. *)
Definition super (self : OrganizedNotesTable.t) : NotesTable.t (dict (dict ref)) :=
  {| NotesTable.table := OrganizedNotesTable.table self;
     NotesTable.channels := OrganizedNotesTable.channels self |}.

(** ** The rest of SoundEvent and Frame *)

(** [SoundEvent.get_smallest_duration]; [maxint] stands for [sys.maxint],
    which the platform fixes. *)
Definition get_smallest_duration (maxint : Z) (self : SoundEvent.t) (h : heap) : Z :=
  foldl (fun min_ticks note =>
           if Note.next_delta_ticks (h note) <? min_ticks
           then Note.duration_ticks (h note)
           else min_ticks)
        maxint (SoundEvent.notes self).

(** [SoundEvent.__hash__]: [(hash(self.notes) << 4) | len(self.notes)].
    The hash of a tuple is computed by the interpreter from the hashes of its
    members, here the values of [Note.__hash__]; [tuple_hash] stands for that
    computation. *)
Definition sound_event_hash (tuple_hash : list Z -> Z) (h : heap)
  (self : SoundEvent.t) : Z :=
  Z.lor (Z.shiftl (tuple_hash ((fun note => Note.hash (h note)) <$> SoundEvent.notes self)) 4)
        (Z.of_nat (length (SoundEvent.notes self))).

(** [SoundEvent.__eq__] *)
Definition sound_event_eq (tuple_hash : list Z -> Z) (h : heap)
  (self other : SoundEvent.t) : bool :=
  sound_event_hash tuple_hash h self =? sound_event_hash tuple_hash h other.

(** [for sound_event in sound_events: frame.add(sound_event)] *)
Definition frame_add_all (sound_events : list SoundEvent.t) (self : Frame.t) : Frame.t :=
  foldl (fun frame sound_event => Frame.add sound_event frame) self sound_events.

(** Two notes that [add] puts in the same place of the table. *)
Definition same_place (h : heap) (a b : ref) : Prop :=
  Note.timeline_tick (h a) = Note.timeline_tick (h b) /\
  Note.channel (h a) = Note.channel (h b) /\
  Note.pitch (h a) = Note.pitch (h b).

(** ** graphmodel/utils/MidiUtils.py *)

Module MidiUtils.

(** The classes of the midi library that the module names. *)
Inductive event_class : Type :=
| AbstractEvent
| Event
| MetaEvent
| NoteOnEvent
| NoteOffEvent
| ControlChangeEvent
| SetTempoEvent
| AfterTouchEvent
| ChannelAfterTouchEvent
| PitchWheelEvent
| SysexEvent
| TimeSignatureEvent
| KeySignatureEvent
| PortEvent
| ProgramChangeEvent.

(** What the functions of this module can raise: the exceptions of the
    model, and a division by zero. *)
Inductive error : Type :=
| Builtin (e : exn)
| ZeroDivisionError.

Inductive outcome (A : Type) : Type :=
| Return (a : A)
| Throw (e : error).
Arguments Return {A} a.
Arguments Throw {A} e.

#[global] Instance outcome_ret : MRet outcome := fun A a => Return a.

#[global] Instance outcome_bind : MBind outcome := fun A B k r =>
  match r with
  | Return a => k a
  | Throw e => Throw e
  end.

(** A [for] loop over a list whose body may throw. *)
Fixpoint loop {A S : Type} (l : list A) (body : A -> S -> outcome S) (s : S)
  : outcome S :=
  match l with
  | [] => Return s
  | x :: l' => s' ← body x s; loop l' body s'
  end.

(** [l[i]] on a list: a negative index counts from the end. *)
Definition py_index {A : Type} (l : list A) (i : Z) : outcome A :=
  let j := if i <? 0 then i + Z.of_nat (length l) else i in
  if j <? 0 then Throw (Builtin IndexError)
  else match l !! Z.to_nat j with
       | Some x => Return x
       | None => Throw (Builtin IndexError)
       end.

(** [range(start, stop, 1)] *)
Definition range (start stop : Z) : list Z := seqZ start (stop - start).

Section Events.

(** The events are objects of the midi library.  The module sees them
    through [isinstance] and through the attributes it reads. *)
Context {E : Type}.
Context (isinstance : E -> event_class -> bool).
Context (velocity : E -> Z) (channel : E -> Z) (data : E -> list Z).

Definition is_channel_event (event : E) : bool := isinstance event Event.
Definition is_meta_event (event : E) : bool := isinstance event MetaEvent.
Definition is_time_signature_event (event : E) : bool := isinstance event TimeSignatureEvent.
Definition is_set_tempo_event (event : E) : bool := isinstance event SetTempoEvent.
Definition is_event_with_channel (event : E) : bool := isinstance event Event.
Definition is_key_signature_event (event : E) : bool := isinstance event KeySignatureEvent.
Definition is_port_event (event : E) : bool := isinstance event PortEvent.
Definition is_program_change_event (event : E) : bool := isinstance event ProgramChangeEvent.

(** [isinstance(event, NoteOffEvent) or
     (isinstance(event, NoteOnEvent) and event.velocity == 0)] *)
Definition has_note_ended (event : E) : bool :=
  isinstance event NoteOffEvent ||
  (isinstance event NoteOnEvent && (velocity event =? 0)).

(** [isinstance(event, NoteOnEvent) and event.velocity > 0] *)
Definition is_new_note (event : E) : bool :=
  isinstance event NoteOnEvent && (0 <? velocity event).

Definition is_song_meta_event (event : E) : bool :=
  isinstance event KeySignatureEvent || isinstance event TimeSignatureEvent.

(** The first event of the track that meets the condition, or [None]. *)
Fixpoint loop_track_and_return_event_on_condition (track : list E)
  (condition : E -> bool) : option E :=
  match track with
  | [] => None
  | event :: track' =>
      if condition event then Some event
      else loop_track_and_return_event_on_condition track' condition
  end.

Fixpoint get_channel (track : list E) : option Z :=
  match track with
  | [] => None
  | event :: track' =>
      if is_event_with_channel event then Some (channel event) else get_channel track'
  end.

Definition get_program_change_event (track : list E) : option E :=
  loop_track_and_return_event_on_condition track is_program_change_event.

(** [program_change_event.data[0]], or [None] without such an event. *)
Definition get_instrument (track : list E) : outcome (option Z) :=
  match get_program_change_event track with
  | None => Return None
  | Some program_change_event =>
      instrument ← py_index (data program_change_event) 0;
      Return (Some instrument)
  end.

Definition get_port_event (track : list E) : option E :=
  loop_track_and_return_event_on_condition track is_port_event.

(** [pattern[0]] is looked up first. *)
Definition get_time_signature_event (pattern : list (list E)) : outcome (option E) :=
  track ← py_index pattern 0;
  Return (loop_track_and_return_event_on_condition track is_time_signature_event).

Definition get_key_signature_event (pattern : list (list E)) : outcome (option E) :=
  track ← py_index pattern 0;
  Return (loop_track_and_return_event_on_condition track is_key_signature_event).

Fixpoint has_notes (track : list E) : bool :=
  match track with
  | [] => false
  | event :: track' => if is_new_note event then true else has_notes track'
  end.

(** The local variables of [print_rhythmic_pattern], and what it has
    printed so far: one line [tempo, data, tempo - previous_tempo] for each
    tempo event. *)
Record rhythm : Type := mk_rhythm {
  total_tempo : Z;
  total_change : Z;
  number_of_events : Z;
  previous_tempo : Z;
  printed : list (Z * list Z * Z)
}.

(** [(data[0] << 16) | (data[1] << 8) | data[2]] *)
Definition tempo_of (data : list Z) : outcome Z :=
  d0 ← py_index data 0;
  d1 ← py_index data 1;
  d2 ← py_index data 2;
  Return (Z.lor (Z.lor (Z.shiftl d0 16) (Z.shiftl d1 8)) d2).

Definition rhythm_step (event : E) (st : rhythm) : outcome rhythm :=
  if is_set_tempo_event event then
    tempo ← tempo_of (data event);
    Return {| total_tempo := total_tempo st + tempo;
              total_change := total_change st + (tempo - previous_tempo st);
              number_of_events := number_of_events st + 1;
              previous_tempo := tempo;
              printed := printed st ++ [(tempo, data event, tempo - previous_tempo st)] |}
  else Return st.

(** The lines printed in the loop, and the two numbers of the last line;
    [/] on two integers is the floor division. *)
Definition print_rhythmic_pattern (pattern : list (list E))
  : outcome (list (Z * list Z * Z) * (Z * Z)) :=
  track ← py_index pattern 0;
  st ← loop track rhythm_step
         {| total_tempo := 0; total_change := 0; number_of_events := 0;
            previous_tempo := 0; printed := [] |};
  if number_of_events st =? 0 then Throw ZeroDivisionError
  else Return (printed st,
               (total_tempo st / number_of_events st,
                total_change st / number_of_events st)).

(** [tempo_event1.data == tempo_event2.data] *)
Definition are_tempo_events_same (tempo_event1 tempo_event2 : E) : bool :=
  bool_decide (data tempo_event1 = data tempo_event2).

End Events.

Section Tracks.

(** [delete_tracks] compares tracks with [==]; here a track is equal to
    itself and to nothing else. *)
Context {T : Type} `{EqDecision T}.

(** [l.remove(x)]: the first element equal to [x] goes; ValueError without
    one. *)
Fixpoint list_remove (x : T) (l : list T) : outcome (list T) :=
  match l with
  | [] => Throw (Builtin ValueError)
  | y :: l' =>
      if bool_decide (y = x) then Return l'
      else l'' ← list_remove x l'; Return (y :: l'')
  end.

(** The pattern after the call. *)
Definition delete_tracks (pattern : list T) (start stop : Z) : outcome (list T) :=
  tracks ← loop (range start stop)
              (fun i tracks => track ← py_index pattern i; Return (tracks ++ [track])) [];
  loop tracks (fun track pattern => list_remove track pattern) pattern.

End Tracks.

End MidiUtils.

(** ** MidiUtils: the functions that build events *)

(** [note.<name>] on a Note as [Note.__init__] leaves it.  The attributes
    are those the constructor assigns; [context], a list, is not among the
    integer attributes read here. *)
Definition note_attribute (name : string) (note : Note.t) : result Z :=
  if String.eqb name "timeline_tick" then Ok (Note.timeline_tick note)
  else if String.eqb name "wait_ticks" then Ok (Note.wait_ticks note)
  else if String.eqb name "duration_ticks" then Ok (Note.duration_ticks note)
  else if String.eqb name "previous_delta_ticks" then Ok (Note.previous_delta_ticks note)
  else if String.eqb name "next_delta_ticks" then Ok (Note.next_delta_ticks note)
  else if String.eqb name "channel" then Ok (Note.channel note)
  else if String.eqb name "pitch" then Ok (Note.pitch note)
  else if String.eqb name "velocity" then Ok (Note.velocity note)
  else Raise AttributeError.

Definition lift {A : Type} (r : result A) : MidiUtils.outcome A :=
  match r with
  | Ok a => MidiUtils.Return a
  | Raise e => MidiUtils.Throw (MidiUtils.Builtin e)
  end.

Section EventConstructors.

Context {E : Type}.

(** [midi.NoteOnEvent(channel=, tick=, pitch=, velocity=)] and
    [events.ProgramChangeEvent(data=)], the constructors of the library. *)
Context (note_on_event : Z -> Z -> Z -> Z -> E).
Context (program_change_event : list Z -> E).

(** The keyword arguments are evaluated in the order written. *)
Definition to_note_on_event (note : Note.t) (channel : Z) : MidiUtils.outcome E :=
  pitch ← lift (note_attribute "pitch" note);
  volume ← lift (note_attribute "volume" note);
  MidiUtils.Return (note_on_event channel 0 pitch volume).

Definition to_note_off_event (note : Note.t) (channel : Z) : MidiUtils.outcome E :=
  pitch ← lift (note_attribute "pitch" note);
  MidiUtils.Return (note_on_event channel 0 pitch 0).

Definition to_program_change_event (instrument : Z) : E :=
  program_change_event [instrument].

End EventConstructors.

(** The tempo that three data bytes spell, and the tempos of the tempo
    events of a track, in order. *)
Definition tempo_value (data : list Z) : Z :=
  Z.lor (Z.lor (Z.shiftl (nth 0 data 0) 16) (Z.shiftl (nth 1 data 0) 8)) (nth 2 data 0).

Definition tempos {E : Type} (isinstance : E -> MidiUtils.event_class -> bool)
  (data : E -> list Z) (track : list E) : list Z :=
  (fun event => tempo_value (data event))
    <$> filter (fun event => MidiUtils.is_set_tempo_event isinstance event = true) track.

(** A stand-in for the events of the library, for the examples: the class
    of the event, its velocity and its data. *)
Record example_event : Type := mk_example_event {
  example_class : MidiUtils.event_class;
  example_velocity : Z;
  example_data : list Z
}.

Definition example_isinstance (event : example_event) (c : MidiUtils.event_class) : bool :=
  match example_class event, c with
  | MidiUtils.NoteOnEvent, MidiUtils.NoteOnEvent => true
  | MidiUtils.NoteOffEvent, MidiUtils.NoteOffEvent => true
  | MidiUtils.ProgramChangeEvent, MidiUtils.ProgramChangeEvent => true
  | MidiUtils.SetTempoEvent, MidiUtils.SetTempoEvent => true
  | _, MidiUtils.AbstractEvent => true
  | _, _ => false
  end.

Definition example_note_on (channel tick pitch velocity : Z) : example_event :=
  {| example_class := MidiUtils.NoteOnEvent;
     example_velocity := velocity;
     example_data := [pitch; velocity] |}.

Definition example_program_change (data : list Z) : example_event :=
  {| example_class := MidiUtils.ProgramChangeEvent;
     example_velocity := 0;
     example_data := data |}.

Definition example_set_tempo (data : list Z) : example_event :=
  {| example_class := MidiUtils.SetTempoEvent;
     example_velocity := 0;
     example_data := data |}.

(** Membership in a list written out, as a goal and as a hypothesis. *)
Ltac elem_of_list :=
  repeat first [apply list_elem_of_here | apply list_elem_of_further].

Ltac all_elems H :=
  repeat (apply elem_of_cons in H as [-> | H]); [.. | by apply elem_of_nil in H].

(** * Properties *)

(** ** Note identity: the packed encoding *)

Section Encoding.

Lemma lor_shiftl_low (hi lo k : Z) :
  0 <= k -> 0 <= lo < 2 ^ k -> Z.lor (Z.shiftl hi k) lo = hi * 2 ^ k + lo.
Proof.
  intros Hk Hlo.
  rewrite Z.shiftl_mul_pow2 by lia.
  assert (Hdisj : Z.land (hi * 2 ^ k) lo = 0).
  { apply Z.bits_inj'. intros n Hn.
    rewrite Z.land_spec, Z.bits_0.
    destruct (Z.lt_ge_cases n k) as [Hlt | Hge].
    - rewrite Z.mul_pow2_bits_low by lia. reflexivity.
    - destruct (Z.eq_dec lo 0) as [-> | Hnz].
      + rewrite Z.bits_0. apply andb_false_r.
      + rewrite (Z.bits_above_log2 lo n); [apply andb_false_r | lia |].
        assert (Z.log2 lo < k) by (apply Z.log2_lt_pow2; lia). lia. }
  rewrite <- Z.lxor_lor by exact Hdisj.
  symmetry. apply Z.add_nocarry_lxor. exact Hdisj.
Qed.

(** Inside the widths of channel, pitch and velocity the bitwise packing is
    the positional sum, whatever the duration. *)
Lemma encode_sum (n : Note.t) :
  Note.in_range n ->
  Note.encode n =
    Note.duration_ticks n * 2 ^ 20 + Note.channel n * 2 ^ 15 +
    Note.pitch n * 2 ^ 8 + Note.velocity n.
Proof.
  intros (Hc & Hp & Hv). unfold Note.encode.
  set (d := Note.duration_ticks n) in *. set (c := Note.channel n) in *.
  set (p := Note.pitch n) in *. set (v := Note.velocity n) in *.
  replace (Z.shiftl d 20) with (Z.shiftl (Z.shiftl (Z.shiftl d 5) 7) 8)
    by (rewrite !Z.shiftl_shiftl by lia; reflexivity).
  replace (Z.shiftl c 15) with (Z.shiftl (Z.shiftl c 7) 8)
    by (rewrite !Z.shiftl_shiftl by lia; reflexivity).
  rewrite <- !Z.shiftl_lor.
  rewrite (lor_shiftl_low _ v 8) by lia.
  rewrite (lor_shiftl_low _ p 7) by lia.
  rewrite (lor_shiftl_low d c 5) by lia.
  lia.
Qed.

Lemma encode_of_fields (a b : Note.t) :
  Note.same_identity_fields a b -> Note.encode a = Note.encode b.
Proof.
  intros (Hd & Hc & Hp & Hv). unfold Note.encode. congruence.
Qed.

Lemma encode_injective (a b : Note.t) :
  Note.in_range a -> Note.in_range b ->
  Note.encode a = Note.encode b -> Note.same_identity_fields a b.
Proof.
  intros Ha Hb. rewrite (encode_sum a Ha), (encode_sum b Hb).
  destruct Ha as (? & ? & ?), Hb as (? & ? & ?).
  unfold Note.same_identity_fields. intros Heq. lia.
Qed.

End Encoding.

(** ** Loops and dictionaries *)

Section Loops.
Context {A S : Type}.

Lemma bind_Ok {B C : Type} (a : B) (k : B -> result C) : (Ok a ≫= k) = k a.
Proof. reflexivity. Qed.

Lemma bind_Raise {B C : Type} (e : exn) (k : B -> result C) :
  (Raise e ≫= k) = Raise e.
Proof. reflexivity. Qed.

Lemma for_each_ext_in (l : list A) (f g : A -> S -> result S) (s : S) :
  (forall x s', x ∈ l -> f x s' = g x s') -> for_each l f s = for_each l g s.
Proof.
  revert s. induction l as [|x l IH]; intros s Hfg; simpl; [reflexivity|].
  rewrite (Hfg x s) by apply list_elem_of_here.
  destruct (g x s) as [s'|e]; simpl; [|reflexivity].
  apply IH. intros y s'' Hy. apply Hfg. by apply list_elem_of_further.
Qed.

Lemma for_each_fmap {B : Type} (k : B -> A) (l : list B)
  (f : A -> S -> result S) (s : S) :
  for_each (k <$> l) f s = for_each l (fun x => f (k x)) s.
Proof.
  revert s. induction l as [|x l IH]; intros s; simpl; [reflexivity|].
  destruct (f (k x) s); simpl; [apply IH | reflexivity].
Qed.

Lemma for_each_pure (l : list A) (g : S -> A -> S) (s : S) :
  for_each l (fun x s' => Ok (g s' x)) s = Ok (foldl g s l).
Proof.
  revert s. induction l as [|x l IH]; intros s; simpl; [reflexivity|].
  apply IH.
Qed.

End Loops.

Section DictFacts.
Context {V : Type}.
Implicit Types (d : dict V) (k : Z) (v : V).

Lemma dict_keys_cons k v d : dict_keys ((k, v) :: d) = k :: dict_keys d.
Proof. reflexivity. Qed.

Lemma elem_of_dict_keys k v d : (k, v) ∈ d -> k ∈ dict_keys d.
Proof.
  intros Hin. unfold dict_keys. apply list_elem_of_fmap. exists (k, v). done.
Qed.

Lemma dict_get_elem k v d : dict_wf d -> (k, v) ∈ d -> dict_get k d = Ok v.
Proof.
  unfold dict_wf. induction d as [|[k' v'] d IH]; intros Hnd Hin.
  - by apply elem_of_nil in Hin.
  - rewrite dict_keys_cons in Hnd. apply NoDup_cons in Hnd as [Hk' Hnd].
    simpl. apply elem_of_cons in Hin as [Heq | Hin].
    + injection Heq as -> ->. by rewrite Z.eqb_refl.
    + destruct (Z.eqb_spec k' k) as [-> | Hne].
      * exfalso. apply Hk'. eapply elem_of_dict_keys, Hin.
      * by apply IH.
Qed.

Lemma dict_get_Ok k v d : dict_get k d = Ok v -> (k, v) ∈ d.
Proof.
  induction d as [|[k' v'] d IH]; simpl; [discriminate|].
  destruct (Z.eqb_spec k' k) as [-> | Hne].
  - intros [= ->]. apply list_elem_of_here.
  - intros Hget. apply list_elem_of_further. by apply IH.
Qed.

Lemma dict_get_absent k d : k ∉ dict_keys d -> dict_get k d = Raise KeyError.
Proof.
  induction d as [|[k' v'] d IH]; simpl; [reflexivity|].
  rewrite dict_keys_cons, not_elem_of_cons. intros [Hne Hnin].
  destruct (Z.eqb_spec k' k) as [-> | _]; [done | by apply IH].
Qed.

Lemma dict_get_present k d : k ∈ dict_keys d -> exists v, dict_get k d = Ok v.
Proof.
  induction d as [|[k' v'] d IH]; simpl.
  - intros Hin. by apply elem_of_nil in Hin.
  - rewrite dict_keys_cons, elem_of_cons.
    destruct (Z.eqb_spec k' k) as [-> | Hne]; [by eexists|].
    intros [-> | Hin]; [done | by apply IH].
Qed.

Lemma dict_get_Raise k d e : dict_get k d = Raise e -> e = KeyError /\ k ∉ dict_keys d.
Proof.
  intros Hget. destruct (decide (k ∈ dict_keys d)) as [Hin | Hnin].
  - apply dict_get_present in Hin as [v Hv]. congruence.
  - rewrite (dict_get_absent _ _ Hnin) in Hget. split; [congruence | done].
Qed.

Lemma dict_contains_spec k d : dict_contains k d = true <-> k ∈ dict_keys d.
Proof.
  induction d as [|[k' v'] d IH].
  - simpl. split; [discriminate | intros Hin; by apply elem_of_nil in Hin].
  - rewrite dict_keys_cons, elem_of_cons. cbn [dict_contains].
    destruct (Z.eqb_spec k' k) as [-> | Hne]; [tauto|].
    rewrite IH. split; [tauto | intros [-> | ?]; done].
Qed.

(** A loop over the keys that reads each value back is a loop over the
    items. *)
Lemma for_each_dict {S : Type} (d : dict V) (f : Z -> V -> S -> result S) (s : S) :
  dict_wf d ->
  for_each (dict_keys d) (fun k s' => v ← dict_get k d; f k v s') s =
  for_each d (fun kv s' => f (fst kv) (snd kv) s') s.
Proof.
  intros Hwf. unfold dict_keys. rewrite for_each_fmap.
  apply for_each_ext_in. intros [k v] s' Hin. simpl.
  by rewrite (dict_get_elem k v d Hwf Hin).
Qed.

End DictFacts.

(** ** sorted *)

Section SortedFacts.
Context {A : Type} (key : A -> Z).

Lemma sorted_insert_perm (x : A) (l : list A) : sorted_insert key x l ≡ₚ x :: l.
Proof.
  induction l as [|y l IH]; simpl; [reflexivity|].
  destruct (key y <? key x); [|reflexivity].
  rewrite IH. apply Permutation_swap.
Qed.

Lemma sorted_perm (l : list A) : sorted key l ≡ₚ l.
Proof.
  induction l as [|x l IH]; simpl; [reflexivity|].
  rewrite sorted_insert_perm. by rewrite IH.
Qed.

Lemma sorted_insert_sorted (x : A) (l : list A) :
  StronglySorted (key_le key) l -> StronglySorted (key_le key) (sorted_insert key x l).
Proof.
  induction l as [|y l IH]; intros Hs; simpl.
  - repeat constructor.
  - apply StronglySorted_inv in Hs as [Hs Hall].
    destruct (Z.ltb_spec (key y) (key x)) as [Hlt | Hge].
    + constructor; [by apply IH|].
      rewrite sorted_insert_perm. constructor; [unfold key_le; lia | done].
    + constructor; [by constructor|].
      constructor; [done|].
      eapply Forall_impl; [exact Hall|]. unfold key_le. intros z Hz. simpl in *. lia.
Qed.

Lemma sorted_sorted (l : list A) : StronglySorted (key_le key) (sorted key l).
Proof.
  induction l as [|x l IH]; simpl; [constructor | by apply sorted_insert_sorted].
Qed.

(** Stability, in the form the table needs: what is already in order is
    returned as it is. *)
Lemma sorted_of_sorted (l : list A) : StronglySorted (key_le key) l -> sorted key l = l.
Proof.
  induction l as [|x l IH]; intros Hs; simpl; [reflexivity|].
  apply StronglySorted_inv in Hs as [Hs Hall].
  rewrite IH by done.
  destruct l as [|y l]; simpl; [reflexivity|].
  apply Forall_cons in Hall as [Hxy _]. unfold key_le in Hxy.
  destruct (Z.ltb_spec (key y) (key x)); [lia | reflexivity].
Qed.

Lemma sorted_idempotent (l : list A) : sorted key (sorted key l) = sorted key l.
Proof. apply sorted_of_sorted, sorted_sorted. Qed.

Lemma key_le_lt (l : list A) :
  NoDup (key <$> l) -> StronglySorted (key_le key) l -> StronglySorted (key_lt key) l.
Proof.
  induction l as [|x l IH]; intros Hnd Hs; [constructor|].
  rewrite fmap_cons in Hnd. apply NoDup_cons in Hnd as [Hx Hnd].
  apply StronglySorted_inv in Hs as [Hs Hall].
  constructor; [by apply IH|].
  apply Forall_forall. intros y Hy.
  rewrite Forall_forall in Hall. specialize (Hall y Hy).
  unfold key_le in Hall. unfold key_lt.
  assert (key x <> key y); [|lia].
  intros Heq. apply Hx. rewrite Heq. apply list_elem_of_fmap. by exists y.
Qed.

Lemma key_lt_le (l : list A) : StronglySorted (key_lt key) l -> StronglySorted (key_le key) l.
Proof.
  induction 1 as [|x l Hs IH Hall]; constructor; [done|].
  eapply Forall_impl; [exact Hall|]. unfold key_lt, key_le. intros; simpl in *; lia.
Qed.

Lemma sorted_ascending (l : list A) :
  NoDup (key <$> l) -> StronglySorted (key_lt key) (sorted key l).
Proof.
  intros Hnd. apply key_le_lt; [|apply sorted_sorted].
  by rewrite sorted_perm.
Qed.

End SortedFacts.

Lemma key_lt_fst {V : Type} (d : dict V) :
  StronglySorted (key_lt fst) d <-> StronglySorted Z.lt (dict_keys d).
Proof.
  unfold dict_keys. induction d as [|[k v] d IH].
  - split; constructor.
  - rewrite fmap_cons. rewrite !StronglySorted_cons. rewrite IH. rewrite Forall_fmap. reflexivity.
Qed.

Lemma foldl_snoc {A : Type} (acc l : list A) :
  foldl (fun acc x => acc ++ [x]) acc l = acc ++ l.
Proof.
  revert acc. induction l as [|x l IH]; intros acc; simpl.
  - by rewrite app_nil_r.
  - rewrite IH, <- app_assoc. reflexivity.
Qed.

Lemma dict_set_fresh {V : Type} (k : Z) (v : V) (d : dict V) :
  k ∉ dict_keys d -> dict_set k v d = d ++ [(k, v)].
Proof.
  induction d as [|[k' v'] d IH]; [reflexivity|].
  rewrite dict_keys_cons, not_elem_of_cons. intros [Hne Hnin]. simpl.
  destruct (Z.eqb_spec k' k) as [-> | _]; [done|].
  by rewrite IH.
Qed.

Lemma dict_keys_app {V : Type} (d1 d2 : dict V) :
  dict_keys (d1 ++ d2) = dict_keys d1 ++ dict_keys d2.
Proof. unfold dict_keys. apply fmap_app. Qed.

Lemma OrderedDict_items {V : Type} (d : dict V) : dict_wf d -> OrderedDict d = d.
Proof.
  unfold OrderedDict, dict_wf.
  enough (forall acc : dict V, NoDup (dict_keys (acc ++ d)) ->
            foldl (fun d' kv => dict_set (fst kv) (snd kv) d') acc d = acc ++ d)
    as Hgen by (intros Hnd; exact (Hgen [] Hnd)).
  induction d as [|[k v] d IH]; intros acc Hnd; simpl.
  - by rewrite app_nil_r.
  - rewrite dict_set_fresh.
    + rewrite IH; [by rewrite <- app_assoc|].
      by rewrite <- app_assoc.
    + rewrite dict_keys_app, dict_keys_cons in Hnd.
      apply NoDup_app in Hnd as (_ & Hdisj & _).
      intros Hin. apply (Hdisj k Hin). apply list_elem_of_here.
Qed.

(** ** The passes of update_delta_times over the store *)

Lemma heap_update_eq (r : ref) (f : Note.t -> Note.t) (h : heap) :
  heap_update r f h r = f (h r).
Proof. unfold heap_update. by rewrite Nat.eqb_refl. Qed.

Lemma heap_update_ne (r r' : ref) (f : Note.t -> Note.t) (h : heap) :
  r' <> r -> heap_update r f h r' = h r'.
Proof.
  intros Hne. unfold heap_update.
  destruct (Nat.eqb_spec r' r); [done | reflexivity].
Qed.

Lemma set_previous_all_spec (pt : Z) (refs : list ref) (h : heap) (r : ref) :
  set_previous_all pt refs h r =
    if decide (r ∈ refs)
    then Note.set_previous_delta_ticks (Note.timeline_tick (h r) - pt) (h r)
    else h r.
Proof.
  unfold set_previous_all. revert h.
  induction refs as [|x refs IH]; intros h; simpl.
  - destruct (decide (r ∈ [])) as [Hin|]; [by apply elem_of_nil in Hin | reflexivity].
  - rewrite IH. destruct (decide (r = x)) as [-> | Hne].
    + rewrite heap_update_eq.
      destruct (decide (x ∈ refs)), (decide (x ∈ x :: refs)) as [|Hn];
        try reflexivity; exfalso; apply Hn; apply list_elem_of_here.
    + rewrite heap_update_ne by done.
      destruct (decide (r ∈ refs)) as [Hin | Hnin], (decide (r ∈ x :: refs)) as [Hin' | Hnin'];
        try reflexivity.
      * exfalso. apply Hnin'. by apply list_elem_of_further.
      * exfalso. apply elem_of_cons in Hin' as [? | ?]; done.
Qed.

Lemma set_next_all_spec (t : Z) (refs : list ref) (h : heap) (r : ref) :
  set_next_all t refs h r =
    if decide (r ∈ refs)
    then Note.set_next_delta_ticks (t - Note.timeline_tick (h r)) (h r)
    else h r.
Proof.
  unfold set_next_all. revert h.
  induction refs as [|x refs IH]; intros h; simpl.
  - destruct (decide (r ∈ [])) as [Hin|]; [by apply elem_of_nil in Hin | reflexivity].
  - rewrite IH. destruct (decide (r = x)) as [-> | Hne].
    + rewrite heap_update_eq.
      destruct (decide (x ∈ refs)), (decide (x ∈ x :: refs)) as [|Hn];
        try reflexivity; exfalso; apply Hn; apply list_elem_of_here.
    + rewrite heap_update_ne by done.
      destruct (decide (r ∈ refs)) as [Hin | Hnin], (decide (r ∈ x :: refs)) as [Hin' | Hnin'];
        try reflexivity.
      * exfalso. apply Hnin'. by apply list_elem_of_further.
      * exfalso. apply elem_of_cons in Hin' as [? | ?]; done.
Qed.

(** ** The loops of update_delta_times, with their lookups resolved *)

Lemma row_refs_cons (c : Z) (cell : dict ref) (row : dict (dict ref)) :
  row_refs ((c, cell) :: row) = cell_refs cell ++ row_refs row.
Proof. reflexivity. Qed.

Lemma elem_of_row_refs (row : dict (dict ref)) (r : ref) :
  r ∈ row_refs row <-> exists c cell p, (c, cell) ∈ row /\ (p, r) ∈ cell.
Proof.
  induction row as [|[c cell] row IH].
  - split; [intros Hin; by apply elem_of_nil in Hin|].
    intros (c & cell & p & Hin & _). by apply elem_of_nil in Hin.
  - rewrite row_refs_cons, elem_of_app, IH. split.
    + intros [Hin | (c' & cell' & p & Hrow & Hcell)].
      * unfold cell_refs in Hin. apply list_elem_of_fmap in Hin as ([p r'] & -> & Hin).
        exists c, cell, p. split; [apply list_elem_of_here | done].
      * exists c', cell', p. split; [by apply list_elem_of_further | done].
    + intros (c' & cell' & p & Hrow & Hcell).
      apply elem_of_cons in Hrow as [Heq | Hrow].
      * injection Heq as -> ->. left. unfold cell_refs.
        apply list_elem_of_fmap. by exists (p, r).
      * right. by exists c', cell', p.
Qed.

Section RowLoop.
Context {S : Type} (tb : dict (dict (dict ref))).

(** The shape shared by the loop nests of [update_delta_times] and of
    [__build__]: for each channel of a row, for each pitch of the cell, read
    [table[tick][channel][pitch]] and do [g] with it. *)
Lemma cell_loop (tick channel : Z) (row : dict (dict ref)) (cell : dict ref)
  (g : S -> ref -> S) (s : S) :
  table_wf tb -> (tick, row) ∈ tb -> (channel, cell) ∈ row ->
  for_each (dict_keys cell) (fun pitch s' =>
    note ← (row' ← dict_get tick tb; cell' ← dict_get channel row';
            dict_get pitch cell');
    Ok (g s' note)) s
  = Ok (foldl g s (cell_refs cell)).
Proof.
  intros (Htb & Hrows) Hrow Hcell.
  destruct (Hrows tick row Hrow) as (Hwrow & Hcells).
  specialize (Hcells channel cell Hcell).
  rewrite (for_each_ext_in _ _
    (fun pitch s' => note ← dict_get pitch cell; Ok (g s' note))).
  - rewrite (for_each_dict cell (fun _ note s' => Ok (g s' note))) by done.
    rewrite (for_each_pure cell (fun s' kv => g s' (snd kv))).
    unfold cell_refs. f_equal. clear. revert s.
    induction cell as [|[p r] cell IH]; intros s; simpl; [reflexivity | apply IH].
  - intros pitch s' _.
    rewrite (dict_get_elem tick row tb Htb Hrow), bind_Ok.
    rewrite (dict_get_elem channel cell row Hwrow Hcell), bind_Ok. reflexivity.
Qed.

Lemma row_loop (tick : Z) (row : dict (dict ref)) (g : S -> ref -> S) (s : S) :
  table_wf tb -> (tick, row) ∈ tb ->
  for_each (dict_keys row) (fun channel s' =>
    cell ← (row' ← dict_get tick tb; dict_get channel row');
    for_each (dict_keys cell) (fun pitch s'' =>
      note ← (row' ← dict_get tick tb; cell' ← dict_get channel row';
              dict_get pitch cell');
      Ok (g s'' note)) s') s
  = Ok (foldl g s (row_refs row)).
Proof.
  intros Hwf Hrow.
  pose proof Hwf as (Htb & Hrows).
  destruct (Hrows tick row Hrow) as (Hwrow & _).
  rewrite (for_each_ext_in _ _
    (fun channel s' => cell ← dict_get channel row; Ok (foldl g s' (cell_refs cell)))).
  - rewrite (for_each_dict row (fun _ cell s' => Ok (foldl g s' (cell_refs cell)))) by done.
    rewrite (for_each_pure row (fun s' kv => foldl g s' (cell_refs (snd kv)))).
    f_equal. clear. revert s.
    induction row as [|[c cell] row IH]; intros s; [reflexivity|].
    rewrite row_refs_cons, foldl_app. simpl. apply IH.
  - intros channel s' Hin.
    destruct (dict_get_present channel row Hin) as [cell Hget].
    assert (Hcell : (dict_get tick tb ≫= fun row' => dict_get channel row') = Ok cell)
      by (by rewrite (dict_get_elem tick row tb Htb Hrow), bind_Ok).
    rewrite Hcell, Hget, !bind_Ok.
    apply (cell_loop tick channel row); [done | done | by apply dict_get_Ok].
Qed.

End RowLoop.

Section UpdateDeltaTimes.
Import OrganizedNotesTable.
Context (self : OrganizedNotesTable.t) (Hwf : table_wf (table self)).

Lemma update_previous_ok (tick pt : Z) (row : dict (dict ref)) (h : heap) :
  (tick, row) ∈ table self ->
  update_previous self tick (Some pt) h = Ok (set_previous_all pt (row_refs row) h).
Proof.
  intros Hrow. unfold update_previous.
  rewrite (dict_get_elem tick row (table self) (proj1 Hwf) Hrow) at 1.
  rewrite bind_Ok.
  exact (row_loop (table self) tick row
           (fun h note =>
              heap_update note
                (Note.set_previous_delta_ticks (Note.timeline_tick (h note) - pt)) h)
           h Hwf Hrow).
Qed.

Lemma update_next_ok (tick pt : Z) (prow : dict (dict ref)) (h : heap) :
  (pt, prow) ∈ table self ->
  update_next self tick (Some pt) h = Ok (set_next_all tick (row_refs prow) h).
Proof.
  intros Hrow. unfold update_next, dict_get_opt.
  rewrite (dict_get_elem pt prow (table self) (proj1 Hwf) Hrow) at 1.
  rewrite bind_Ok.
  exact (row_loop (table self) pt prow
           (fun h note =>
              heap_update note
                (Note.set_next_delta_ticks (tick - Note.timeline_tick (h note))) h)
           h Hwf Hrow).
Qed.

Lemma update_step_ok (tick pt : Z) (row prow : dict (dict ref)) (h : heap) :
  (tick, row) ∈ table self -> (pt, prow) ∈ table self ->
  update_step self tick (Some pt, h) =
    Ok (Some tick,
        set_next_all tick (row_refs prow) (set_previous_all pt (row_refs row) h)).
Proof.
  intros Hrow Hprow. unfold update_step. cbn [fst snd].
  rewrite (update_previous_ok tick pt row h Hrow), bind_Ok.
  by rewrite (update_next_ok tick pt prow _ Hprow), bind_Ok.
Qed.

Lemma update_loop_ok (rest : dict (dict (dict ref))) :
  forall (done : dict (dict (dict ref))) (pt : Z) (prow : dict (dict ref)) (h : heap),
    table self = done ++ rest -> (pt, prow) ∈ table self ->
    (st ← for_each (dict_keys rest) (update_step self) (Some pt, h); Ok (snd st))
    = Ok (delta_loop pt prow rest h).
Proof.
  induction rest as [|[t row] rest IH]; intros done pt prow h Hsplit Hprow.
  - reflexivity.
  - rewrite dict_keys_cons. cbn [for_each].
    assert (Hrow : (t, row) ∈ table self).
    { rewrite Hsplit. apply elem_of_app. right. apply list_elem_of_here. }
    rewrite (update_step_ok t pt row prow h Hrow Hprow), bind_Ok.
    cbn [delta_loop].
    apply (IH (done ++ [(t, row)])); [|done].
    by rewrite <- app_assoc.
Qed.

Lemma update_delta_times_ok (h : heap) :
  update_delta_times self h =
    Ok (match table self with
        | [] => h
        | (t0, row0) :: _ => delta_loop t0 row0 (table self) h
        end).
Proof.
  unfold update_delta_times, first_tick.
  pose proof (fun t0 row0 => update_loop_ok (table self) [] t0 row0 h eq_refl) as Hloop.
  destruct (table self) as [|[t0 row0] rest].
  - reflexivity.
  - rewrite dict_keys_cons, bind_Ok.
    apply Hloop. apply list_elem_of_here.
Qed.

End UpdateDeltaTimes.

(** ** What the outer loop leaves in the store *)

Section DeltaLoop.

Lemma same_but_gaps_refl (n : Note.t) : Note.same_but_gaps n n.
Proof. by repeat split. Qed.

Lemma same_but_gaps_trans (a b c : Note.t) :
  Note.same_but_gaps a b -> Note.same_but_gaps b c -> Note.same_but_gaps a c.
Proof.
  unfold Note.same_but_gaps. intros (? & ? & ? & ? & ? & ?) (? & ? & ? & ? & ? & ?).
  repeat split; congruence.
Qed.

Lemma set_previous_all_static (pt : Z) (refs : list ref) (h : heap) (r : ref) :
  Note.same_but_gaps (set_previous_all pt refs h r) (h r) /\
  Note.next_delta_ticks (set_previous_all pt refs h r) = Note.next_delta_ticks (h r).
Proof.
  rewrite set_previous_all_spec. destruct (decide (r ∈ refs)); by repeat split.
Qed.

Lemma set_next_all_static (t : Z) (refs : list ref) (h : heap) (r : ref) :
  Note.same_but_gaps (set_next_all t refs h r) (h r) /\
  Note.previous_delta_ticks (set_next_all t refs h r) = Note.previous_delta_ticks (h r).
Proof.
  rewrite set_next_all_spec. destruct (decide (r ∈ refs)); by repeat split.
Qed.

Lemma one_step_static pt prow t row h r :
  Note.same_but_gaps (one_step pt prow t row h r) (h r).
Proof.
  unfold one_step. eapply same_but_gaps_trans.
  - apply set_next_all_static.
  - apply set_previous_all_static.
Qed.

Lemma one_step_current pt prow t row h r :
  r ∈ row_refs row -> Note.timeline_tick (h r) = t ->
  Note.previous_delta_ticks (one_step pt prow t row h r) = t - pt.
Proof.
  intros Hin Htt. unfold one_step.
  rewrite (proj2 (set_next_all_static _ _ _ _)), set_previous_all_spec.
  rewrite decide_True by done. simpl. by rewrite Htt.
Qed.

Lemma one_step_previous pt prow t row h r :
  r ∈ row_refs prow -> Note.timeline_tick (h r) = pt ->
  Note.next_delta_ticks (one_step pt prow t row h r) = t - pt.
Proof.
  intros Hin Htt. unfold one_step.
  rewrite set_next_all_spec, decide_True by done. simpl.
  by rewrite (proj1 (proj1 (set_previous_all_static _ _ _ _))), Htt.
Qed.

Lemma one_step_not_current pt prow t row h r :
  r ∉ row_refs row ->
  Note.previous_delta_ticks (one_step pt prow t row h r) = Note.previous_delta_ticks (h r).
Proof.
  intros Hnin. unfold one_step.
  rewrite (proj2 (set_next_all_static _ _ _ _)), set_previous_all_spec.
  by rewrite decide_False by done.
Qed.

Lemma one_step_not_previous pt prow t row h r :
  r ∉ row_refs prow ->
  Note.next_delta_ticks (one_step pt prow t row h r) = Note.next_delta_ticks (h r).
Proof.
  intros Hnin. unfold one_step.
  rewrite set_next_all_spec, decide_False by done.
  apply set_previous_all_static.
Qed.

Lemma one_step_frame pt prow t row h r :
  r ∉ row_refs row -> r ∉ row_refs prow -> one_step pt prow t row h r = h r.
Proof.
  intros Hrow Hprow. unfold one_step.
  rewrite set_next_all_spec, decide_False by done.
  by rewrite set_previous_all_spec, decide_False by done.
Qed.

End DeltaLoop.

Lemma note_at_cons (t t' : Z) (row : dict (dict ref)) (rest : dict (dict (dict ref)))
  (r : ref) :
  note_at ((t', row) :: rest) t r <-> (t = t' /\ r ∈ row_refs row) \/ note_at rest t r.
Proof.
  unfold note_at. split.
  - intros (row' & Hin & Hr). apply elem_of_cons in Hin as [Heq | Hin].
    + injection Heq as -> ->. by left.
    + right. by exists row'.
  - intros [[-> Hr] | (row' & Hin & Hr)].
    + exists row. split; [apply list_elem_of_here | done].
    + exists row'. split; [by apply list_elem_of_further | done].
Qed.

Lemma note_at_key (tb : dict (dict (dict ref))) (t : Z) (r : ref) :
  note_at tb t r -> t ∈ dict_keys tb.
Proof. intros (row & Hin & _). eapply elem_of_dict_keys, Hin. Qed.

Lemma delta_loop_spec (rest : dict (dict (dict ref))) :
  forall (pt : Z) (prow : dict (dict ref)) (h : heap),
    NoDup (pt :: dict_keys rest) ->
    (forall r, r ∈ row_refs prow -> Note.timeline_tick (h r) = pt) ->
    (forall t r, note_at rest t r -> Note.timeline_tick (h r) = t) ->
    let hf := delta_loop pt prow rest h in
    (forall r, Note.same_but_gaps (hf r) (h r)) /\
    (forall r, r ∉ row_refs prow -> (forall t, ~ note_at rest t r) -> hf r = h r) /\
    (forall r, r ∈ row_refs prow ->
       Note.previous_delta_ticks (hf r) = Note.previous_delta_ticks (h r)) /\
    (forall l1 a ra b rb l2 r,
       (pt, prow) :: rest = l1 ++ (a, ra) :: (b, rb) :: l2 ->
       (r ∈ row_refs rb -> Note.previous_delta_ticks (hf r) = b - a) /\
       (r ∈ row_refs ra -> Note.next_delta_ticks (hf r) = b - a)) /\
    (forall l1 a ra r,
       (pt, prow) :: rest = l1 ++ [(a, ra)] -> r ∈ row_refs ra ->
       Note.next_delta_ticks (hf r) = Note.next_delta_ticks (h r)).
Proof.
  induction rest as [|[t row] rest IH]; intros pt prow h Hnd Hprow Hrest; cbn zeta.
  - cbn [delta_loop]. repeat split; try done.
    + intros Hr. destruct l1 as [|? [|? ?]]; discriminate.
    + intros Hr. destruct l1 as [|? [|? ?]]; discriminate.
  - cbn [delta_loop]. set (h1 := one_step pt prow t row h).
    rewrite dict_keys_cons in Hnd.
    apply NoDup_cons in Hnd as [Hpt Hnd].
    apply not_elem_of_cons in Hpt as [Hpt_t Hpt].
    assert (Hstat1 : forall r, Note.same_but_gaps (h1 r) (h r))
      by (intros r; apply one_step_static).
    assert (Hrow : forall r, r ∈ row_refs row -> Note.timeline_tick (h r) = t).
    { intros r Hr. apply Hrest, note_at_cons. by left. }
    assert (Hrest' : forall t' r, note_at rest t' r -> Note.timeline_tick (h r) = t').
    { intros t' r Hr. apply Hrest, note_at_cons. by right. }
    assert (Hdisj : forall r, r ∈ row_refs prow -> r ∉ row_refs row).
    { intros r Hp Hr. apply Hprow in Hp. apply Hrow in Hr. congruence. }
    assert (Hdisj' : forall r t', r ∈ row_refs prow -> ~ note_at rest t' r).
    { intros r t' Hp Hr. apply Hprow in Hp. pose proof (note_at_key _ _ _ Hr) as Hk.
      apply Hrest' in Hr. congruence. }
    assert (Hdisj'' : forall r t', r ∈ row_refs row -> ~ note_at rest t' r).
    { intros r t' Hp Hr. apply Hrow in Hp. pose proof (note_at_key _ _ _ Hr) as Hk.
      apply Hrest' in Hr. apply NoDup_cons in Hnd as [Ht _]. congruence. }
    destruct (IH t row h1) as (Hstat & Hframe & Hprev & Hadj & Hlast); [done | | |].
    { intros r Hr. rewrite (proj1 (Hstat1 r)). by apply Hrow. }
    { intros t' r Hr. rewrite (proj1 (Hstat1 r)). by apply Hrest'. }
    split; [|split; [|split; [|split]]].
    + intros r. eapply same_but_gaps_trans; [apply Hstat | apply Hstat1].
    + intros r Hnp Hnr. rewrite Hframe.
      * apply one_step_frame; [|done].
        intros Hr. apply (Hnr t), note_at_cons. by left.
      * intros Hr. apply (Hnr t), note_at_cons. by left.
      * intros t' Hr. apply (Hnr t'), note_at_cons. by right.
    + intros r Hr. rewrite Hframe; [| by apply Hdisj | intros t'; by apply Hdisj'].
      apply one_step_not_current. by apply Hdisj.
    + intros l1 a ra b rb l2 r Heq. destruct l1 as [|e l1].
      * injection Heq as <- <- <- <- <-. split; intros Hr.
        -- rewrite Hprev by done. apply one_step_current; [done | by apply Hrow].
        -- rewrite Hframe; [| by apply Hdisj | intros t'; by apply Hdisj'].
           apply one_step_previous; [done | by apply Hprow].
      * injection Heq as _ Heq. by apply (Hadj l1 a ra b rb l2 r).
    + intros l1 a ra r Heq Hr. destruct l1 as [|e l1]; [discriminate|].
      injection Heq as _ Heq. rewrite (Hlast l1 a ra r Heq Hr).
      apply one_step_not_previous. intros Hp.
      assert (Hat : note_at ((t, row) :: rest) a r).
      { exists ra. split; [|done]. rewrite Heq. apply elem_of_app. right.
        apply list_elem_of_here. }
      pose proof (note_at_key _ _ _ Hat) as Hk. rewrite dict_keys_cons in Hk.
      apply Hrest in Hat. apply Hprow in Hp.
      apply elem_of_cons in Hk as [-> | Hk]; congruence.
Qed.

(** ** Positions in an ascending table *)

Section Positions.
Implicit Types (tb : dict (dict (dict ref))).

Lemma dict_value_unique {V : Type} (d : dict V) (k : Z) (v v' : V) :
  dict_wf d -> (k, v) ∈ d -> (k, v') ∈ d -> v = v'.
Proof.
  intros Hwf Hv Hv'.
  pose proof (dict_get_elem k v d Hwf Hv) as H1.
  pose proof (dict_get_elem k v' d Hwf Hv') as H2. congruence.
Qed.

Lemma elem_of_dict_keys_inv {V : Type} (d : dict V) (k : Z) :
  k ∈ dict_keys d -> exists v, (k, v) ∈ d.
Proof.
  unfold dict_keys. intros Hin.
  apply list_elem_of_fmap in Hin as ([k' v] & -> & Hin). by exists v.
Qed.

Lemma ascending_wf tb : ascending tb -> dict_wf tb.
Proof.
  unfold ascending, dict_wf. induction 1 as [|k l Hs IH Hall]; [constructor|].
  apply NoDup_cons. split; [|done].
  intros Hin. rewrite Forall_forall in Hall. specialize (Hall k Hin). lia.
Qed.

Lemma first_position_head tb t :
  ascending tb -> first_position tb t -> exists row rest, tb = (t, row) :: rest.
Proof.
  intros Hasc [Hin Hmin]. destruct tb as [|[k row] rest].
  - by apply elem_of_nil in Hin.
  - unfold ascending in Hasc. rewrite dict_keys_cons in *.
    apply StronglySorted_inv in Hasc as [_ Hall]. rewrite Forall_forall in Hall.
    assert (t <= k) by (apply Hmin, list_elem_of_here).
    apply elem_of_cons in Hin as [-> | Hin]; [by eexists _, _|].
    specialize (Hall t Hin). lia.
Qed.

Lemma last_position_split tb t :
  ascending tb -> last_position tb t -> exists l1 row, tb = l1 ++ [(t, row)].
Proof.
  intros Hasc [Hin Hmax].
  apply elem_of_dict_keys_inv in Hin as [row Hin].
  apply list_elem_of_split in Hin as (l1 & l2 & ->).
  exists l1, row. destruct l2 as [|[k rk] l2]; [reflexivity | exfalso].
  unfold ascending in Hasc. rewrite dict_keys_app, !dict_keys_cons in Hasc.
  apply StronglySorted_app_1_r, StronglySorted_inv in Hasc as [_ Hall].
  apply Forall_cons in Hall as [Hlt _].
  assert (k <= t); [|lia].
  apply Hmax. rewrite dict_keys_app, !dict_keys_cons.
  apply elem_of_app. right. apply list_elem_of_further, list_elem_of_here.
Qed.

Lemma consecutive_split tb a b :
  ascending tb -> consecutive tb a b ->
  exists l1 ra rb l2, tb = l1 ++ (a, ra) :: (b, rb) :: l2.
Proof.
  intros Hasc (Ha & Hb & Hab & Hbetween).
  apply elem_of_dict_keys_inv in Ha as [ra Ha].
  apply list_elem_of_split in Ha as (l1 & l2 & ->).
  unfold ascending in Hasc. rewrite dict_keys_app, dict_keys_cons in Hasc, Hb, Hbetween.
  apply StronglySorted_app in Hasc as (Hcross & _ & Hasc).
  apply StronglySorted_inv in Hasc as [Hasc Hall]. rewrite Forall_forall in Hall.
  apply elem_of_app in Hb as [Hb | Hb].
  { specialize (Hcross b a Hb (list_elem_of_here _ _)). lia. }
  apply elem_of_cons in Hb as [-> | Hb]; [lia|].
  destruct l2 as [|[k rk] l2]; [by apply elem_of_nil in Hb|].
  rewrite dict_keys_cons in *.
  assert (Hak : a < k) by (apply Hall, list_elem_of_here).
  apply StronglySorted_inv in Hasc as [_ Hall']. rewrite Forall_forall in Hall'.
  assert (k = b) as ->.
  { apply elem_of_cons in Hb as [-> | Hb]; [done|].
    specialize (Hall' b Hb). exfalso. apply (Hbetween k); [|lia].
    apply elem_of_app. right. apply list_elem_of_further, list_elem_of_here. }
  by exists l1, ra, rk, l2.
Qed.

Lemma note_at_row tb t r row :
  dict_wf tb -> (t, row) ∈ tb -> note_at tb t r -> r ∈ row_refs row.
Proof.
  intros Hwf Hrow (row' & Hrow' & Hr).
  by rewrite (dict_value_unique tb t row row' Hwf Hrow Hrow').
Qed.

Lemma located_timeline (h : heap) tb t r :
  located h tb -> note_at tb t r -> Note.timeline_tick (h r) = t.
Proof.
  intros Hloc (row & Hrow & Hr).
  apply elem_of_row_refs in Hr as (c & cell & p & Hc & Hp).
  by destruct (Hloc t row c cell p r Hrow Hc Hp) as (? & _).
Qed.

End Positions.

(** ** update_delta_times *)

(** C1.  On a non-empty table that iterates in ascending time-position
    order and whose notes still carry the gaps of their constructor,
    [update_delta_times] returns, and in the store it leaves: every note at
    the first time-position has [previous_delta_ticks = 0]; every note at a
    time-position [t] with an immediately preceding time-position [t_prev]
    has [previous_delta_ticks = t - t_prev]; every note at a time-position
    [t] with an immediately following time-position [t_next] has
    [next_delta_ticks = t_next - t]; every note at the last time-position has
    [next_delta_ticks = 0]. *)
Theorem update_delta_times_gaps (self : OrganizedNotesTable.t) (h : heap) :
  wf h self ->
  ascending (OrganizedNotesTable.table self) ->
  OrganizedNotesTable.table self <> [] ->
  default_gaps h (OrganizedNotesTable.table self) ->
  exists h',
    OrganizedNotesTable.update_delta_times self h = Ok h' /\
    (forall t r,
       first_position (OrganizedNotesTable.table self) t ->
       note_at (OrganizedNotesTable.table self) t r ->
       Note.previous_delta_ticks (h' r) = 0) /\
    (forall t_prev t r,
       consecutive (OrganizedNotesTable.table self) t_prev t ->
       note_at (OrganizedNotesTable.table self) t r ->
       Note.previous_delta_ticks (h' r) = t - t_prev) /\
    (forall t t_next r,
       consecutive (OrganizedNotesTable.table self) t t_next ->
       note_at (OrganizedNotesTable.table self) t r ->
       Note.next_delta_ticks (h' r) = t_next - t) /\
    (forall t r,
       last_position (OrganizedNotesTable.table self) t ->
       note_at (OrganizedNotesTable.table self) t r ->
       Note.next_delta_ticks (h' r) = 0).
Proof.
  intros (Htwf & Hloc & _ & _) Hasc Hne Hdef.
  eexists. split; [apply update_delta_times_ok; exact Htwf|].
  set (tb := OrganizedNotesTable.table self) in *.
  pose proof (ascending_wf tb Hasc) as Hnd.
  destruct tb as [|[t0 row0] rest0] eqn:Htb; [done|]. clear Hne.
  cbn [delta_loop]. set (h1 := one_step t0 row0 t0 row0 h).
  assert (Hhead : (t0, row0) ∈ (t0, row0) :: rest0) by apply list_elem_of_here.
  assert (Htt : forall t r, note_at ((t0, row0) :: rest0) t r -> Note.timeline_tick (h r) = t)
    by (intros t r; by apply located_timeline).
  assert (Hrow0 : forall r, r ∈ row_refs row0 -> Note.timeline_tick (h r) = t0).
  { intros r Hr. apply Htt. by exists row0. }
  assert (Hstat1 : forall r, Note.same_but_gaps (h1 r) (h r))
    by (intros r; apply one_step_static).
  destruct (delta_loop_spec rest0 t0 row0 h1) as (_ & _ & Hprev & Hadj & Hlast).
  { exact Hnd. }
  { intros r Hr. rewrite (proj1 (Hstat1 r)). by apply Hrow0. }
  { intros t r Hr. rewrite (proj1 (Hstat1 r)). apply Htt, note_at_cons. by right. }
  split; [|split; [|split]].
  - intros t r Hfirst Hat.
    apply first_position_head in Hfirst as (row & rest & Heq); [|done].
    injection Heq as <- <- <-.
    pose proof (note_at_row _ _ _ _ Hnd Hhead Hat) as Hr.
    rewrite Hprev by done. unfold h1.
    rewrite one_step_current; [lia | done | by apply Hrow0].
  - intros a b r Hcons Hat.
    apply consecutive_split in Hcons as (l1 & ra & rb & l2 & Heq); [|done].
    apply (Hadj l1 a ra b rb l2 r Heq).
    eapply note_at_row; [exact Hnd | | exact Hat].
    rewrite Heq. apply elem_of_app. right. apply list_elem_of_further, list_elem_of_here.
  - intros a b r Hcons Hat.
    apply consecutive_split in Hcons as (l1 & ra & rb & l2 & Heq); [|done].
    apply (Hadj l1 a ra b rb l2 r Heq).
    eapply note_at_row; [exact Hnd | | exact Hat].
    rewrite Heq. apply elem_of_app. right. apply list_elem_of_here.
  - intros t r Hlastp Hat.
    apply last_position_split in Hlastp as (l1 & row & Heq); [|done].
    assert (Hr : r ∈ row_refs row).
    { eapply note_at_row; [exact Hnd | | exact Hat].
      rewrite Heq. apply elem_of_app. right. apply list_elem_of_here. }
    rewrite (Hlast l1 t row r Heq Hr). unfold h1.
    destruct l1 as [|e l1].
    + injection Heq as <- <- _.
      rewrite one_step_previous; [lia | done | by apply Hrow0].
    + rewrite one_step_not_previous; [by apply (Hdef t r)|].
      intros Hr0. apply Hrow0 in Hr0. apply Htt in Hat.
      injection Heq as _ Heq. unfold dict_wf in Hnd. rewrite dict_keys_cons in Hnd.
      apply NoDup_cons in Hnd as [Hnin _]. apply Hnin.
      rewrite Heq, dict_keys_app, dict_keys_cons. apply elem_of_app. right.
      rewrite <- Hr0, Hat. apply list_elem_of_here.
Qed.

(** C9.  [update_delta_times] returns a store, raising nothing, on every
    table whose three levels are dictionaries: the loop over the notes of
    the previous tick walks the channels stored at that tick and looks up
    nothing else, so a channel that appears only at the current tick is never
    asked for there. *)
Theorem update_delta_times_total (self : OrganizedNotesTable.t) (h : heap) :
  table_wf (OrganizedNotesTable.table self) ->
  exists h', OrganizedNotesTable.update_delta_times self h = Ok h'.
Proof.
  intros Hwf. eexists. by apply update_delta_times_ok.
Qed.

(** ** Assignment into a dictionary *)

Section DictSet.
Context {V : Type}.
Implicit Types (d : dict V) (k : Z) (v : V).

Lemma dict_get_set k k' v d :
  dict_get k' (dict_set k v d) = if decide (k' = k) then Ok v else dict_get k' d.
Proof.
  induction d as [|[k0 v0] d IH]; simpl.
  - destruct (decide (k' = k)) as [-> | Hne].
    + by rewrite Z.eqb_refl.
    + destruct (Z.eqb_spec k k'); [congruence | reflexivity].
  - destruct (Z.eqb_spec k0 k) as [-> | Hne0]; simpl.
    + destruct (decide (k' = k)) as [-> | Hne].
      * by rewrite Z.eqb_refl.
      * destruct (Z.eqb_spec k k'); [congruence | reflexivity].
    + destruct (Z.eqb_spec k0 k') as [-> | Hne1].
      * by rewrite decide_False by done.
      * apply IH.
Qed.

Lemma dict_keys_set k v d :
  dict_keys (dict_set k v d) =
    if decide (k ∈ dict_keys d) then dict_keys d else dict_keys d ++ [k].
Proof.
  induction d as [|[k0 v0] d IH]; cbn [dict_set].
  - rewrite decide_False; [reflexivity | apply not_elem_of_nil].
  - rewrite dict_keys_cons. destruct (Z.eqb_spec k0 k) as [-> | Hne].
    + rewrite dict_keys_cons, decide_True; [reflexivity | apply list_elem_of_here].
    + rewrite dict_keys_cons, IH.
      destruct (decide (k ∈ dict_keys d)) as [Hin | Hnin].
      * rewrite decide_True; [reflexivity | by apply list_elem_of_further].
      * rewrite decide_False; [reflexivity|].
        rewrite not_elem_of_cons. split; [congruence | done].
Qed.

Lemma dict_set_wf k v d : dict_wf d -> dict_wf (dict_set k v d).
Proof.
  unfold dict_wf. intros Hnd. rewrite dict_keys_set.
  destruct (decide (k ∈ dict_keys d)) as [Hin | Hnin]; [done|].
  apply NoDup_app. split; [done|]. split; [|apply NoDup_singleton].
  intros x Hx Hx'. apply list_elem_of_singleton in Hx' as ->. done.
Qed.

Lemma elem_of_dict_set k v k' v' d :
  dict_wf d ->
  (k', v') ∈ dict_set k v d <-> (k' = k /\ v' = v) \/ (k' <> k /\ (k', v') ∈ d).
Proof.
  intros Hwf. pose proof (dict_set_wf k v d Hwf) as Hwf'. split.
  - intros Hin. pose proof (dict_get_elem _ _ _ Hwf' Hin) as Hget.
    rewrite dict_get_set in Hget. destruct (decide (k' = k)) as [-> | Hne].
    + left. split; congruence.
    + right. split; [done | by apply dict_get_Ok].
  - intros [[-> ->] | [Hne Hin]]; apply dict_get_Ok; rewrite dict_get_set.
    + by rewrite decide_True.
    + rewrite decide_False by done. by apply dict_get_elem.
Qed.

End DictSet.

(** ** __build__ *)

Section Build.
Context (h : heap).

Lemma sound_event_notes (ns : list ref) :
  SoundEvent.notes (SoundEvent.init ns h) =
    sorted (fun note => Note.next_delta_ticks (h note)) ns.
Proof. unfold SoundEvent.init. cbn [SoundEvent.notes]. apply foldl_snoc. Qed.

Lemma init_tracks (channels : list Z) :
  forall acc : dict (list SoundEvent.t),
    dict_wf acc ->
    (forall c, c ∈ dict_keys acc -> dict_get c acc = Ok []) ->
    let tr := foldl (fun tracks c => dict_set c [] tracks) acc channels in
    dict_wf tr /\
    (forall c, c ∈ dict_keys tr <-> c ∈ dict_keys acc \/ c ∈ channels) /\
    (forall c, c ∈ dict_keys tr -> dict_get c tr = Ok []).
Proof.
  induction channels as [|c0 channels IH]; intros acc Hwf Hempty; cbn zeta.
  - cbn [foldl]. split; [done|]. split; [|done].
    intros c. rewrite elem_of_nil. tauto.
  - cbn [foldl].
    destruct (IH (dict_set c0 [] acc)) as (Hwf' & Hkeys & Hget).
    + by apply dict_set_wf.
    + intros c Hc. rewrite dict_get_set.
      destruct (decide (c = c0)); [reflexivity|].
      apply Hempty. rewrite dict_keys_set in Hc.
      destruct (decide (c0 ∈ dict_keys acc)); [done|].
      apply elem_of_app in Hc as [Hc | Hc]; [done|].
      by apply list_elem_of_singleton in Hc.
    + split; [done|]. split; [|done].
      intros c. rewrite Hkeys, dict_keys_set, elem_of_cons.
      destruct (decide (c0 ∈ dict_keys acc)) as [Hin | Hnin].
      * split; [tauto|]. intros [? | [-> | ?]]; tauto.
      * rewrite elem_of_app, list_elem_of_singleton. tauto.
Qed.

Lemma build_cell_ok (tb : dict (dict (dict ref))) (t c : Z) (row : dict (dict ref))
  (cell : dict ref) (tracks : dict (list SoundEvent.t)) :
  table_wf tb -> (t, row) ∈ tb -> (c, cell) ∈ row ->
  MusicalTranscript.build_cell tb h t c tracks =
    append_event c (SoundEvent.init (cell_refs cell) h) tracks.
Proof.
  intros Hwf Hrow Hcell. unfold MusicalTranscript.build_cell.
  pose proof Hwf as (Htb & Hrows). destruct (Hrows t row Hrow) as (Hwrow & _).
  assert (Hget : (dict_get t tb ≫= fun row' => dict_get c row') = Ok cell).
  { rewrite (dict_get_elem t row tb Htb Hrow), bind_Ok.
    by apply dict_get_elem. }
  rewrite Hget, bind_Ok.
  rewrite (cell_loop tb t c row cell (fun notes note => notes ++ [note]) [] Hwf Hrow Hcell).
  rewrite bind_Ok, foldl_snoc. reflexivity.
Qed.

Context (ev : dict ref -> SoundEvent.t).

Lemma append_event_ok (c : Z) (e : SoundEvent.t) (tracks : dict (list SoundEvent.t))
  (track : list SoundEvent.t) :
  dict_get c tracks = Ok track ->
  append_event c e tracks = Ok (dict_set c (track ++ [e]) tracks).
Proof. intros Hget. unfold append_event. by rewrite Hget. Qed.

Lemma row_events (row : dict (dict ref)) :
  forall tracks : dict (list SoundEvent.t),
    dict_wf row ->
    (forall c, c ∈ dict_keys row -> c ∈ dict_keys tracks) ->
    exists tracks',
      for_each row (fun kv tr => append_event (fst kv) (ev (snd kv)) tr) tracks
        = Ok tracks' /\
      dict_keys tracks' = dict_keys tracks /\
      forall c, dict_get c tracks' =
                  match dict_get c row with
                  | Ok cell => track ← dict_get c tracks; Ok (track ++ [ev cell])
                  | Raise _ => dict_get c tracks
                  end.
Proof.
  induction row as [|[c0 cell0] row IH]; intros tracks Hwf Hsub.
  - exists tracks. by repeat split.
  - unfold dict_wf in Hwf. rewrite dict_keys_cons in Hwf.
    apply NoDup_cons in Hwf as [Hc0 Hwf].
    assert (Hin0 : c0 ∈ dict_keys tracks).
    { apply Hsub. rewrite dict_keys_cons. apply list_elem_of_here. }
    destruct (dict_get_present c0 tracks Hin0) as [track0 Htrack0].
    cbn [for_each fst snd].
    rewrite (append_event_ok c0 (ev cell0) tracks track0 Htrack0), bind_Ok.
    set (tracks1 := dict_set c0 (track0 ++ [ev cell0]) tracks).
    assert (Hkeys1 : dict_keys tracks1 = dict_keys tracks).
    { unfold tracks1. rewrite dict_keys_set. by rewrite decide_True. }
    destruct (IH tracks1 Hwf) as (tracks' & Hrun & Hkeys & Hget).
    { intros c Hc. rewrite Hkeys1. apply Hsub. rewrite dict_keys_cons.
      by apply list_elem_of_further. }
    exists tracks'. split; [exact Hrun|]. split; [congruence|].
    intros c. rewrite Hget. unfold tracks1. rewrite dict_get_set. cbn [dict_get].
    destruct (decide (c = c0)) as [-> | Hne].
    + rewrite Z.eqb_refl, (dict_get_absent c0 row Hc0), Htrack0. reflexivity.
    + destruct (Z.eqb_spec c0 c); [congruence | reflexivity].
Qed.

Lemma buckets_cons (t c : Z) (row : dict (dict ref)) (tb : dict (dict (dict ref))) :
  buckets ((t, row) :: tb) c =
    match dict_get c row with
    | Ok cell => (t, cell) :: buckets tb c
    | Raise _ => buckets tb c
    end.
Proof. unfold buckets. cbn. by destruct (dict_get c row). Qed.

Lemma table_events (tb : dict (dict (dict ref))) :
  forall tracks : dict (list SoundEvent.t),
    (forall t row, (t, row) ∈ tb ->
       dict_wf row /\ forall c, c ∈ dict_keys row -> c ∈ dict_keys tracks) ->
    exists tracks',
      for_each tb (fun kv tr =>
        for_each (snd kv) (fun kv' tr' => append_event (fst kv') (ev (snd kv')) tr') tr)
        tracks = Ok tracks' /\
      dict_keys tracks' = dict_keys tracks /\
      forall c old, dict_get c tracks = Ok old ->
        dict_get c tracks' = Ok (old ++ ((fun b => ev (snd b)) <$> buckets tb c)).
Proof.
  induction tb as [|[t row] tb IH]; intros tracks Hrows.
  - exists tracks. split; [reflexivity|]. split; [reflexivity|].
    intros c old Hold. by rewrite app_nil_r.
  - destruct (Hrows t row (list_elem_of_here _ _)) as [Hwrow Hsub].
    destruct (row_events row tracks Hwrow Hsub) as (tracks1 & Hrun1 & Hkeys1 & Hget1).
    destruct (IH tracks1) as (tracks' & Hrun & Hkeys & Hget).
    { intros t' row' Hin. rewrite Hkeys1. apply (Hrows t' row').
      by apply list_elem_of_further. }
    exists tracks'. cbn [for_each fst snd]. rewrite Hrun1, bind_Ok.
    split; [exact Hrun|]. split; [congruence|].
    intros c old Hold. rewrite buckets_cons.
    specialize (Hget1 c). rewrite Hold in Hget1.
    destruct (dict_get c row) as [cell|e].
    + rewrite bind_Ok in Hget1. rewrite (Hget c _ Hget1).
      by rewrite fmap_cons, <- app_assoc.
    + by apply Hget.
Qed.

End Build.

Section Buckets.
Context (tb : dict (dict (dict ref))) (c : Z).

Lemma elem_of_buckets (t : Z) (cell : dict ref) :
  table_wf tb ->
  (t, cell) ∈ buckets tb c <-> exists row, (t, row) ∈ tb /\ (c, cell) ∈ row.
Proof.
  intros (_ & Hrows). unfold buckets. rewrite list_elem_of_omap. split.
  - intros ([t' row] & Hin & Hsome). cbn [fst snd] in Hsome.
    destruct (dict_get c row) as [cell'|e] eqn:Hget; [|discriminate].
    injection Hsome as -> ->. exists row. split; [done | by apply dict_get_Ok].
  - intros (row & Hin & Hcell). exists (t, row). split; [done|]. cbn [fst snd].
    destruct (Hrows t row Hin) as (Hwrow & _).
    by rewrite (dict_get_elem c cell row Hwrow Hcell).
Qed.

Lemma buckets_keys (t : Z) : t ∈ (buckets tb c).*1 -> t ∈ dict_keys tb.
Proof.
  intros Hin. apply list_elem_of_fmap in Hin as ([t' cell] & -> & Hin).
  unfold buckets in Hin. apply list_elem_of_omap in Hin as ([t'' row] & Hin & Hsome).
  cbn [fst snd] in *. destruct (dict_get c row); [|discriminate].
  injection Hsome as -> ->. eapply elem_of_dict_keys, Hin.
Qed.

End Buckets.

Lemma buckets_ascending (tb : dict (dict (dict ref))) (c : Z) :
  ascending tb -> StronglySorted Z.lt (buckets tb c).*1.
Proof.
  unfold ascending. induction tb as [|[t row] tb IH]; intros Hasc.
  - constructor.
  - rewrite dict_keys_cons in Hasc. apply StronglySorted_inv in Hasc as [Hasc Hall].
    rewrite buckets_cons. destruct (dict_get c row) as [cell|e]; [|by apply IH].
    rewrite fmap_cons. constructor; [by apply IH|].
    rewrite Forall_forall in Hall. apply Forall_forall. intros k Hk.
    by apply Hall, (buckets_keys tb c).
Qed.

(** C3.  From a table that iterates in ascending time-position order,
    [__build__] returns tracks with exactly one sequence per registered
    channel; the sequence of a channel lists, one for one and in the same
    order, the [(time-position, channel)] buckets of that channel: each
    sound event holds exactly the notes of its bucket, all of them at the
    bucket's time-position, and the time-positions of the sequence ascend
    strictly. *)
Theorem build_grouping (nt : OrganizedNotesTable.t) (h : heap) :
  wf h nt ->
  ascending (OrganizedNotesTable.table nt) ->
  exists tracks,
    MusicalTranscript.build nt h = Ok tracks /\
    dict_wf tracks /\
    (forall c, c ∈ dict_keys tracks <-> c ∈ OrganizedNotesTable.channels nt) /\
    forall c, c ∈ OrganizedNotesTable.channels nt ->
      exists events,
        dict_get c tracks = Ok events /\
        Forall2 (fun b e =>
                   SoundEvent.notes e ≡ₚ cell_refs (snd b) /\
                   length (SoundEvent.notes e) = length (snd b) /\
                   forall r, r ∈ SoundEvent.notes e -> Note.timeline_tick (h r) = fst b)
                (buckets (OrganizedNotesTable.table nt) c) events /\
        StronglySorted Z.lt (buckets (OrganizedNotesTable.table nt) c).*1 /\
        (forall t cell,
           (t, cell) ∈ buckets (OrganizedNotesTable.table nt) c <->
           exists row, (t, row) ∈ OrganizedNotesTable.table nt /\ (c, cell) ∈ row).
Proof.
  intros (Htwf & Hloc & _ & (_ & Hchan)) Hasc.
  unfold MusicalTranscript.build, dict_empty. cbn zeta.
  set (tb := OrganizedNotesTable.table nt) in *.
  set (tracks0 := foldl _ _ _).
  destruct (init_tracks (OrganizedNotesTable.channels nt) []) as (Hwf0 & Hkeys0 & Hget0).
  { apply NoDup_nil_2. }
  { intros c Hc. by apply elem_of_nil in Hc. }
  fold tracks0 in Hwf0, Hkeys0, Hget0.
  set (ev := fun cell : dict ref => SoundEvent.init (cell_refs cell) h).
  rewrite (for_each_dict tb
    (fun tick row tracks =>
       for_each (dict_keys row) (MusicalTranscript.build_cell tb h tick) tracks))
    by apply Htwf.
  rewrite (for_each_ext_in _ _
    (fun kv tr => for_each (snd kv)
       (fun kv' tr' => append_event (fst kv') (ev (snd kv')) tr') tr)).
  2:{ intros [t row] s' Hrow. cbn [fst snd]. unfold dict_keys.
      rewrite for_each_fmap. apply for_each_ext_in.
      intros [c cell] s'' Hcell. cbn [fst snd]. by apply (build_cell_ok h tb t c row). }
  destruct (table_events ev tb tracks0) as (tracks & Hrun & Hkeys & Hget).
  { intros t row Hrow. destruct Htwf as (_ & Hrows).
    split; [by apply (Hrows t row)|].
    intros c Hc. apply Hkeys0. right.
    apply elem_of_dict_keys_inv in Hc as [cell Hcell]. by apply (Hchan t row c cell). }
  exists tracks. split; [exact Hrun|].
  split; [unfold dict_wf; by rewrite Hkeys|].
  split.
  { intros c. rewrite Hkeys, Hkeys0, elem_of_nil. tauto. }
  intros c Hc. eexists. split.
  { apply Hget, Hget0, Hkeys0. by right. }
  split; [|split; [by apply buckets_ascending | intros t cell; by apply elem_of_buckets]].
  cbn [app]. apply Forall2_fmap_r, Forall_Forall2_diag, Forall_forall.
  intros [t cell] Hb. cbn [fst snd]. unfold ev.
  assert (Hperm : SoundEvent.notes (SoundEvent.init (cell_refs cell) h) ≡ₚ cell_refs cell)
    by (rewrite sound_event_notes; apply sorted_perm).
  split; [exact Hperm|]. split.
  { rewrite Hperm. unfold cell_refs. apply length_fmap. }
  intros r Hr. rewrite Hperm in Hr.
  apply elem_of_buckets in Hb as (row & Hrow & Hcell); [|done].
  unfold cell_refs in Hr. apply list_elem_of_fmap in Hr as ([p r'] & -> & Hr).
  by destruct (Hloc t row c cell p r' Hrow Hcell Hr) as (? & _).
Qed.

(** ** Note identity *)

(** C2, as the claim states it, fails: outside the field widths two notes
    that differ in channel and pitch have the same encoding, so they are
    equal and hash alike without agreeing on the four attributes. *)
Lemma identity_lost_outside_widths :
  let a := Note.init 0 0 0 0 128 0 in
  let b := Note.init 0 0 0 1 0 0 in
  (Note.eq a b = true /\ Note.hash a = Note.hash b) /\
  ~ Note.same_identity_fields a b.
Proof.
  cbn zeta. split; [split; reflexivity|].
  intros (_ & Hc & _). discriminate Hc.
Qed.

(** C2 (amended).  For two notes whose channel, pitch and velocity lie in
    0..31, 0..127 and 0..255, [a == b] and [hash(a) == hash(b)] hold if and
    only if the notes agree on duration_ticks, channel, pitch and velocity;
    and for any two notes, agreement on these four gives [a == b] and equal
    hashes, whatever their timeline_tick, wait_ticks and gaps. *)
Theorem note_identity (a b : Note.t) :
  (Note.in_range a -> Note.in_range b ->
   (Note.eq a b = true /\ Note.hash a = Note.hash b <-> Note.same_identity_fields a b)) /\
  (Note.same_identity_fields a b -> Note.eq a b = true /\ Note.hash a = Note.hash b).
Proof.
  assert (Hif : Note.same_identity_fields a b ->
                Note.eq a b = true /\ Note.hash a = Note.hash b).
  { intros Hsame. apply encode_of_fields in Hsame.
    unfold Note.eq, Note.hash. rewrite Hsame, Z.eqb_refl. by split. }
  split; [|exact Hif].
  intros Ha Hb. split; [|exact Hif].
  intros [_ Hhash]. by apply encode_injective.
Qed.

Lemma note_identity_witness :
  Note.timeline_tick example_note_early <> Note.timeline_tick example_note_late /\
  Note.eq example_note_early example_note_late = true /\
  Note.hash example_note_early = Note.hash example_note_late.
Proof.
  split; [discriminate|].
  apply (proj2 (note_identity example_note_early example_note_late)).
  repeat split; reflexivity.
Defined.

(** C5, as the claim states it, fails: with channel, pitch and velocity in
    range, a duration of 4096 ticks gives the encoding 2^32. *)
Lemma encode_exceeds_32_bits :
  let n := Note.init 0 0 4096 0 0 0 in
  Note.in_range n /\ ~ (0 <= Note.encode n < 2 ^ 32).
Proof.
  cbn zeta. split.
  - unfold Note.in_range. simpl. lia.
  - vm_compute. intros [_ Hlt]. discriminate Hlt.
Qed.

(** C5 (amended).  For a note whose channel, pitch and velocity lie in
    0..31, 0..127 and 0..255, the encoding equals
    duration_ticks*2^20 + channel*2^15 + pitch*2^8 + velocity; it lies in
    0 .. 2^32 - 1 when moreover the duration lies in 0..4095, the 12 bits
    the layout gives it. *)
Theorem encode_layout (n : Note.t) :
  Note.in_range n ->
  Note.encode n =
    Note.duration_ticks n * 2 ^ 20 + Note.channel n * 2 ^ 15 +
    Note.pitch n * 2 ^ 8 + Note.velocity n /\
  (0 <= Note.duration_ticks n < 2 ^ 12 -> 0 <= Note.encode n < 2 ^ 32).
Proof.
  intros Hr. pose proof (encode_sum n Hr) as Hsum. split; [exact Hsum|].
  intros Hd. rewrite Hsum. destruct Hr as (? & ? & ?). lia.
Qed.

Lemma encode_layout_witness :
  Note.encode example_note_early = 4 * 2 ^ 20 + 0 * 2 ^ 15 + 60 * 2 ^ 8 + 100 /\
  0 <= Note.encode example_note_early < 2 ^ 32.
Proof.
  assert (Hr : Note.in_range example_note_early)
    by (unfold Note.in_range; simpl; lia).
  destruct (encode_layout example_note_early Hr) as [Hsum Hbound].
  split; [exact Hsum|]. apply Hbound. simpl. lia.
Defined.

(** ** Frame *)

(** C7.  [is_full] answers true exactly when the number of sound events
    equals [max_size]; [add] always appends, so the length grows by one at
    every call, full or not.  With [max_size = 3]: not full after 0, 1 and 2
    adds, full after 3, and after a fourth add the frame holds 4 events and
    is not full any more. *)
Theorem frame_fullness :
  (forall f : Frame.t, Frame.is_full f = true <-> Frame.sizeof f = Frame.max_size f) /\
  (forall (f : Frame.t) (e : SoundEvent.t),
     Frame.sound_events (Frame.add e f) = Frame.sound_events f ++ [e] /\
     Frame.max_size (Frame.add e f) = Frame.max_size f /\
     Frame.sizeof (Frame.add e f) = Frame.sizeof f + 1) /\
  (forall e1 e2 e3 e4 : SoundEvent.t,
     let f0 := Frame.init 3 None in
     let f1 := Frame.add e1 f0 in
     let f2 := Frame.add e2 f1 in
     let f3 := Frame.add e3 f2 in
     let f4 := Frame.add e4 f3 in
     Frame.is_full f0 = false /\ Frame.is_full f1 = false /\
     Frame.is_full f2 = false /\ Frame.is_full f3 = true /\
     Frame.sizeof f4 = 4 /\ Frame.max_size f4 = 3 /\ Frame.is_full f4 = false).
Proof.
  split; [|split].
  - intros f. unfold Frame.is_full. apply Z.eqb_eq.
  - intros f e. unfold Frame.add, Frame.sizeof. cbn [Frame.sound_events Frame.max_size].
    rewrite length_app. cbn [length]. repeat split. lia.
  - intros e1 e2 e3 e4. cbn zeta. repeat split.
Qed.

(** ** is_chord *)

(** C10.  After the module body has run, the name [is_chord] is bound to the
    second definition; called on a collection of notes it returns, at any
    positive call depth, whether the collection is non-empty, so a group of
    exactly one note is a chord; the first definition is never reached: a
    sound event passed to [is_chord] goes to [len] and raises. *)
Theorem is_chord_nonempty :
  globals_get "is_chord" module_globals = Some is_chord_of_notes /\
  (forall (fuel : nat) (notes : list ref),
     exists b, is_chord (S fuel) (ANotes notes) = Ok b /\ (b = true <-> notes <> [])) /\
  (forall (fuel : nat) (note : ref), is_chord (S fuel) (ANotes [note]) = Ok true) /\
  (forall (fuel : nat) (sound_event : SoundEvent.t),
     is_chord (S fuel) (ASoundEvent sound_event) = Raise TypeError).
Proof.
  split; [reflexivity|]. split; [|split].
  - intros fuel notes. eexists. split; [reflexivity|].
    destruct notes as [|n notes]; cbn [length].
    + split; [discriminate | done].
    + split; [discriminate | intros _]. apply Z.ltb_lt. lia.
  - reflexivity.
  - reflexivity.
Qed.

(** ** Exact reads *)

(** C6, as the claim states it, fails: on an empty table [first_tick] raises
    nothing and evaluates to [None]. *)
Lemma first_tick_empty_is_silent :
  OrganizedNotesTable.first_tick OrganizedNotesTable.init = Ok None /\
  forall e, OrganizedNotesTable.first_tick OrganizedNotesTable.init <> Raise e.
Proof. split; [reflexivity | discriminate]. Qed.

(** C6 (amended).  [get_note(tick, channel, pitch)] raises KeyError if and
    only if some level of the triple is absent from the table, raises
    nothing else, and returns the stored note when the three levels are
    present; [first_tick] never raises: on an empty table it evaluates to
    [None], on any other to the first key in iteration order. *)
Theorem exact_reads (self : OrganizedNotesTable.t) (tick channel pitch : Z) :
  table_wf (OrganizedNotesTable.table self) ->
  (OrganizedNotesTable.get_note tick channel pitch self = Raise KeyError <->
   ~ exists row cell note,
       (tick, row) ∈ OrganizedNotesTable.table self /\
       (channel, cell) ∈ row /\ (pitch, note) ∈ cell) /\
  (forall e, OrganizedNotesTable.get_note tick channel pitch self = Raise e ->
             e = KeyError) /\
  (forall row cell note,
     (tick, row) ∈ OrganizedNotesTable.table self ->
     (channel, cell) ∈ row -> (pitch, note) ∈ cell ->
     OrganizedNotesTable.get_note tick channel pitch self = Ok note) /\
  (OrganizedNotesTable.table self = [] ->
   OrganizedNotesTable.first_tick self = Ok None) /\
  (forall t row rest,
     OrganizedNotesTable.table self = (t, row) :: rest ->
     OrganizedNotesTable.first_tick self = Ok (Some t)).
Proof.
  intros (Htb & Hrows).
  assert (Hpresent : forall row cell note,
            (tick, row) ∈ OrganizedNotesTable.table self ->
            (channel, cell) ∈ row -> (pitch, note) ∈ cell ->
            OrganizedNotesTable.get_note tick channel pitch self = Ok note).
  { intros row cell note Hrow Hcell Hnote.
    destruct (Hrows tick row Hrow) as (Hwrow & Hcells).
    unfold OrganizedNotesTable.get_note.
    rewrite (dict_get_elem tick row _ Htb Hrow), bind_Ok.
    rewrite (dict_get_elem channel cell _ Hwrow Hcell), bind_Ok.
    apply dict_get_elem; [by apply (Hcells channel cell) | done]. }
  assert (Hraise : forall e,
            OrganizedNotesTable.get_note tick channel pitch self = Raise e ->
            e = KeyError /\
            ~ exists row cell note,
                (tick, row) ∈ OrganizedNotesTable.table self /\
                (channel, cell) ∈ row /\ (pitch, note) ∈ cell).
  { intros e Hget. split.
    - unfold OrganizedNotesTable.get_note in Hget.
      destruct (dict_get tick _) as [row|e1] eqn:H1;
        [|apply dict_get_Raise in H1 as [-> _]; by injection Hget].
      rewrite bind_Ok in Hget.
      destruct (dict_get channel row) as [cell|e2] eqn:H2;
        [|apply dict_get_Raise in H2 as [-> _]; by injection Hget].
      rewrite bind_Ok in Hget. by apply dict_get_Raise in Hget as [-> _].
    - intros (row & cell & note & Hrow & Hcell & Hnote).
      rewrite (Hpresent row cell note Hrow Hcell Hnote) in Hget. discriminate. }
  split; [|split; [|split; [|split]]].
  - split; [by apply Hraise|].
    intros Habsent.
    destruct (OrganizedNotesTable.get_note tick channel pitch self) as [note|e] eqn:Hget.
    + exfalso. apply Habsent. unfold OrganizedNotesTable.get_note in Hget.
      destruct (dict_get tick _) as [row|] eqn:H1; [|discriminate].
      rewrite bind_Ok in Hget.
      destruct (dict_get channel row) as [cell|] eqn:H2; [|discriminate].
      rewrite bind_Ok in Hget.
      exists row, cell, note. by repeat split; apply dict_get_Ok.
    + by destruct (Hraise e eq_refl) as [-> _].
  - intros e Hget. by apply Hraise.
  - exact Hpresent.
  - intros Hempty. unfold OrganizedNotesTable.first_tick. by rewrite Hempty.
  - intros t row rest Heq. unfold OrganizedNotesTable.first_tick. by rewrite Heq.
Qed.

(** ** sort *)

Lemma sort_table (self : OrganizedNotesTable.t) :
  dict_wf (OrganizedNotesTable.table self) ->
  OrganizedNotesTable.table (OrganizedNotesTable.sort self) =
    sorted fst (OrganizedNotesTable.table self).
Proof.
  intros Hwf. unfold OrganizedNotesTable.sort, dict_items.
  cbn [OrganizedNotesTable.table OrganizedNotesTable.with_table].
  apply OrderedDict_items. unfold dict_wf, dict_keys. by rewrite sorted_perm.
Qed.

Lemma with_table_same (self : OrganizedNotesTable.t) :
  OrganizedNotesTable.with_table (OrganizedNotesTable.table self) self = self.
Proof. by destruct self. Qed.

(** C4.  After [sort] the keys of the table iterate in strictly ascending
    order, over the same items as before; sorting twice gives what sorting
    once gives; sorting a table that is already in ascending order, or an
    empty one, leaves it as it is. *)
Theorem sort_ascending_idempotent (self : OrganizedNotesTable.t) :
  dict_wf (OrganizedNotesTable.table self) ->
  ascending (OrganizedNotesTable.table (OrganizedNotesTable.sort self)) /\
  OrganizedNotesTable.table (OrganizedNotesTable.sort self)
    ≡ₚ OrganizedNotesTable.table self /\
  OrganizedNotesTable.sort (OrganizedNotesTable.sort self) = OrganizedNotesTable.sort self /\
  (ascending (OrganizedNotesTable.table self) -> OrganizedNotesTable.sort self = self) /\
  (OrganizedNotesTable.table self = [] -> OrganizedNotesTable.sort self = self).
Proof.
  intros Hwf. pose proof (sort_table self Hwf) as Htable.
  assert (Hasc : ascending (sorted fst (OrganizedNotesTable.table self))).
  { apply key_lt_fst, sorted_ascending. exact Hwf. }
  assert (Hfix : forall s : OrganizedNotesTable.t,
            ascending (OrganizedNotesTable.table s) -> OrganizedNotesTable.sort s = s).
  { intros s Hs. pose proof (sort_table s (ascending_wf _ Hs)) as Hts.
    unfold OrganizedNotesTable.sort in *.
    cbn [OrganizedNotesTable.table OrganizedNotesTable.with_table] in Hts.
    rewrite Hts, sorted_of_sorted; [apply with_table_same|].
    by apply key_lt_le, key_lt_fst. }
  split; [by rewrite Htable|]. split; [rewrite Htable; apply sorted_perm|].
  split; [apply Hfix; by rewrite Htable|]. split; [exact (Hfix self)|].
  intros Hempty. apply Hfix. rewrite Hempty. constructor.
Qed.

(** ** SoundEvent *)

Lemma sorted_fmap_key {A : Type} (key : A -> Z) (l : list A) :
  StronglySorted (key_le key) l -> StronglySorted Z.le (key <$> l).
Proof.
  induction 1 as [|x l Hs IH Hall]; [constructor|].
  rewrite fmap_cons. constructor; [done|]. by apply Forall_fmap.
Qed.

(** C8.  The sound event built from a non-empty list of notes holds exactly
    those notes, in non-decreasing order of next_delta_ticks as the store
    has them at construction; [first] and [shortest_note] return its first
    member, whose next_delta_ticks is the least among the notes given. *)
Theorem sound_event_sorted (ns : list ref) (h : heap) :
  ns <> [] ->
  let se := SoundEvent.init ns h in
  StronglySorted Z.le ((fun note => Note.next_delta_ticks (h note)) <$> SoundEvent.notes se) /\
  SoundEvent.notes se ≡ₚ ns /\
  exists note,
    SoundEvent.first se = Ok note /\
    SoundEvent.shortest_note se = Ok note /\
    note ∈ ns /\
    forall other, other ∈ ns ->
      Note.next_delta_ticks (h note) <= Note.next_delta_ticks (h other).
Proof.
  intros Hne. cbn zeta.
  set (key := fun note => Note.next_delta_ticks (h note)).
  pose proof (sound_event_notes h ns) as Hnotes. fold key in Hnotes.
  pose proof (sorted_sorted key ns) as Hs.
  pose proof (sorted_perm key ns) as Hp.
  unfold SoundEvent.first, SoundEvent.shortest_note. rewrite Hnotes.
  split; [by apply sorted_fmap_key|]. split; [exact Hp|].
  destruct (sorted key ns) as [|note l] eqn:Hsorted.
  - apply Permutation_nil_l in Hp. by subst.
  - exists note. split; [reflexivity|]. split; [reflexivity|].
    split; [rewrite <- Hp; apply list_elem_of_here|].
    intros other Hother. rewrite <- Hp in Hother.
    apply StronglySorted_inv in Hs as [_ Hall]. rewrite Forall_forall in Hall.
    apply elem_of_cons in Hother as [-> | Hother]; [lia|].
    by apply Hall.
Qed.

(** ** add *)

Section Add.
Import OrganizedNotesTable.

Lemma dict_set_set {V : Type} (k : Z) (v v' : V) (d : dict V) :
  dict_set k v (dict_set k v' d) = dict_set k v d.
Proof.
  induction d as [|[k0 v0] d IH]; simpl.
  - by rewrite Z.eqb_refl.
  - destruct (Z.eqb_spec k0 k) as [-> | Hne]; simpl.
    + by rewrite Z.eqb_refl.
    + destruct (Z.eqb_spec k0 k); [done|]. by rewrite IH.
Qed.

Lemma dict_contains_get {V : Type} (k : Z) (d : dict V) :
  dict_contains k d = true -> exists v, dict_get k d = Ok v.
Proof. intros Hc. by apply dict_get_present, dict_contains_spec. Qed.

Lemma dict_contains_false {V : Type} (k : Z) (d : dict V) :
  dict_contains k d = false -> dict_get k d = Raise KeyError.
Proof.
  intros Hc. apply dict_get_absent. intros Hin.
  apply dict_contains_spec in Hin. congruence.
Qed.

(** The three assignments of [add] amount to one nested assignment. *)
Lemma add_table (note : ref) (h : heap) (self : t) :
  add note h self =
    self' ← add_channel_if_not_exists (Note.channel (h note)) self;
    Ok (with_table
          (table_with (Note.timeline_tick (h note)) (Note.channel (h note))
             (Note.pitch (h note)) note (table self')) self').
Proof.
  unfold add. cbn zeta.
  destruct (add_channel_if_not_exists (Note.channel (h note)) self) as [self'|e];
    [|reflexivity].
  rewrite !bind_Ok. unfold table_with, dict_get_or_empty, dict_empty. cbn zeta.
  set (tick := Note.timeline_tick (h note)).
  set (channel := Note.channel (h note)).
  set (pitch := Note.pitch (h note)).
  destruct (dict_contains tick (table self')) eqn:Htick.
  - destruct (dict_contains_get _ _ Htick) as [row Hrow]. rewrite Hrow, bind_Ok.
    destruct (dict_contains channel row) eqn:Hchannel.
    + destruct (dict_contains_get _ _ Hchannel) as [cell Hcell].
      by rewrite Hrow, bind_Ok, Hcell, bind_Ok.
    + rewrite dict_get_set, decide_True, bind_Ok by done.
      rewrite dict_get_set, decide_True, bind_Ok by done.
      rewrite (dict_contains_false _ _ Hchannel).
      by rewrite !dict_set_set.
  - rewrite (dict_contains_false _ _ Htick).
    rewrite dict_get_set, decide_True, bind_Ok by done.
    cbn [dict_contains dict_get].
    rewrite dict_get_set, decide_True, bind_Ok by done.
    cbn [dict_set dict_get]. rewrite Z.eqb_refl, bind_Ok.
    by rewrite !dict_set_set.
Qed.

End Add.

Section TableWith.
Context (tb : dict (dict (dict ref))) (Hwf : table_wf tb).
Context (t c p : Z) (n : ref).

Lemma get_or_empty_cases {V : Type} (k : Z) (d : dict (dict V)) :
  dict_get_or_empty k d = [] \/ (k, dict_get_or_empty k d) ∈ d.
Proof.
  unfold dict_get_or_empty. destruct (dict_get k d) as [v|e] eqn:Hget.
  - right. by apply dict_get_Ok.
  - by left.
Qed.

Lemma old_row_wf :
  dict_wf (dict_get_or_empty t tb) /\
  forall c' cell', (c', cell') ∈ dict_get_or_empty t tb ->
    (t, dict_get_or_empty t tb) ∈ tb /\ dict_wf cell'.
Proof.
  destruct Hwf as (_ & Hrows).
  destruct (get_or_empty_cases t tb) as [Hnil | Hin].
  - rewrite Hnil. split; [apply NoDup_nil_2|].
    intros c' cell' Hc. by apply elem_of_nil in Hc.
  - destruct (Hrows _ _ Hin) as (Hwrow & Hcells). split; [done|].
    intros c' cell' Hc. split; [done | by apply (Hcells c')].
Qed.

Lemma old_cell_wf :
  dict_wf (dict_get_or_empty c (dict_get_or_empty t tb)) /\
  forall p' r, (p', r) ∈ dict_get_or_empty c (dict_get_or_empty t tb) ->
    (t, dict_get_or_empty t tb) ∈ tb /\
    (c, dict_get_or_empty c (dict_get_or_empty t tb)) ∈ dict_get_or_empty t tb.
Proof.
  destruct old_row_wf as (_ & Hcells).
  destruct (get_or_empty_cases c (dict_get_or_empty t tb)) as [Hnil | Hin].
  - rewrite Hnil. split; [apply NoDup_nil_2|].
    intros p' r Hp. by apply elem_of_nil in Hp.
  - destruct (Hcells _ _ Hin) as (Hrow & Hwcell). split; [done|].
    intros p' r Hp. by split.
Qed.

(** Where a note of the new table comes from: it is the note just added,
    at its own place, or a note the table already had at that place. *)
Lemma table_with_elem (t' c' p' : Z) (row' : dict (dict ref)) (cell' : dict ref)
  (r : ref) :
  (t', row') ∈ table_with t c p n tb -> (c', cell') ∈ row' -> (p', r) ∈ cell' ->
  (t' = t /\ c' = c /\ p' = p /\ r = n) \/
  exists row0 cell0, (t', row0) ∈ tb /\ (c', cell0) ∈ row0 /\ (p', r) ∈ cell0.
Proof.
  unfold table_with. cbn zeta. intros Hrow Hcell Hnote.
  destruct old_row_wf as (Hwrow & Hold_row).
  destruct old_cell_wf as (Hwcell & Hold_cell).
  apply elem_of_dict_set in Hrow; [|apply Hwf].
  destruct Hrow as [[-> ->] | [Hne Hrow]].
  - apply elem_of_dict_set in Hcell; [|done].
    destruct Hcell as [[-> ->] | [Hne Hcell]].
    + apply elem_of_dict_set in Hnote; [|done].
      destruct Hnote as [[-> ->] | [Hne Hnote]].
      * by left.
      * right. destruct (Hold_cell _ _ Hnote) as (Hr & Hc). eauto.
    + right. destruct (Hold_row _ _ Hcell) as (Hr & _). eauto.
  - right. eauto.
Qed.

Lemma table_with_wf : table_wf (table_with t c p n tb).
Proof.
  destruct old_row_wf as (Hwrow & Hold_row).
  destruct old_cell_wf as (Hwcell & _).
  pose proof Hwf as (Htb & Hrows).
  unfold table_with. cbn zeta. split; [by apply dict_set_wf|].
  intros t' row' Hrow.
  apply elem_of_dict_set in Hrow; [|done].
  destruct Hrow as [[-> ->] | [Hne Hrow]]; [|by apply (Hrows t')].
  split; [by apply dict_set_wf|].
  intros c' cell' Hcell.
  apply elem_of_dict_set in Hcell; [|done].
  destruct Hcell as [[-> ->] | [Hne Hcell]].
  - by apply dict_set_wf.
  - by apply (Hold_row c').
Qed.

Lemma dict_set_nonempty {V : Type} (k : Z) (v : V) (d : dict V) : dict_set k v d <> [].
Proof. destruct d as [|[k' v'] d]; simpl; [done|]. by destruct (k' =? k). Qed.

Lemma table_with_inhabited : inhabited tb -> inhabited (table_with t c p n tb).
Proof.
  intros Hinh.
  destruct old_row_wf as (Hwrow & Hold_row).
  unfold table_with. cbn zeta. intros t' row' Hrow.
  apply elem_of_dict_set in Hrow; [|apply Hwf].
  destruct Hrow as [[-> ->] | [Hne Hrow]]; [|by apply (Hinh t')].
  split; [apply dict_set_nonempty|].
  intros c' cell' Hcell.
  apply elem_of_dict_set in Hcell; [|done].
  destruct Hcell as [[-> ->] | [Hne Hcell]].
  - apply dict_set_nonempty.
  - destruct (Hold_row _ _ Hcell) as (Hr & _).
    by apply (proj2 (Hinh _ _ Hr) c').
Qed.

(** The note just added can be read back. *)
Lemma table_with_stored :
  exists row cell,
    (t, row) ∈ table_with t c p n tb /\ (c, cell) ∈ row /\ (p, n) ∈ cell.
Proof.
  destruct old_row_wf as (Hwrow & _). destruct old_cell_wf as (Hwcell & _).
  unfold table_with. cbn zeta. eexists _, _. split; [|split].
  - apply elem_of_dict_set; [apply Hwf | left; done].
  - apply elem_of_dict_set; [done | left; done].
  - apply elem_of_dict_set; [done | left; done].
Qed.

End TableWith.

Section Channels.
Import OrganizedNotesTable.

Lemma land_bit (a c : Z) :
  0 <= c -> (Z.land a (Z.shiftl 1 c) =? 0) = negb (Z.testbit a c).
Proof.
  intros Hc. rewrite Z.shiftl_1_l.
  destruct (Z.testbit a c) eqn:Hbit; simpl.
  - apply Z.eqb_neq. intros Hzero.
    assert (Hc' : Z.testbit (Z.land a (2 ^ c)) c = true).
    { by rewrite Z.land_spec, Hbit, Z.pow2_bits_eqb, Z.eqb_refl by lia. }
    rewrite Hzero, Z.bits_0 in Hc'. discriminate.
  - apply Z.eqb_eq, Z.bits_inj'. intros k Hk.
    rewrite Z.land_spec, Z.bits_0, Z.pow2_bits_eqb by lia.
    destruct (Z.eqb_spec c k) as [<- | _]; [by rewrite Hbit | apply andb_false_r].
Qed.

Lemma add_channel_if_not_exists_ok (c : Z) (self : t) :
  0 <= c -> coding_wf self -> NoDup (channels self) ->
  exists self',
    add_channel_if_not_exists c self = Ok self' /\
    table self' = table self /\
    coding_wf self' /\
    NoDup (channels self') /\
    forall k, k ∈ channels self' <-> k = c \/ k ∈ channels self.
Proof.
  intros Hc Hcoding Hnd.
  unfold add_channel_if_not_exists, has_channel, add_channel, py_lshift.
  destruct (Z.ltb_spec c 0) as [? | _]; [lia|].
  rewrite !bind_Ok, land_bit by done.
  destruct (Z.testbit (channel_coding self) c) eqn:Hbit; cbn [negb].
  - exists self. split; [reflexivity|]. split; [reflexivity|].
    split; [exact Hcoding|]. split; [exact Hnd|].
    intros k. split; [by right | intros [-> | Hk]; [by apply Hcoding | done]].
  - eexists. split; [reflexivity|]. cbn [table channels channel_coding].
    assert (Hfresh : c ∉ channels self).
    { intros Hin. apply Hcoding in Hin; [congruence | done]. }
    split; [reflexivity|]. split; [|split].
    + intros k Hk. cbn [channels channel_coding].
      rewrite Z.lor_spec, Z.shiftl_1_l, Z.pow2_bits_eqb by lia.
      rewrite elem_of_app, list_elem_of_singleton, orb_true_iff, (Hcoding k Hk), Z.eqb_eq.
      split; intros [? | ?]; auto.
    + apply NoDup_app. split; [done|]. split; [|apply NoDup_singleton].
      intros k Hk Hk'. apply list_elem_of_singleton in Hk' as ->. done.
    + intros k. rewrite elem_of_app, list_elem_of_singleton. tauto.
Qed.

Lemma add_negative_channel (note : ref) (h : heap) (self : t) :
  Note.channel (h note) < 0 -> add note h self = Raise ValueError.
Proof.
  intros Hneg. unfold add, add_channel_if_not_exists, has_channel, py_lshift.
  cbn zeta. destruct (Z.ltb_spec (Note.channel (h note)) 0); [reflexivity | lia].
Qed.

End Channels.

Section AddInvariant.
Import OrganizedNotesTable.

Lemma add_wf (note : ref) (h : heap) (self : t) :
  wf h self -> coding_wf self -> 0 <= Note.channel (h note) ->
  exists self',
    add note h self = Ok self' /\
    wf h self' /\ coding_wf self' /\
    (forall t r, note_at (table self') t r -> r = note \/ note_at (table self) t r) /\
    get_note (Note.timeline_tick (h note)) (Note.channel (h note))
      (Note.pitch (h note)) self' = Ok note.
Proof.
  intros (Htwf & Hloc & Hinh & Hnd & Hchan) Hcoding Hc.
  destruct (add_channel_if_not_exists_ok _ self Hc Hcoding Hnd)
    as (self1 & Hrun & Htable & Hcoding1 & Hnd1 & Hchannels1).
  rewrite add_table, Hrun, bind_Ok, Htable.
  set (t := Note.timeline_tick (h note)). set (c := Note.channel (h note)).
  set (p := Note.pitch (h note)).
  eexists. split; [reflexivity|].
  pose proof (table_with_wf _ Htwf t c p note) as Htwf'.
  assert (Hfrom : forall t' row' c' cell' p' r,
            (t', row') ∈ table_with t c p note (table self) ->
            (c', cell') ∈ row' -> (p', r) ∈ cell' ->
            (t' = t /\ c' = c /\ p' = p /\ r = note) \/
            exists row0 cell0,
              (t', row0) ∈ table self /\ (c', cell0) ∈ row0 /\ (p', r) ∈ cell0)
    by (intros *; by apply table_with_elem).
  split; [|split; [|split]].
  - split; [|split; [|split; [|split]]]; cbn [table channels with_table].
    + exact Htwf'.
    + intros t' row' c' cell' p' r Hrow Hcell Hnote.
      destruct (Hfrom _ _ _ _ _ _ Hrow Hcell Hnote)
        as [(-> & -> & -> & ->) | (row0 & cell0 & Hr & Hce & Hn)]; [done|].
      by apply (Hloc t' row0 c' cell0 p' r).
    + by apply table_with_inhabited.
    + exact Hnd1.
    + intros t' row' c' cell' Hrow Hcell. apply Hchannels1.
      pose proof (proj2 (table_with_inhabited _ Htwf t c p note Hinh t' row' Hrow)
                    c' cell' Hcell) as Hne.
      destruct cell' as [|[p' r] cell']; [done|].
      destruct (Hfrom t' row' c' ((p', r) :: cell') p' r Hrow Hcell (list_elem_of_here _ _))
        as [(_ & -> & _) | (row0 & cell0 & Hr & Hce & _)]; [by left|].
      right. by apply (Hchan t' row0 c' cell0).
  - exact Hcoding1.
  - cbn [table with_table]. intros t' r (row' & Hrow & Hr).
    apply elem_of_row_refs in Hr as (c' & cell' & p' & Hcell & Hnote).
    destruct (Hfrom _ _ _ _ _ _ Hrow Hcell Hnote)
      as [(_ & _ & _ & ->) | (row0 & cell0 & Hr & Hce & Hn)]; [by left|].
    right. exists row0. split; [done|]. apply elem_of_row_refs. eauto.
  - destruct (table_with_stored _ Htwf t c p note) as (row & cell & Hrow & Hcell & Hnote).
    destruct Htwf' as (Htb' & Hrows'). destruct (Hrows' _ _ Hrow) as (Hwrow & Hcells).
    unfold get_note. cbn [table with_table].
    rewrite (dict_get_elem _ _ _ Htb' Hrow), bind_Ok.
    rewrite (dict_get_elem _ _ _ Hwrow Hcell), bind_Ok.
    apply dict_get_elem; [by apply (Hcells c) | done].
Qed.

Lemma init_wf (h : heap) : wf h init /\ coding_wf init.
Proof.
  split.
  - split; [|split; [|split; [|split]]]; cbn.
    + split; [apply NoDup_nil_2|]. intros t row Hin. by apply elem_of_nil in Hin.
    + intros t row c cell p r Hin. by apply elem_of_nil in Hin.
    + intros t row Hin. by apply elem_of_nil in Hin.
    + apply NoDup_nil_2.
    + intros t row c cell Hin. by apply elem_of_nil in Hin.
  - intros c Hc. cbn. rewrite Z.bits_0, elem_of_nil. split; [discriminate | done].
Qed.

Lemma add_all_wf (notes : list ref) (h : heap) :
  forall self : t,
    wf h self -> coding_wf self ->
    (forall note, note ∈ notes -> 0 <= Note.channel (h note)) ->
    exists self',
      add_all notes h self = Ok self' /\
      wf h self' /\ coding_wf self' /\
      forall t r, note_at (table self') t r -> r ∈ notes \/ note_at (table self) t r.
Proof.
  induction notes as [|note notes IH]; intros self Hwf Hcoding Hchan.
  - exists self. split; [reflexivity|]. split; [done|]. split; [done|].
    intros t r Hat. by right.
  - destruct (add_wf note h self Hwf Hcoding) as (self1 & Hrun & Hwf1 & Hcoding1 & Hfrom & _).
    { apply Hchan, list_elem_of_here. }
    destruct (IH self1 Hwf1 Hcoding1) as (self' & Hrun' & Hwf' & Hcoding' & Hfrom').
    { intros k Hk. by apply Hchan, list_elem_of_further. }
    exists self'. unfold add_all in *. cbn [for_each]. rewrite Hrun, bind_Ok.
    split; [exact Hrun'|]. split; [done|]. split; [done|].
    intros t r Hat. destruct (Hfrom' t r Hat) as [Hin | Hat1].
    + left. by apply list_elem_of_further.
    + destruct (Hfrom t r Hat1) as [-> | Hat0]; [left; apply list_elem_of_here | by right].
Qed.

Lemma sort_wf (h : heap) (self : t) :
  wf h self ->
  wf h (sort self) /\ ascending (table (sort self)) /\
  forall t r, note_at (table (sort self)) t r <-> note_at (table self) t r.
Proof.
  intros (Htwf & Hloc & Hinh & Hnd & Hchan).
  pose proof (sort_table self (proj1 Htwf)) as Htable.
  assert (Hperm : table (sort self) ≡ₚ table self)
    by (rewrite Htable; apply sorted_perm).
  assert (Hin : forall x, x ∈ table (sort self) <-> x ∈ table self)
    by (intros x; by rewrite Hperm).
  assert (Hasc : ascending (table (sort self))).
  { rewrite Htable. apply key_lt_fst, sorted_ascending, Htwf. }
  split; [|split; [exact Hasc|]].
  - split; [|split; [|split; [|split]]].
    + split; [by apply ascending_wf|]. intros t row Hrow.
      apply (proj2 Htwf t row). by apply Hin.
    + intros t row c cell p r Hrow. apply (Hloc t row c cell p r). by apply Hin.
    + intros t row Hrow. apply (Hinh t row). by apply Hin.
    + exact Hnd.
    + intros t row c cell Hrow. apply (Hchan t row c cell). by apply Hin.
  - intros t r. unfold note_at. by setoid_rewrite Hin.
Qed.

End AddInvariant.

(** ** From the constructor to a sorted table *)

(** Notes fresh from their constructor, added one by one to an empty table
    which is then sorted, give a table that meets every assumption made
    above; [add] raises only for a negative channel. *)
Lemma pipeline_wf (notes : list ref) (h : heap) :
  (forall note, note ∈ notes -> 0 <= Note.channel (h note)) ->
  (forall note, note ∈ notes ->
     Note.previous_delta_ticks (h note) = 0 /\ Note.next_delta_ticks (h note) = 0) ->
  exists self,
    add_all notes h OrganizedNotesTable.init = Ok self /\
    wf h self /\
    wf h (OrganizedNotesTable.sort self) /\
    ascending (OrganizedNotesTable.table (OrganizedNotesTable.sort self)) /\
    default_gaps h (OrganizedNotesTable.table (OrganizedNotesTable.sort self)).
Proof.
  intros Hchan Hfresh.
  destruct (init_wf h) as [Hwf0 Hcoding0].
  destruct (add_all_wf notes h _ Hwf0 Hcoding0 Hchan) as (self & Hrun & Hwf & _ & Hfrom).
  destruct (sort_wf h self Hwf) as (Hwf' & Hasc & Hsame).
  exists self. split; [exact Hrun|]. split; [exact Hwf|]. split; [exact Hwf'|].
  split; [exact Hasc|].
  intros t r Hat. apply Hsame in Hat.
  destruct (Hfrom t r Hat) as [Hin | (row & Hrow & _)]; [by apply Hfresh|].
  by apply elem_of_nil in Hrow.
Qed.

Lemma example_pipeline :
  add_all example_notes example_heap OrganizedNotesTable.init = Ok example_unsorted /\
  OrganizedNotesTable.sort example_unsorted = example_table.
Proof. split; reflexivity. Qed.

Lemma example_wf :
  wf example_heap example_unsorted /\
  wf example_heap example_table /\
  ascending (OrganizedNotesTable.table example_table) /\
  default_gaps example_heap (OrganizedNotesTable.table example_table).
Proof.
  destruct (pipeline_wf example_notes example_heap) as (self & Hrun & Hwf & Hrest).
  - intros note Hin. unfold example_notes in Hin. all_elems Hin; simpl; lia.
  - intros note Hin. unfold example_notes in Hin. all_elems Hin; by split.
  - rewrite (proj1 example_pipeline) in Hrun. injection Hrun as <-.
    rewrite (proj2 example_pipeline) in Hrest. by split.
Qed.

(** The whole pass on the example: add, sort, annotate, build. *)
Example end_to_end :
  (self ← add_all example_notes example_heap OrganizedNotesTable.init;
   h ← OrganizedNotesTable.update_delta_times (OrganizedNotesTable.sort self) example_heap;
   tracks ← MusicalTranscript.build (OrganizedNotesTable.sort self) h;
   Ok (tracks, h <$> [0%nat; 1%nat; 2%nat; 3%nat]))
  = Ok ([(0, [SoundEvent.mk [0%nat; 1%nat]; SoundEvent.mk [2%nat]]);
         (1, [SoundEvent.mk [3%nat]])],
        example_annotated <$> [0%nat; 1%nat; 2%nat; 3%nat]).
Proof. reflexivity. Qed.

Lemma wf_annotated (h h' : heap) (self : OrganizedNotesTable.t) :
  (forall r, Note.same_but_gaps (h' r) (h r)) -> wf h self -> wf h' self.
Proof.
  intros Hsame (Htwf & Hloc & Hrest). split; [done|]. split; [|done].
  intros t row c cell p r Hrow Hcell Hnote.
  destruct (Hsame r) as (-> & _ & _ & -> & -> & _).
  by apply (Hloc t row c cell p r).
Qed.

(** ** The theorems on the worked example *)

Lemma update_delta_times_gaps_witness :
  exists h',
    OrganizedNotesTable.update_delta_times example_table example_heap = Ok h' /\
    Note.previous_delta_ticks (h' 0%nat) = 0 /\
    Note.next_delta_ticks (h' 1%nat) = 4 - 0 /\
    Note.previous_delta_ticks (h' 3%nat) = 4 - 0 /\
    Note.next_delta_ticks (h' 2%nat) = 0.
Proof.
  destruct example_wf as (_ & Hwf & Hasc & Hdef).
  assert (Hne : OrganizedNotesTable.table example_table <> []) by discriminate.
  destruct (update_delta_times_gaps example_table example_heap Hwf Hasc Hne Hdef)
    as (h' & Hrun & Hfirst & Hprev & Hnext & Hlast).
  assert (Hkeys : dict_keys (OrganizedNotesTable.table example_table) = [0; 4])
    by reflexivity.
  assert (Hcons : consecutive (OrganizedNotesTable.table example_table) 0 4).
  { unfold consecutive. rewrite Hkeys. split; [elem_of_list|]. split; [elem_of_list|].
    split; [lia|]. intros k Hk. all_elems Hk; lia. }
  assert (Hat0 : forall r, r ∈ [0%nat; 1%nat] ->
                   note_at (OrganizedNotesTable.table example_table) 0 r).
  { intros r Hr. eexists. split; [apply list_elem_of_here | exact Hr]. }
  assert (Hat4 : forall r, r ∈ [2%nat; 3%nat] ->
                   note_at (OrganizedNotesTable.table example_table) 4 r).
  { intros r Hr. eexists. split; [apply list_elem_of_further, list_elem_of_here | exact Hr]. }
  exists h'. split; [exact Hrun|]. split; [|split; [|split]].
  - apply (Hfirst 0); [|apply Hat0; elem_of_list].
    unfold first_position. rewrite Hkeys. split; [elem_of_list|].
    intros k Hk. all_elems Hk; lia.
  - apply (Hnext 0 4); [exact Hcons | apply Hat0; elem_of_list].
  - apply (Hprev 0 4); [exact Hcons | apply Hat4; elem_of_list].
  - apply (Hlast 4); [|apply Hat4; elem_of_list].
    unfold last_position. rewrite Hkeys. split; [elem_of_list|].
    intros k Hk. all_elems Hk; lia.
Defined.

Lemma update_delta_times_total_witness :
  (exists row0 row4,
     dict_get 0 (OrganizedNotesTable.table example_table) = Ok row0 /\
     dict_get 4 (OrganizedNotesTable.table example_table) = Ok row4 /\
     dict_contains 1 row4 = true /\ dict_contains 1 row0 = false) /\
  exists h', OrganizedNotesTable.update_delta_times example_table example_heap = Ok h'.
Proof.
  split.
  - eexists _, _. repeat split; reflexivity.
  - apply update_delta_times_total. apply example_wf.
Defined.

Lemma build_grouping_witness :
  exists tracks events,
    MusicalTranscript.build example_table example_annotated = Ok tracks /\
    dict_keys tracks = [0; 1] /\
    dict_get 0 tracks = Ok events /\
    length events = 2%nat.
Proof.
  destruct example_wf as (_ & Hwf & Hasc & _).
  assert (Hwf' : wf example_annotated example_table).
  { apply (wf_annotated example_heap); [|exact Hwf].
    intros [|[|[|r]]]; by repeat split. }
  destruct (build_grouping example_table example_annotated Hwf' Hasc)
    as (tracks & Hrun & _ & _ & Hevents).
  destruct (Hevents 0) as (events & Hget & Hall & _); [elem_of_list|].
  exists tracks, events. split; [exact Hrun|].
  assert (Hsome : MusicalTranscript.build example_table example_annotated =
                  Ok [(0, [SoundEvent.mk [0%nat; 1%nat]; SoundEvent.mk [2%nat]]);
                      (1, [SoundEvent.mk [3%nat]])]) by reflexivity.
  rewrite Hsome in Hrun. injection Hrun as <-.
  split; [reflexivity|]. split; [exact Hget|].
  apply Forall2_length in Hall. by rewrite <- Hall.
Defined.

Lemma sort_ascending_idempotent_witness :
  ascending (OrganizedNotesTable.table (OrganizedNotesTable.sort example_unsorted)) /\
  OrganizedNotesTable.sort (OrganizedNotesTable.sort example_unsorted) =
    OrganizedNotesTable.sort example_unsorted.
Proof.
  assert (Hwf : dict_wf (OrganizedNotesTable.table example_unsorted)).
  { destruct example_wf as ((Htwf & _) & _). apply Htwf. }
  destruct (sort_ascending_idempotent example_unsorted Hwf) as (Hasc & _ & Hidem & _).
  by split.
Defined.

Lemma exact_reads_witness :
  OrganizedNotesTable.get_note 0 0 64 example_table = Ok 1%nat /\
  OrganizedNotesTable.first_tick example_table = Ok (Some 0).
Proof.
  assert (Hwf : table_wf (OrganizedNotesTable.table example_table)).
  { destruct example_wf as (_ & (Htwf & _) & _). exact Htwf. }
  destruct (exact_reads example_table 0 0 64 Hwf) as (_ & _ & Hpresent & _ & Hfirst).
  split.
  - eapply Hpresent; elem_of_list.
  - eapply Hfirst. reflexivity.
Defined.

Lemma sound_event_sorted_witness :
  exists note,
    SoundEvent.first (SoundEvent.init [0%nat; 2%nat] example_annotated) = Ok note /\
    note ∈ [0%nat; 2%nat] /\
    Note.next_delta_ticks (example_annotated note)
      <= Note.next_delta_ticks (example_annotated 0%nat).
Proof.
  assert (Hne : [0%nat; 2%nat] <> []) by discriminate.
  destruct (sound_event_sorted [0%nat; 2%nat] example_annotated Hne)
    as (_ & _ & note & Hfirst & _ & Hin & Hmin).
  exists note. split; [exact Hfirst|]. split; [exact Hin|].
  apply Hmin. elem_of_list.
Defined.

(** The order inside a sound event is the order at construction: the tuple
    of members is a value and stays what it is, but the notes it points at
    are shared with the table, so a sound event built before
    [update_delta_times] has run keeps its members in an order that the
    annotated store no longer justifies. *)
Example sound_event_order_is_a_snapshot :
  let early := SoundEvent.init [0%nat; 2%nat] example_heap in
  let late := SoundEvent.init [0%nat; 2%nat] example_annotated in
  SoundEvent.notes early = [0%nat; 2%nat] /\
  SoundEvent.notes late = [2%nat; 0%nat] /\
  (fun note => Note.next_delta_ticks (example_annotated note)) <$> SoundEvent.notes early
    = [4; 0].
Proof. repeat split. Qed.

(** * Further properties of the module *)

(** ** add: what it stores, what it keeps, when it raises *)

Section AddReads.
Import OrganizedNotesTable.

Lemma get_or_empty_get {V : Type} (k k' : Z) (d : dict (dict V)) :
  dict_get k' (dict_get_or_empty k d) = (v ← dict_get k d; dict_get k' v).
Proof.
  unfold dict_get_or_empty. destruct (dict_get k d) as [v|e] eqn:Hget.
  - reflexivity.
  - by destruct (dict_get_Raise _ _ _ Hget) as [-> _].
Qed.

(** Reading the table that [add] leaves. *)
Lemma get_note_table_with (t c p t' c' p' : Z) (n : ref) (self : OrganizedNotesTable.t) :
  get_note t' c' p' (with_table (table_with t c p n (table self)) self) =
    if decide (t' = t /\ c' = c /\ p' = p) then Ok n else get_note t' c' p' self.
Proof.
  unfold get_note, table_with. cbn [table with_table]. cbn zeta.
  rewrite dict_get_set. destruct (decide (t' = t)) as [-> | Ht].
  - rewrite bind_Ok, dict_get_set. destruct (decide (c' = c)) as [-> | Hc].
    + rewrite bind_Ok, dict_get_set. destruct (decide (p' = p)) as [-> | Hp].
      * by rewrite decide_True.
      * rewrite decide_False by (intros (_ & _ & ?); done).
        rewrite !get_or_empty_get.
        destruct (dict_get t (table self)) as [row|e]; [|reflexivity].
        by rewrite !bind_Ok.
    + rewrite decide_False by (intros (_ & ? & _); done).
      rewrite get_or_empty_get.
      destruct (dict_get t (table self)) as [row|e]; [|reflexivity].
      by rewrite !bind_Ok.
  - by rewrite decide_False by (intros (? & _); done).
Qed.

Lemma add_channel_if_not_exists_table (c : Z) (self self' : OrganizedNotesTable.t) :
  add_channel_if_not_exists c self = Ok self' -> table self' = table self.
Proof.
  unfold add_channel_if_not_exists, has_channel, add_channel, py_lshift.
  destruct (c <? 0); [discriminate|]. rewrite !bind_Ok.
  destruct (_ =? 0); intros [= <-]; reflexivity.
Qed.

Lemma add_channel_if_not_exists_sign (c : Z) (self : OrganizedNotesTable.t) :
  if c <? 0 then add_channel_if_not_exists c self = Raise ValueError
  else exists self', add_channel_if_not_exists c self = Ok self'.
Proof.
  unfold add_channel_if_not_exists, has_channel, add_channel, py_lshift.
  destruct (c <? 0); [reflexivity|]. rewrite !bind_Ok.
  destruct (_ =? 0); by eexists.
Qed.

Lemma add_sign (note : ref) (h : heap) (self : OrganizedNotesTable.t) :
  if Note.channel (h note) <? 0 then add note h self = Raise ValueError
  else exists self', add note h self = Ok self'.
Proof.
  rewrite add_table.
  pose proof (add_channel_if_not_exists_sign (Note.channel (h note)) self) as Hsign.
  destruct (Note.channel (h note) <? 0).
  - by rewrite Hsign.
  - destruct Hsign as [self1 ->]. by eexists.
Qed.

Lemma add_read_back (note : ref) (h : heap) (self self' : OrganizedNotesTable.t) :
  add note h self = Ok self' ->
  get_note (Note.timeline_tick (h note)) (Note.channel (h note)) (Note.pitch (h note)) self'
  = Ok note.
Proof.
  intros Hok. rewrite add_table in Hok.
  destruct (add_channel_if_not_exists _ self) as [self1|e] eqn:Hchan; [|discriminate].
  rewrite bind_Ok in Hok. injection Hok as <-.
  rewrite get_note_table_with. by rewrite decide_True.
Qed.

Lemma add_read_elsewhere (note : ref) (h : heap) (self self' : OrganizedNotesTable.t)
  (t c p : Z) :
  add note h self = Ok self' ->
  ~ (t = Note.timeline_tick (h note) /\ c = Note.channel (h note) /\
     p = Note.pitch (h note)) ->
  get_note t c p self' = get_note t c p self.
Proof.
  intros Hok Hother. rewrite add_table in Hok.
  destruct (add_channel_if_not_exists _ self) as [self1|e] eqn:Hchan; [|discriminate].
  rewrite bind_Ok in Hok. injection Hok as <-.
  rewrite get_note_table_with, decide_False by done.
  unfold get_note. by rewrite (add_channel_if_not_exists_table _ _ _ Hchan).
Qed.

End AddReads.

(** X1.  [add] raises exactly when the channel of the note is negative, and
    then it raises ValueError (from [1 << channel]); for every other note, on
    every table, it returns. *)
Theorem add_raises_iff_negative_channel (note : ref) (h : heap)
  (self : OrganizedNotesTable.t) :
  (OrganizedNotesTable.add note h self = Raise ValueError <-> Note.channel (h note) < 0) /\
  ((exists self', OrganizedNotesTable.add note h self = Ok self') <->
   0 <= Note.channel (h note)) /\
  (forall e, OrganizedNotesTable.add note h self = Raise e -> e = ValueError).
Proof.
  pose proof (add_sign note h self) as Hsign.
  destruct (Z.ltb_spec (Note.channel (h note)) 0) as [Hneg | Hpos].
  - rewrite Hsign. split; [|split].
    + by split.
    + split; [intros [self' Hok]; discriminate | lia].
    + by intros e [= <-].
  - destruct Hsign as [self' Hok]. rewrite Hok. split; [|split].
    + split; [discriminate | lia].
    + split; [done | by eexists].
    + discriminate.
Qed.

(** X2.  A note that [add] accepts can be read back: [get_note] at the note's
    own timeline_tick, channel and pitch returns that very note, whatever the
    table held before. *)
Theorem add_then_get_note (note : ref) (h : heap) (self : OrganizedNotesTable.t) :
  0 <= Note.channel (h note) ->
  exists self',
    OrganizedNotesTable.add note h self = Ok self' /\
    OrganizedNotesTable.get_note (Note.timeline_tick (h note)) (Note.channel (h note))
      (Note.pitch (h note)) self' = Ok note.
Proof.
  intros Hc. pose proof (add_sign note h self) as Hsign.
  destruct (Z.ltb_spec (Note.channel (h note)) 0) as [? | _]; [lia|].
  destruct Hsign as [self' Hok]. exists self'. split; [exact Hok|].
  by apply (add_read_back note h self).
Qed.

Lemma add_then_get_note_witness :
  exists self',
    OrganizedNotesTable.add 1%nat example_heap example_table = Ok self' /\
    OrganizedNotesTable.get_note 0 0 64 self' = Ok 1%nat.
Proof.
  apply (add_then_get_note 1%nat example_heap example_table). simpl. lia.
Defined.

(** X3.  [add] overwrites one place only: after a successful [add], every
    read at a triple other than the note's own (timeline_tick, channel,
    pitch) gives what it gave before, the stored note or the KeyError. *)
Theorem add_keeps_other_notes (note : ref) (h : heap)
  (self self' : OrganizedNotesTable.t) (t c p : Z) :
  OrganizedNotesTable.add note h self = Ok self' ->
  ~ (t = Note.timeline_tick (h note) /\ c = Note.channel (h note) /\
     p = Note.pitch (h note)) ->
  OrganizedNotesTable.get_note t c p self' = OrganizedNotesTable.get_note t c p self.
Proof.
  intros Hok Hother. by apply (add_read_elsewhere note h self).
Qed.

Lemma add_keeps_other_notes_witness :
  OrganizedNotesTable.get_note 0 0 60
    (OrganizedNotesTable.with_table
       (table_with 0 0 64 1%nat (OrganizedNotesTable.table example_table)) example_table)
  = Ok 0%nat.
Proof.
  rewrite (add_keeps_other_notes 1%nat example_heap example_table _ 0 0 60).
  - reflexivity.
  - reflexivity.
  - simpl. intros (_ & _ & Hp). discriminate Hp.
Defined.

(** The bitmask of a table built by [add] from the empty table agrees with
    its list of channels, also after [sort]. *)
Lemma pipeline_coding (notes : list ref) (h : heap) :
  (forall note, note ∈ notes -> 0 <= Note.channel (h note)) ->
  exists self,
    add_all notes h OrganizedNotesTable.init = Ok self /\
    coding_wf (OrganizedNotesTable.sort self).
Proof.
  intros Hchan. destruct (init_wf h) as [Hwf0 Hcoding0].
  destruct (add_all_wf notes h _ Hwf0 Hcoding0 Hchan) as (self & Hrun & _ & Hcoding & _).
  exists self. split; [exact Hrun | exact Hcoding].
Qed.

(** X4.  [add] keeps the invariant of the table: keys stay distinct at the
    three levels, every stored note sits in the cell named by its own
    attributes, no row and no cell is empty, every channel in the table is
    registered, once, and the bitmask agrees with the list of channels.  The
    channels afterwards are the channels before plus the note's channel, and
    the only note that enters the table is the one added. *)
Theorem add_keeps_invariant (note : ref) (h : heap) (self : OrganizedNotesTable.t) :
  wf h self -> coding_wf self -> 0 <= Note.channel (h note) ->
  exists self',
    OrganizedNotesTable.add note h self = Ok self' /\
    wf h self' /\ coding_wf self' /\
    (forall k, k ∈ OrganizedNotesTable.channels self' <->
               k = Note.channel (h note) \/ k ∈ OrganizedNotesTable.channels self) /\
    (forall t r, note_at (OrganizedNotesTable.table self') t r ->
                 r = note \/ note_at (OrganizedNotesTable.table self) t r).
Proof.
  intros Hwf Hcoding Hc.
  destruct (add_wf note h self Hwf Hcoding Hc) as (self' & Hok & Hwf' & Hcoding' & Hfrom & _).
  exists self'. split; [exact Hok|]. split; [exact Hwf'|]. split; [exact Hcoding'|].
  split; [|exact Hfrom].
  destruct Hwf as (_ & _ & _ & Hnd & _).
  destruct (add_channel_if_not_exists_ok _ self Hc Hcoding Hnd)
    as (self1 & Hrun & _ & _ & _ & Hchannels).
  rewrite add_table, Hrun, bind_Ok in Hok. by injection Hok as <-.
Qed.

Lemma add_keeps_invariant_witness :
  exists self',
    OrganizedNotesTable.add 3%nat example_heap example_table = Ok self' /\
    wf example_heap self' /\ coding_wf self'.
Proof.
  destruct (pipeline_coding example_notes example_heap) as (self & Hrun & Hcoding).
  { intros note Hin. unfold example_notes in Hin. all_elems Hin; simpl; lia. }
  rewrite (proj1 example_pipeline) in Hrun. injection Hrun as <-.
  destruct example_wf as (_ & Hwf & _).
  destruct (add_keeps_invariant 3%nat example_heap example_table Hwf)
    as (self' & Hok & Hwf' & Hcoding' & _).
  - exact Hcoding.
  - simpl. lia.
  - by exists self'.
Defined.

(** ** The bitmask and the list of channels *)

Lemma list_contains_spec (x : Z) (l : list Z) :
  NotesTable.list_contains x l = true <-> x ∈ l.
Proof.
  induction l as [|y l IH]; simpl.
  - split; [discriminate | intros Hin; by apply elem_of_nil in Hin].
  - rewrite elem_of_cons. destruct (Z.eqb_spec y x) as [-> | Hne]; [tauto|].
    rewrite IH. split; [tauto | intros [-> | ?]; done].
Qed.

(** X5.  On a table whose bitmask agrees with its list of channels, as [add]
    keeps it, the overriding [has_channel] answers for a non-negative channel
    what the base class answers by scanning the list: its result is non-zero
    exactly when the base class returns True.  For a negative channel the
    base class answers, and the override raises ValueError. *)
Theorem has_channel_agrees_with_base (channel : Z) (self : OrganizedNotesTable.t) :
  coding_wf self ->
  (0 <= channel ->
   exists present,
     OrganizedNotesTable.has_channel channel self = Ok present /\
     (present <> 0 <-> NotesTable.has_channel channel (super self) = true)) /\
  (channel < 0 -> OrganizedNotesTable.has_channel channel self = Raise ValueError).
Proof.
  intros Hcoding. unfold OrganizedNotesTable.has_channel, py_lshift. split.
  - intros Hc. destruct (Z.ltb_spec channel 0) as [? | _]; [lia|].
    eexists. split; [reflexivity|].
    unfold NotesTable.has_channel, super. cbn [NotesTable.channels].
    rewrite list_contains_spec, <- (Hcoding channel Hc).
    pose proof (land_bit (OrganizedNotesTable.channel_coding self) channel Hc) as Hbit.
    destruct (Z.testbit _ channel); cbn [negb] in Hbit.
    + apply Z.eqb_neq in Hbit. by split.
    + apply Z.eqb_eq in Hbit. split; [done | discriminate].
  - intros Hc. destruct (Z.ltb_spec channel 0) as [_ | ?]; [reflexivity | lia].
Qed.

Lemma has_channel_agrees_with_base_witness :
  exists present,
    OrganizedNotesTable.has_channel 1 example_table = Ok present /\
    (present <> 0 <-> NotesTable.has_channel 1 (super example_table) = true).
Proof.
  destruct (pipeline_coding example_notes example_heap) as (self & Hrun & Hcoding).
  { intros note Hin. unfold example_notes in Hin. all_elems Hin; simpl; lia. }
  rewrite (proj1 example_pipeline) in Hrun. injection Hrun as <-.
  apply (has_channel_agrees_with_base 1 example_table Hcoding). lia.
Defined.

(** X6.  The base class registers a channel at most once: on a list of
    channels without repetition, [add_channel_if_not_exists] leaves a list
    without repetition, whose members are the old ones and the channel given.
    It raises for no channel, negative ones included: it compares channels,
    it does not shift by them. *)
Theorem base_add_channel_once {V : Type} (channel : Z) (self : NotesTable.t V) :
  NoDup (NotesTable.channels self) ->
  NoDup (NotesTable.channels (NotesTable.add_channel_if_not_exists channel self)) /\
  forall k, k ∈ NotesTable.channels (NotesTable.add_channel_if_not_exists channel self)
            <-> k = channel \/ k ∈ NotesTable.channels self.
Proof.
  intros Hnd. unfold NotesTable.add_channel_if_not_exists, NotesTable.has_channel.
  destruct (NotesTable.list_contains channel _) eqn:Hc.
  - apply list_contains_spec in Hc. split; [done|].
    intros k. split; [by right | intros [-> | ?]; done].
  - assert (Hnin : channel ∉ NotesTable.channels self).
    { intros Hin. apply list_contains_spec in Hin. congruence. }
    cbn [NotesTable.add_channel NotesTable.channels]. split.
    + apply NoDup_app. split; [done|]. split; [|apply NoDup_singleton].
      intros k Hk Hk'. apply list_elem_of_singleton in Hk' as ->. done.
    + intros k. rewrite elem_of_app, list_elem_of_singleton. tauto.
Qed.

Lemma base_add_channel_once_witness :
  NoDup (NotesTable.channels
           (NotesTable.add_channel_if_not_exists (-1) (super example_table))) /\
  -1 ∈ NotesTable.channels
         (NotesTable.add_channel_if_not_exists (-1) (super example_table)).
Proof.
  assert (Hnd : NoDup (NotesTable.channels (super example_table))).
  { destruct example_wf as (_ & (_ & _ & _ & Hnd & _) & _). exact Hnd. }
  destruct (base_add_channel_once (-1) (super example_table) Hnd) as [Hnd' Hin].
  split; [exact Hnd'|]. apply Hin. by left.
Defined.

(** ** sort: the order changes, the content does not *)

Lemma dict_get_perm {V : Type} (k : Z) (d d' : dict V) :
  dict_wf d -> d' ≡ₚ d -> dict_get k d' = dict_get k d.
Proof.
  intros Hwf Hperm.
  assert (Hwf' : dict_wf d') by (unfold dict_wf, dict_keys; by rewrite Hperm).
  destruct (decide (k ∈ dict_keys d)) as [Hin | Hnin].
  - apply elem_of_dict_keys_inv in Hin as [v Hin].
    rewrite (dict_get_elem k v d Hwf Hin).
    apply dict_get_elem; [done | by rewrite Hperm].
  - rewrite (dict_get_absent k d Hnin). apply dict_get_absent.
    unfold dict_keys in *. by rewrite Hperm.
Qed.

(** X7.  [sort] changes the iteration order and nothing else: every
    [get_note] returns after [sort] what it returned before, and the list
    of channels and the bitmask are untouched. *)
Theorem sort_keeps_reads (self : OrganizedNotesTable.t) (t c p : Z) :
  dict_wf (OrganizedNotesTable.table self) ->
  OrganizedNotesTable.get_note t c p (OrganizedNotesTable.sort self) =
    OrganizedNotesTable.get_note t c p self /\
  OrganizedNotesTable.channels (OrganizedNotesTable.sort self) =
    OrganizedNotesTable.channels self /\
  OrganizedNotesTable.channel_coding (OrganizedNotesTable.sort self) =
    OrganizedNotesTable.channel_coding self.
Proof.
  intros Hwf. split; [|by split].
  unfold OrganizedNotesTable.get_note.
  rewrite (dict_get_perm t (OrganizedNotesTable.table self)); [reflexivity | exact Hwf |].
  rewrite (sort_table self Hwf). apply sorted_perm.
Qed.

Lemma sort_keeps_reads_witness :
  OrganizedNotesTable.get_note 4 1 67 (OrganizedNotesTable.sort example_unsorted) =
    OrganizedNotesTable.get_note 4 1 67 example_unsorted.
Proof.
  apply (sort_keeps_reads example_unsorted 4 1 67).
  destruct example_wf as ((Htwf & _) & _). apply Htwf.
Defined.

(** X8.  On a non-empty table, [first_tick] after [sort] returns the least
    time-position of the table. *)
Theorem first_tick_after_sort_is_least (self : OrganizedNotesTable.t) :
  dict_wf (OrganizedNotesTable.table self) ->
  OrganizedNotesTable.table self <> [] ->
  exists t,
    OrganizedNotesTable.first_tick (OrganizedNotesTable.sort self) = Ok (Some t) /\
    t ∈ dict_keys (OrganizedNotesTable.table self) /\
    forall k, k ∈ dict_keys (OrganizedNotesTable.table self) -> t <= k.
Proof.
  intros Hwf Hne.
  pose proof (sort_table self Hwf) as Htable.
  pose proof (sorted_perm fst (OrganizedNotesTable.table self)) as Hperm.
  assert (Hasc : ascending (sorted fst (OrganizedNotesTable.table self)))
    by (apply key_lt_fst, sorted_ascending; exact Hwf).
  unfold OrganizedNotesTable.first_tick. rewrite Htable.
  destruct (sorted fst (OrganizedNotesTable.table self)) as [|[t row] rest] eqn:Hsorted.
  - apply Permutation_nil_l in Hperm. congruence.
  - exists t. rewrite dict_keys_cons. split; [reflexivity|].
    unfold ascending in Hasc. rewrite dict_keys_cons in Hasc.
    apply StronglySorted_inv in Hasc as [_ Hall]. rewrite Forall_forall in Hall.
    assert (Hkeys : forall k, k ∈ dict_keys (OrganizedNotesTable.table self) <->
                              k ∈ t :: dict_keys rest).
    { intros k. rewrite <- (dict_keys_cons t row rest). unfold dict_keys.
      by rewrite <- Hperm. }
    split; [apply Hkeys, list_elem_of_here|].
    intros k Hk. apply Hkeys, elem_of_cons in Hk as [-> | Hk]; [lia|].
    specialize (Hall k Hk). lia.
Qed.

Lemma first_tick_after_sort_is_least_witness :
  exists t,
    OrganizedNotesTable.first_tick (OrganizedNotesTable.sort example_unsorted) = Ok (Some t) /\
    t <= 4.
Proof.
  assert (Hwf : dict_wf (OrganizedNotesTable.table example_unsorted)).
  { destruct example_wf as ((Htwf & _) & _). apply Htwf. }
  assert (Hne : OrganizedNotesTable.table example_unsorted <> []) by discriminate.
  destruct (first_tick_after_sort_is_least example_unsorted Hwf Hne) as (t & Hfirst & _ & Hmin).
  exists t. split; [exact Hfirst|]. apply Hmin. apply list_elem_of_here.
Defined.

(** ** update_delta_times: what it touches, in which order, and twice *)

Lemma same_but_gaps_sym (a b : Note.t) :
  Note.same_but_gaps a b -> Note.same_but_gaps b a.
Proof.
  unfold Note.same_but_gaps. intros (? & ? & ? & ? & ? & ?). by repeat split.
Qed.

Lemma note_eq_fields (a b : Note.t) :
  Note.same_but_gaps a b ->
  Note.previous_delta_ticks a = Note.previous_delta_ticks b ->
  Note.next_delta_ticks a = Note.next_delta_ticks b ->
  a = b.
Proof.
  destruct a, b. unfold Note.same_but_gaps. simpl.
  intros (? & ? & ? & ? & ? & ?) ? ?. by subst.
Qed.

Lemma delta_loop_frame (rest : dict (dict (dict ref))) :
  forall (pt : Z) (prow : dict (dict ref)) (h : heap),
    (forall r, Note.same_but_gaps (delta_loop pt prow rest h r) (h r)) /\
    (forall r, r ∉ row_refs prow -> (forall t, ~ note_at rest t r) ->
               delta_loop pt prow rest h r = h r).
Proof.
  induction rest as [|[t row] rest IH]; intros pt prow h; cbn [delta_loop].
  - split; [intros r; apply same_but_gaps_refl | done].
  - destruct (IH t row (one_step pt prow t row h)) as [Hstat Hframe]. split.
    + intros r. eapply same_but_gaps_trans; [apply Hstat | apply one_step_static].
    + intros r Hp Hr. rewrite Hframe.
      * apply one_step_frame; [|done]. intros Hin. apply (Hr t), note_at_cons. by left.
      * intros Hin. apply (Hr t), note_at_cons. by left.
      * intros t' Hat. apply (Hr t'), note_at_cons. by right.
Qed.

(** X9.  [update_delta_times] writes gaps and nothing else: in the store it
    returns, every note has its timeline_tick, wait_ticks, duration_ticks,
    channel, pitch and velocity as before, and a note that is not in the
    table is left exactly as it was. *)
Theorem update_delta_times_writes_gaps_only (self : OrganizedNotesTable.t) (h : heap) :
  table_wf (OrganizedNotesTable.table self) ->
  exists h',
    OrganizedNotesTable.update_delta_times self h = Ok h' /\
    (forall r, Note.same_but_gaps (h' r) (h r)) /\
    (forall r, (forall t, ~ note_at (OrganizedNotesTable.table self) t r) -> h' r = h r).
Proof.
  intros Hwf. eexists. split; [by apply update_delta_times_ok|].
  destruct (OrganizedNotesTable.table self) as [|[t0 row0] rest0].
  - split; [intros r; apply same_but_gaps_refl | done].
  - destruct (delta_loop_frame ((t0, row0) :: rest0) t0 row0 h) as [Hstat Hframe].
    split; [exact Hstat|]. intros r Hr. apply Hframe; [|exact Hr].
    intros Hin. apply (Hr t0), note_at_cons. by left.
Qed.

Lemma update_delta_times_writes_gaps_only_witness :
  exists h',
    OrganizedNotesTable.update_delta_times example_table example_heap = Ok h' /\
    Note.pitch (h' 2%nat) = 67 /\ h' 7%nat = example_heap 7%nat.
Proof.
  assert (Hwf : table_wf (OrganizedNotesTable.table example_table)).
  { destruct example_wf as (_ & (Htwf & _) & _). exact Htwf. }
  destruct (update_delta_times_writes_gaps_only example_table example_heap Hwf)
    as (h' & Hrun & Hstat & Hframe).
  exists h'. split; [exact Hrun|]. split.
  - destruct (Hstat 2%nat) as (_ & _ & _ & _ & Hp & _). by rewrite Hp.
  - apply Hframe. intros t (row & Hrow & Hr). cbn in Hrow.
    repeat (apply elem_of_cons in Hrow as [[= -> ->] | Hrow]);
      [.. | by apply elem_of_nil in Hrow];
      cbn in Hr; repeat (apply elem_of_cons in Hr as [[=] | Hr]);
      by apply elem_of_nil in Hr.
Defined.

(** X10.  The gaps follow the iteration order of the table, sorted or not:
    for two time-positions [a] and [b] that the table hands out one right
    after the other, every note at [b] ends with previous_delta_ticks
    [b - a] and every note at [a] with next_delta_ticks [b - a], a negative
    number where the table descends. *)
Theorem update_delta_times_follows_iteration_order
  (self : OrganizedNotesTable.t) (h : heap)
  (l1 l2 : dict (dict (dict ref))) (a b : Z) (ra rb : dict (dict ref)) :
  table_wf (OrganizedNotesTable.table self) ->
  located h (OrganizedNotesTable.table self) ->
  OrganizedNotesTable.table self = l1 ++ (a, ra) :: (b, rb) :: l2 ->
  exists h',
    OrganizedNotesTable.update_delta_times self h = Ok h' /\
    (forall r, r ∈ row_refs rb -> Note.previous_delta_ticks (h' r) = b - a) /\
    (forall r, r ∈ row_refs ra -> Note.next_delta_ticks (h' r) = b - a).
Proof.
  intros Hwf Hloc Hsplit. eexists. split; [by apply update_delta_times_ok|].
  destruct Hwf as [Hnd _].
  destruct (OrganizedNotesTable.table self) as [|[t0 row0] rest0];
    [by destruct l1|].
  cbn [delta_loop]. set (h1 := one_step t0 row0 t0 row0 h).
  assert (Htt : forall t r, note_at ((t0, row0) :: rest0) t r -> Note.timeline_tick (h r) = t)
    by (intros t r; by apply located_timeline).
  assert (Hstat1 : forall r, Note.same_but_gaps (h1 r) (h r))
    by (intros r; apply one_step_static).
  destruct (delta_loop_spec rest0 t0 row0 h1) as (_ & _ & _ & Hadj & _).
  { exact Hnd. }
  { intros r Hr. rewrite (proj1 (Hstat1 r)). apply Htt, note_at_cons. by left. }
  { intros t r Hr. rewrite (proj1 (Hstat1 r)). apply Htt, note_at_cons. by right. }
  split; intros r Hr; by apply (Hadj l1 a ra b rb l2 r Hsplit).
Qed.

Lemma update_delta_times_follows_iteration_order_witness :
  exists h',
    OrganizedNotesTable.update_delta_times example_unsorted example_heap = Ok h' /\
    Note.previous_delta_ticks (h' 0%nat) = 0 - 4 /\
    Note.next_delta_ticks (h' 2%nat) = 0 - 4.
Proof.
  destruct example_wf as ((Htwf & Hloc & _) & _).
  destruct (update_delta_times_follows_iteration_order example_unsorted example_heap
              [] [] 4 0 [(0, [(67, 2%nat)]); (1, [(67, 3%nat)])]
              [(0, [(60, 0%nat); (64, 1%nat)])] Htwf Hloc eq_refl)
    as (h' & Hrun & Hprev & Hnext).
  exists h'. split; [exact Hrun|]. split.
  - apply Hprev. cbn. elem_of_list.
  - apply Hnext. cbn. elem_of_list.
Defined.

(** Two stores that agree on everything the outer loop does not overwrite
    come out of it equal. *)
Lemma delta_loop_agree (rest : dict (dict (dict ref))) :
  forall (pt : Z) (prow : dict (dict ref)) (g1 g2 : heap),
    NoDup (pt :: dict_keys rest) ->
    (forall r, r ∈ row_refs prow -> Note.timeline_tick (g1 r) = pt) ->
    (forall t r, note_at rest t r -> Note.timeline_tick (g1 r) = t) ->
    (forall r, Note.same_but_gaps (g1 r) (g2 r)) ->
    (forall r, r ∈ row_refs prow ->
       Note.previous_delta_ticks (g1 r) = Note.previous_delta_ticks (g2 r)) ->
    (forall l1 a ra r, (pt, prow) :: rest = l1 ++ [(a, ra)] -> r ∈ row_refs ra ->
       Note.next_delta_ticks (g1 r) = Note.next_delta_ticks (g2 r)) ->
    (forall r, r ∉ row_refs prow -> (forall t, ~ note_at rest t r) -> g1 r = g2 r) ->
    forall r, delta_loop pt prow rest g1 r = delta_loop pt prow rest g2 r.
Proof.
  induction rest as [|[t row] rest IH];
    intros pt prow g1 g2 Hnd Hprow Hrest Hsame Hprev Hlast Hframe r; cbn [delta_loop].
  - destruct (decide (r ∈ row_refs prow)) as [Hin | Hnin].
    + apply note_eq_fields; [apply Hsame | by apply Hprev |].
      by apply (Hlast [] pt prow).
    + apply Hframe; [done|]. intros t' (row' & Hrow' & _). by apply elem_of_nil in Hrow'.
  - rewrite dict_keys_cons in Hnd. apply NoDup_cons in Hnd as [Hpt Hnd].
    apply not_elem_of_cons in Hpt as [Hpt_t Hpt].
    assert (Hrow : forall r', r' ∈ row_refs row -> Note.timeline_tick (g1 r') = t).
    { intros r' Hr'. apply Hrest, note_at_cons. by left. }
    assert (Htt2 : forall r', Note.timeline_tick (g2 r') = Note.timeline_tick (g1 r')).
    { intros r'. by destruct (Hsame r') as (-> & _). }
    assert (Hdisj : forall r', r' ∈ row_refs prow -> r' ∉ row_refs row).
    { intros r' Hp Hr'. apply Hprow in Hp. apply Hrow in Hr'. congruence. }
    apply IH; clear r.
    + exact Hnd.
    + intros r Hr. rewrite (proj1 (one_step_static _ _ _ _ _ _)). by apply Hrow.
    + intros t' r Hr. rewrite (proj1 (one_step_static _ _ _ _ _ _)).
      apply Hrest, note_at_cons. by right.
    + intros r. eapply same_but_gaps_trans; [apply one_step_static|].
      eapply same_but_gaps_trans; [apply Hsame|].
      apply same_but_gaps_sym, one_step_static.
    + intros r Hr. rewrite !one_step_current; try done.
      * rewrite Htt2. by apply Hrow.
      * by apply Hrow.
    + intros l1 a' ra' r Heq Hr.
      assert (Hnp : r ∉ row_refs prow).
      { intros Hp. apply Hprow in Hp.
        assert (Hat : note_at ((t, row) :: rest) a' r).
        { exists ra'. split; [|done]. rewrite Heq. apply elem_of_app. right.
          apply list_elem_of_here. }
        pose proof (note_at_key _ _ _ Hat) as Hk. rewrite dict_keys_cons in Hk.
        apply Hrest in Hat. apply elem_of_cons in Hk as [-> | Hk]; congruence. }
      rewrite !one_step_not_previous by done.
      apply (Hlast ((pt, prow) :: l1) a' ra'); [|done]. by rewrite Heq.
    + intros r Hnr Hnrest.
      destruct (decide (r ∈ row_refs prow)) as [Hp | Hnp].
      * apply note_eq_fields.
        -- eapply same_but_gaps_trans; [apply one_step_static|].
           eapply same_but_gaps_trans; [apply Hsame|].
           apply same_but_gaps_sym, one_step_static.
        -- rewrite !one_step_not_current by done. by apply Hprev.
        -- rewrite !one_step_previous; try done.
           ++ rewrite Htt2. by apply Hprow.
           ++ by apply Hprow.
      * rewrite !one_step_frame by done. apply Hframe; [done|].
        intros t' Hat. apply note_at_cons in Hat as [[-> Hin] | Hat]; [done|].
        by apply (Hnrest t').
Qed.

(** X11.  Running [update_delta_times] a second time on the same table
    changes nothing: the store after two runs is, note by note, the store
    after one. *)
Theorem update_delta_times_idempotent (self : OrganizedNotesTable.t) (h h' h'' : heap) :
  table_wf (OrganizedNotesTable.table self) ->
  located h (OrganizedNotesTable.table self) ->
  OrganizedNotesTable.update_delta_times self h = Ok h' ->
  OrganizedNotesTable.update_delta_times self h' = Ok h'' ->
  forall r, h'' r = h' r.
Proof.
  intros Hwf Hloc Hrun1 Hrun2.
  rewrite update_delta_times_ok in Hrun1, Hrun2 by done.
  injection Hrun1 as <-. injection Hrun2 as <-.
  destruct Hwf as [Hnd _].
  destruct (OrganizedNotesTable.table self) as [|[t0 row0] rest0]; [done|].
  cbn [delta_loop].
  set (g2 := one_step t0 row0 t0 row0 h).
  set (h' := delta_loop t0 row0 rest0 g2).
  set (g1 := one_step t0 row0 t0 row0 h').
  assert (Htt : forall t r, note_at ((t0, row0) :: rest0) t r -> Note.timeline_tick (h r) = t)
    by (intros t r; by apply located_timeline).
  assert (Hrow0 : forall r, r ∈ row_refs row0 -> Note.timeline_tick (h r) = t0).
  { intros r Hr. apply Htt, note_at_cons. by left. }
  assert (Hrest0 : forall t r, note_at rest0 t r -> Note.timeline_tick (h r) = t).
  { intros t r Hr. apply Htt, note_at_cons. by right. }
  assert (Hg2 : forall r, Note.same_but_gaps (g2 r) (h r))
    by (intros r; apply one_step_static).
  destruct (delta_loop_frame rest0 t0 row0 g2) as [Hstat' Hframe'].
  fold h' in Hstat', Hframe'.
  assert (Hh' : forall r, Note.same_but_gaps (h' r) (h r)).
  { intros r. eapply same_but_gaps_trans; [apply Hstat' | apply Hg2]. }
  assert (Hg1 : forall r, Note.same_but_gaps (g1 r) (h r)).
  { intros r. eapply same_but_gaps_trans; [apply one_step_static | apply Hh']. }
  destruct (delta_loop_spec rest0 t0 row0 g2) as (_ & _ & _ & _ & Hlast).
  { exact Hnd. }
  { intros r Hr. rewrite (proj1 (Hg2 r)). by apply Hrow0. }
  { intros t r Hr. rewrite (proj1 (Hg2 r)). by apply Hrest0. }
  fold h' in Hlast.
  apply delta_loop_agree.
  - exact Hnd.
  - intros r Hr. rewrite (proj1 (Hg1 r)). by apply Hrow0.
  - intros t r Hr. rewrite (proj1 (Hg1 r)). by apply Hrest0.
  - intros r. eapply same_but_gaps_trans; [apply Hg1 | apply same_but_gaps_sym, Hg2].
  - intros r Hr. unfold g1, g2. rewrite !one_step_current; try done.
    + by apply Hrow0.
    + rewrite (proj1 (Hh' r)). by apply Hrow0.
  - intros l1 a ra r Heq Hr. unfold g1. destruct l1 as [|e l1].
    + injection Heq as <- <- _. unfold g2. rewrite !one_step_previous; try done.
      * by apply Hrow0.
      * rewrite (proj1 (Hh' r)). by apply Hrow0.
    + assert (Hnp : r ∉ row_refs row0).
      { intros Hp. apply Hrow0 in Hp. injection Heq as _ Heq.
        assert (Hat : note_at rest0 a r).
        { exists ra. split; [|done]. rewrite Heq. apply elem_of_app. right.
          apply list_elem_of_here. }
        pose proof (note_at_key _ _ _ Hat) as Hk. apply Hrest0 in Hat.
        unfold dict_wf in Hnd. rewrite dict_keys_cons in Hnd.
        apply NoDup_cons in Hnd as [Hnin _]. congruence. }
      rewrite one_step_not_previous by done.
      by apply (Hlast (e :: l1) a ra r).
  - intros r Hnr Hnrest. unfold g1. rewrite one_step_frame by done.
    by apply Hframe'.
Qed.

Lemma update_delta_times_idempotent_witness :
  exists h' h'',
    OrganizedNotesTable.update_delta_times example_table example_heap = Ok h' /\
    OrganizedNotesTable.update_delta_times example_table h' = Ok h'' /\
    h'' 0%nat = h' 0%nat.
Proof.
  destruct example_wf as (_ & (Htwf & Hloc & _) & _).
  pose proof (update_delta_times_ok example_table Htwf example_heap) as Hrun1.
  pose proof (update_delta_times_ok example_table Htwf
                (delta_loop 0 [(0, [(60, 0%nat); (64, 1%nat)])]
                   (OrganizedNotesTable.table example_table) example_heap)) as Hrun2.
  eexists _, _. split; [exact Hrun1|]. split; [exact Hrun2|].
  exact (update_delta_times_idempotent example_table example_heap _ _ Htwf Hloc
           Hrun1 Hrun2 0%nat).
Defined.

(** ** Adding many notes *)

Section AddAll.
Import OrganizedNotesTable.

Lemma add_all_cons (note : ref) (notes : list ref) (h : heap) (self : t) :
  add_all (note :: notes) h self = (self1 ← add note h self; add_all notes h self1).
Proof. reflexivity. Qed.

Lemma add_all_app (l1 l2 : list ref) (h : heap) (self : t) :
  add_all (l1 ++ l2) h self = (self1 ← add_all l1 h self; add_all l2 h self1).
Proof.
  revert self. induction l1 as [|note l1 IH]; intros self; [reflexivity|].
  rewrite <- app_comm_cons, !add_all_cons.
  destruct (add note h self) as [self1|e]; [|reflexivity].
  rewrite !bind_Ok. apply IH.
Qed.

Lemma add_all_keeps_read (notes : list ref) (h : heap) (note : ref) :
  forall self self' : t,
    add_all notes h self = Ok self' ->
    (forall other, other ∈ notes -> ~ same_place h note other) ->
    get_note (Note.timeline_tick (h note)) (Note.channel (h note)) (Note.pitch (h note)) self'
    = get_note (Note.timeline_tick (h note)) (Note.channel (h note)) (Note.pitch (h note)) self.
Proof.
  induction notes as [|other notes IH]; intros self self' Hrun Hother.
  - by injection Hrun as <-.
  - rewrite add_all_cons in Hrun.
    destruct (add other h self) as [self1|e] eqn:Hadd; [|discriminate].
    rewrite bind_Ok in Hrun. rewrite (IH self1 self' Hrun).
    + apply (add_read_elsewhere other h self self1); [exact Hadd|].
      intros (Ht & Hc & Hp). by apply (Hother other (list_elem_of_here _ _)).
    + intros o Ho. by apply Hother, list_elem_of_further.
Qed.

End AddAll.

(** X12.  [add_all] returns exactly when no note given has a negative
    channel; when it raises, it raises ValueError. *)
Theorem add_all_raises_iff_negative_channel (notes : list ref) (h : heap)
  (self : OrganizedNotesTable.t) :
  ((exists self', add_all notes h self = Ok self') <->
   forall note, note ∈ notes -> 0 <= Note.channel (h note)) /\
  (forall e, add_all notes h self = Raise e -> e = ValueError).
Proof.
  revert self. induction notes as [|note notes IH]; intros self.
  - split; [|discriminate]. split; [|by eexists].
    intros _ note Hin. by apply elem_of_nil in Hin.
  - rewrite add_all_cons. pose proof (add_sign note h self) as Hsign.
    destruct (Z.ltb_spec (Note.channel (h note)) 0) as [Hneg | Hpos].
    + rewrite Hsign, bind_Raise. split; [|by intros e [= <-]].
      split; [intros [self' Hok]; discriminate|].
      intros Hall. specialize (Hall note (list_elem_of_here _ _)). lia.
    + destruct Hsign as [self1 ->]. rewrite bind_Ok.
      destruct (IH self1) as [Hiff Hraise]. split; [|exact Hraise].
      rewrite Hiff. split.
      * intros Hall n Hn. apply elem_of_cons in Hn as [-> | Hn]; [done | by apply Hall].
      * intros Hall n Hn. by apply Hall, list_elem_of_further.
Qed.

(** X13.  The last write wins: after [add_all], reading the place of a note
    that no later note of the list shares returns that note, whatever came
    before it in the list or was in the table. *)
Theorem add_all_last_write_wins (l1 l2 : list ref) (note : ref) (h : heap)
  (self self' : OrganizedNotesTable.t) :
  add_all (l1 ++ note :: l2) h self = Ok self' ->
  (forall other, other ∈ l2 -> ~ same_place h note other) ->
  OrganizedNotesTable.get_note (Note.timeline_tick (h note)) (Note.channel (h note))
    (Note.pitch (h note)) self' = Ok note.
Proof.
  intros Hrun Hlater. rewrite add_all_app in Hrun.
  destruct (add_all l1 h self) as [self1|e]; [|discriminate].
  rewrite bind_Ok, add_all_cons in Hrun.
  destruct (OrganizedNotesTable.add note h self1) as [self2|e] eqn:Hadd; [|discriminate].
  rewrite bind_Ok in Hrun.
  rewrite (add_all_keeps_read l2 h note self2 self' Hrun Hlater).
  by apply (add_read_back note h self1).
Qed.

Lemma add_all_last_write_wins_witness :
  OrganizedNotesTable.get_note 0 0 60 example_unsorted = Ok 0%nat.
Proof.
  apply (add_all_last_write_wins [2%nat] [1%nat; 3%nat] 0%nat example_heap
           OrganizedNotesTable.init example_unsorted).
  - reflexivity.
  - intros other Hin (_ & _ & Hp). all_elems Hin; discriminate Hp.
Defined.

(** X14.  From notes fresh from their constructor, none with a negative
    channel, [add_all] on the empty table and then [sort] give a table that
    holds the invariant, iterates in strictly ascending time-position order,
    stores no note but notes of the list, and whose notes still have both
    gaps at 0: the state [update_delta_times] and [__build__] expect. *)
Theorem add_all_then_sort_is_wellformed (notes : list ref) (h : heap) :
  (forall note, note ∈ notes -> 0 <= Note.channel (h note)) ->
  (forall note, note ∈ notes ->
     Note.previous_delta_ticks (h note) = 0 /\ Note.next_delta_ticks (h note) = 0) ->
  exists self,
    add_all notes h OrganizedNotesTable.init = Ok self /\
    wf h (OrganizedNotesTable.sort self) /\
    coding_wf (OrganizedNotesTable.sort self) /\
    ascending (OrganizedNotesTable.table (OrganizedNotesTable.sort self)) /\
    default_gaps h (OrganizedNotesTable.table (OrganizedNotesTable.sort self)) /\
    forall t r, note_at (OrganizedNotesTable.table (OrganizedNotesTable.sort self)) t r ->
                r ∈ notes.
Proof.
  intros Hchan Hfresh.
  destruct (init_wf h) as [Hwf0 Hcoding0].
  destruct (add_all_wf notes h _ Hwf0 Hcoding0 Hchan) as (self & Hrun & Hwf & Hcoding & Hfrom).
  destruct (sort_wf h self Hwf) as (Hwf' & Hasc & Hsame).
  assert (Hin : forall t r, note_at (OrganizedNotesTable.table (OrganizedNotesTable.sort self)) t r ->
                            r ∈ notes).
  { intros t r Hat. apply Hsame in Hat.
    destruct (Hfrom t r Hat) as [Hr | (row & Hrow & _)]; [done|].
    by apply elem_of_nil in Hrow. }
  exists self. split; [exact Hrun|]. split; [exact Hwf'|]. split; [exact Hcoding|].
  split; [exact Hasc|]. split; [|exact Hin].
  intros t r Hat. apply Hfresh. by apply (Hin t).
Qed.

Lemma add_all_then_sort_is_wellformed_witness :
  exists self,
    add_all example_notes example_heap OrganizedNotesTable.init = Ok self /\
    wf example_heap (OrganizedNotesTable.sort self) /\
    ascending (OrganizedNotesTable.table (OrganizedNotesTable.sort self)).
Proof.
  destruct (add_all_then_sort_is_wellformed example_notes example_heap)
    as (self & Hrun & Hwf & _ & Hasc & _).
  - intros note Hin. unfold example_notes in Hin. all_elems Hin; simpl; lia.
  - intros note Hin. unfold example_notes in Hin. all_elems Hin; by split.
  - by exists self.
Defined.

(** ** The transcript *)

Lemma build_tracks (nt : OrganizedNotesTable.t) (h : heap) :
  wf h nt ->
  exists tracks,
    MusicalTranscript.build nt h = Ok tracks /\
    dict_wf tracks /\
    (forall c, c ∈ dict_keys tracks <-> c ∈ OrganizedNotesTable.channels nt) /\
    forall c, c ∈ OrganizedNotesTable.channels nt ->
      dict_get c tracks =
        Ok ((fun b => SoundEvent.init (cell_refs (snd b)) h)
              <$> buckets (OrganizedNotesTable.table nt) c).
Proof.
  intros (Htwf & _ & _ & (_ & Hchan)).
  unfold MusicalTranscript.build, dict_empty. cbn zeta.
  set (tb := OrganizedNotesTable.table nt) in *.
  set (tracks0 := foldl _ _ _).
  destruct (init_tracks (OrganizedNotesTable.channels nt) []) as (Hwf0 & Hkeys0 & Hget0).
  { apply NoDup_nil_2. }
  { intros c Hc. by apply elem_of_nil in Hc. }
  fold tracks0 in Hwf0, Hkeys0, Hget0.
  set (ev := fun cell : dict ref => SoundEvent.init (cell_refs cell) h).
  rewrite (for_each_dict tb
    (fun tick row tracks =>
       for_each (dict_keys row) (MusicalTranscript.build_cell tb h tick) tracks))
    by apply Htwf.
  rewrite (for_each_ext_in _ _
    (fun kv tr => for_each (snd kv)
       (fun kv' tr' => append_event (fst kv') (ev (snd kv')) tr') tr)).
  2:{ intros [t row] s' Hrow. cbn [fst snd]. unfold dict_keys.
      rewrite for_each_fmap. apply for_each_ext_in.
      intros [c cell] s'' Hcell. cbn [fst snd]. by apply (build_cell_ok h tb t c row). }
  destruct (table_events ev tb tracks0) as (tracks & Hrun & Hkeys & Hget).
  { intros t row Hrow. destruct Htwf as (_ & Hrows).
    split; [by apply (Hrows t row)|].
    intros c Hc. apply Hkeys0. right.
    apply elem_of_dict_keys_inv in Hc as [cell Hcell]. by apply (Hchan t row c cell). }
  exists tracks. split; [exact Hrun|].
  split; [unfold dict_wf; by rewrite Hkeys|].
  split.
  { intros c. rewrite Hkeys, Hkeys0, elem_of_nil. tauto. }
  intros c Hc. rewrite (Hget c []); [reflexivity|].
  apply Hget0, Hkeys0. by right.
Qed.

(** X15.  Building a transcript from a table that holds the invariant never
    fails, sorted or not; [get_sound_events] then raises KeyError exactly for
    the channels that were never registered, and for a registered channel
    returns one sound event for each time-position that has the channel, in
    the iteration order of the table. *)
Theorem transcript_channels (nt : OrganizedNotesTable.t) (h : heap) :
  wf h nt ->
  exists transcript,
    MusicalTranscript.init nt h = Ok transcript /\
    MusicalTranscript.notes_table transcript = nt /\
    (forall c, MusicalTranscript.get_sound_events c transcript = Raise KeyError <->
               c ∉ OrganizedNotesTable.channels nt) /\
    (forall c, c ∈ OrganizedNotesTable.channels nt ->
       exists events,
         MusicalTranscript.get_sound_events c transcript = Ok events /\
         length events = length (buckets (OrganizedNotesTable.table nt) c)).
Proof.
  intros Hwf. destruct (build_tracks nt h Hwf) as (tracks & Hrun & _ & Hkeys & Hget).
  unfold MusicalTranscript.init. rewrite Hrun, bind_Ok.
  eexists. split; [reflexivity|]. split; [reflexivity|].
  unfold MusicalTranscript.get_sound_events. cbn [MusicalTranscript.tracks]. split.
  - intros c. rewrite <- Hkeys. split.
    + intros Hraise. by apply dict_get_Raise in Hraise as [_ ?].
    + apply dict_get_absent.
  - intros c Hc. eexists. split; [by apply Hget|]. by rewrite length_fmap.
Qed.

Lemma transcript_channels_witness :
  exists transcript,
    MusicalTranscript.init example_unsorted example_heap = Ok transcript /\
    MusicalTranscript.get_sound_events 5 transcript = Raise KeyError.
Proof.
  destruct example_wf as (Hwf & _).
  destruct (transcript_channels example_unsorted example_heap Hwf)
    as (transcript & Hrun & _ & Hraise & _).
  exists transcript. split; [exact Hrun|]. apply Hraise.
  cbn. intros Hin.
  repeat (apply elem_of_cons in Hin as [[=] | Hin]). by apply elem_of_nil in Hin.
Defined.

(** ** Sound events *)

Lemma fmap_NoDup_inj {A B : Type} (f : A -> B) (l : list A) (x y : A) :
  NoDup (f <$> l) -> x ∈ l -> y ∈ l -> f x = f y -> x = y.
Proof.
  induction l as [|z l IH]; intros Hnd Hx Hy Heq.
  - by apply elem_of_nil in Hx.
  - rewrite fmap_cons in Hnd. apply NoDup_cons in Hnd as [Hz Hnd].
    apply elem_of_cons in Hx as [-> | Hx]; apply elem_of_cons in Hy as [-> | Hy].
    + reflexivity.
    + exfalso. apply Hz. rewrite Heq. apply list_elem_of_fmap. by exists y.
    + exfalso. apply Hz. rewrite <- Heq. apply list_elem_of_fmap. by exists x.
    + by apply IH.
Qed.

(** X16.  When the notes given have pairwise different next_delta_ticks, a
    sound event does not depend on the order in which they are given: any
    rearrangement of the list builds the same sound event. *)
Theorem sound_event_order_independent (ns ns' : list ref) (h : heap) :
  ns ≡ₚ ns' ->
  NoDup ((fun note => Note.next_delta_ticks (h note)) <$> ns) ->
  SoundEvent.init ns h = SoundEvent.init ns' h.
Proof.
  intros Hperm Hnd.
  set (key := fun note => Note.next_delta_ticks (h note)) in *.
  enough (Heq : sorted key ns = sorted key ns').
  { pose proof (sound_event_notes h ns) as H1. pose proof (sound_event_notes h ns') as H2.
    fold key in H1, H2.
    destruct (SoundEvent.init ns h) as [l1], (SoundEvent.init ns' h) as [l2].
    cbn [SoundEvent.notes] in H1, H2. congruence. }
  apply (StronglySorted_unique_strong (key_le key)).
  - intros x1 x2 Hx1 Hx2 H12 H21. unfold key_le in *.
    rewrite sorted_perm in Hx1. rewrite sorted_perm, <- Hperm in Hx2.
    apply (fmap_NoDup_inj key ns); [done..|lia].
  - apply sorted_sorted.
  - apply sorted_sorted.
  - by rewrite !sorted_perm.
Qed.

Lemma sound_event_order_independent_witness :
  SoundEvent.init [0%nat; 2%nat] example_annotated =
  SoundEvent.init [2%nat; 0%nat] example_annotated.
Proof.
  apply sound_event_order_independent.
  - apply Permutation_swap.
  - cbn. apply NoDup_cons. split; [|apply NoDup_singleton].
    intros Hin. apply list_elem_of_singleton in Hin. discriminate Hin.
Defined.

(** X17.  [get_smallest_duration] returns [sys.maxint] or the
    duration_ticks of a member, and [sys.maxint] for an event without
    notes; when all members have the same duration and the first one has its
    next_delta_ticks below [sys.maxint], it returns that duration. *)
Theorem get_smallest_duration_range (maxint : Z) (self : SoundEvent.t) (h : heap) :
  (get_smallest_duration maxint self h = maxint \/
   exists note, note ∈ SoundEvent.notes self /\
                get_smallest_duration maxint self h = Note.duration_ticks (h note)) /\
  (SoundEvent.notes self = [] -> get_smallest_duration maxint self h = maxint) /\
  (forall first rest d,
     SoundEvent.notes self = first :: rest ->
     Note.next_delta_ticks (h first) < maxint ->
     (forall note, note ∈ SoundEvent.notes self -> Note.duration_ticks (h note) = d) ->
     get_smallest_duration maxint self h = d).
Proof.
  unfold get_smallest_duration. destruct self as [notes]. cbn [SoundEvent.notes].
  set (step := fun (min_ticks : Z) (note : ref) =>
                 if Note.next_delta_ticks (h note) <? min_ticks
                 then Note.duration_ticks (h note) else min_ticks).
  assert (Hrange : forall l m,
            foldl step m l = m \/
            exists note, note ∈ l /\ foldl step m l = Note.duration_ticks (h note)).
  { induction l as [|x l IH]; intros m; [by left|]. cbn [foldl].
    destruct (IH (step m x)) as [Heq | (note & Hin & Heq)].
    - rewrite Heq. unfold step. destruct (_ <? m); [|by left].
      right. exists x. split; [apply list_elem_of_here | done].
    - right. exists note. split; [by apply list_elem_of_further | done]. }
  assert (Hsame : forall l d, (forall note, note ∈ l -> Note.duration_ticks (h note) = d) ->
                              foldl step d l = d).
  { induction l as [|x l IH]; intros d Hd; [reflexivity|]. cbn [foldl].
    assert (Hx : step d x = d).
    { unfold step. destruct (_ <? d); [apply Hd, list_elem_of_here | done]. }
    rewrite Hx. apply IH. intros note Hin. by apply Hd, list_elem_of_further. }
  split; [apply Hrange|]. split; [by intros ->|].
  intros first rest d -> Hfirst Hd. cbn [foldl].
  assert (Hstep : step maxint first = d).
  { unfold step. destruct (Z.ltb_spec (Note.next_delta_ticks (h first)) maxint); [|lia].
    apply Hd, list_elem_of_here. }
  rewrite Hstep. apply Hsame. intros note Hin. by apply Hd, list_elem_of_further.
Qed.

(** X18.  Equality of sound events goes through their hashes.  Two sound
    events whose members have, one by one, the same encoding are equal; and
    since the low four bits of the hash hold the number of members, two sound
    events with different numbers of members, both below 16, are never
    equal, whatever the interpreter's hash of tuples is. *)
Theorem sound_event_eq_sizes (tuple_hash : list Z -> Z) (h : heap)
  (a b : SoundEvent.t) :
  ((fun note => Note.encode (h note)) <$> SoundEvent.notes a =
   (fun note => Note.encode (h note)) <$> SoundEvent.notes b ->
   sound_event_eq tuple_hash h a b = true) /\
  ((length (SoundEvent.notes a) < 16)%nat -> (length (SoundEvent.notes b) < 16)%nat ->
   length (SoundEvent.notes a) <> length (SoundEvent.notes b) ->
   sound_event_eq tuple_hash h a b = false).
Proof.
  unfold sound_event_eq, sound_event_hash. split.
  - intros Henc. apply Z.eqb_eq.
    assert (Hlen : length (SoundEvent.notes a) = length (SoundEvent.notes b)).
    { apply (f_equal length) in Henc. by rewrite !length_fmap in Henc. }
    unfold Note.hash. by rewrite Henc, Hlen.
  - intros Ha Hb Hne. apply Z.eqb_neq.
    rewrite !(lor_shiftl_low _ _ 4) by lia. lia.
Qed.

(** ** Frames *)

(** X19.  The positional accessors of a frame: [first] and
    [last_sound_event] raise IndexError exactly on a frame without sound
    events; after [add] the last sound event is the one added, and the first
    is the one that was first before, or the one added if there was none. *)
Theorem frame_first_last (f : Frame.t) (e : SoundEvent.t) :
  (Frame.first f = Raise IndexError <-> Frame.sound_events f = []) /\
  (Frame.last_sound_event f = Raise IndexError <-> Frame.sound_events f = []) /\
  Frame.last_sound_event (Frame.add e f) = Ok e /\
  Frame.first (Frame.add e f) =
    match Frame.first f with
    | Ok e0 => Ok e0
    | Raise _ => Ok e
    end.
Proof.
  unfold Frame.first, Frame.last_sound_event, Frame.add.
  cbn [Frame.sound_events]. destruct (Frame.sound_events f) as [|e0 l] eqn:Hl.
  - repeat split; discriminate.
  - split; [split; discriminate|]. split; [|split; [|reflexivity]].
    + destruct (last (e0 :: l)) eqn:Hlast; [split; discriminate|].
      by apply last_None in Hlast.
    + by rewrite last_snoc.
Qed.

(** X20.  Sound events added one by one stay in the order of arrival behind
    those the frame had, and the capacity never changes; so a frame created
    empty is full exactly when the number of sound events added equals
    [max_size], and never for a negative [max_size]. *)
Theorem frame_add_all_order (sound_events : list SoundEvent.t) (f : Frame.t) (max_size : Z) :
  Frame.sound_events (frame_add_all sound_events f) = Frame.sound_events f ++ sound_events /\
  Frame.max_size (frame_add_all sound_events f) = Frame.max_size f /\
  (Frame.is_full (frame_add_all sound_events (Frame.init max_size None)) = true <->
   Z.of_nat (length sound_events) = max_size) /\
  (max_size < 0 ->
   Frame.is_full (frame_add_all sound_events (Frame.init max_size None)) = false).
Proof.
  assert (Hgen : forall es g,
            Frame.sound_events (frame_add_all es g) = Frame.sound_events g ++ es /\
            Frame.max_size (frame_add_all es g) = Frame.max_size g).
  { induction es as [|e es IH]; intros g; unfold frame_add_all in *; cbn [foldl].
    - by rewrite app_nil_r.
    - destruct (IH (Frame.add e g)) as [-> ->].
      cbn [Frame.add Frame.sound_events Frame.max_size]. by rewrite <- app_assoc. }
  destruct (Hgen sound_events f) as [Hev Hmax].
  destruct (Hgen sound_events (Frame.init max_size None)) as [Hev0 Hmax0].
  split; [exact Hev|]. split; [exact Hmax|].
  unfold Frame.is_full, Frame.sizeof. rewrite Hev0, Hmax0. cbn. split.
  - apply Z.eqb_eq.
  - intros Hneg. apply Z.eqb_neq. lia.
Qed.

(** * graphmodel/utils/MidiUtils.py *)

Section MidiSearch.
Import MidiUtils.
Context {E : Type}.
Context (isinstance : E -> event_class -> bool).
Context (velocity : E -> Z) (data : E -> list Z).

Lemma find_first_spec (track : list E) (condition : E -> bool) :
  match loop_track_and_return_event_on_condition track condition with
  | None => forall event, event ∈ track -> condition event = false
  | Some event =>
      exists before after,
        track = before ++ event :: after /\ condition event = true /\
        forall earlier, earlier ∈ before -> condition earlier = false
  end.
Proof.
  induction track as [|x track IH]; cbn [loop_track_and_return_event_on_condition].
  - intros event Hin. by apply elem_of_nil in Hin.
  - destruct (condition x) eqn:Hx.
    + exists [], track. split; [reflexivity|]. split; [done|].
      intros earlier Hin. by apply elem_of_nil in Hin.
    + destruct (loop_track_and_return_event_on_condition track condition) as [event|].
      * destruct IH as (before & after & -> & Hc & Hbefore).
        exists (x :: before), after. split; [reflexivity|]. split; [done|].
        intros earlier Hin. apply elem_of_cons in Hin as [-> | Hin]; [done | by apply Hbefore].
      * intros event Hin. apply elem_of_cons in Hin as [-> | Hin]; [done | by apply IH].
Qed.

Lemma find_first_split (before after : list E) (event : E) (condition : E -> bool) :
  (forall earlier, earlier ∈ before -> condition earlier = false) ->
  condition event = true ->
  loop_track_and_return_event_on_condition (before ++ event :: after) condition = Some event.
Proof.
  intros Hbefore Hc. induction before as [|x before IH]; cbn.
  - by rewrite Hc.
  - rewrite (Hbefore x) by apply list_elem_of_here.
    apply IH. intros earlier Hin. by apply Hbefore, list_elem_of_further.
Qed.

End MidiSearch.

(** X21.  [loop_track_and_return_event_on_condition] returns the first event
    of the track that meets the condition: every event before it fails the
    condition; and it returns None exactly when no event of the track meets
    the condition. *)
Theorem loop_track_returns_first_match {E : Type} (track : list E) (condition : E -> bool) :
  (MidiUtils.loop_track_and_return_event_on_condition track condition = None <->
   forall event, event ∈ track -> condition event = false) /\
  (forall event,
     MidiUtils.loop_track_and_return_event_on_condition track condition = Some event <->
     exists before after,
       track = before ++ event :: after /\ condition event = true /\
       forall earlier, earlier ∈ before -> condition earlier = false).
Proof.
  pose proof (find_first_spec track condition) as Hspec. split.
  - destruct (MidiUtils.loop_track_and_return_event_on_condition track condition) as [event|].
    + split; [discriminate|]. intros Hnone.
      destruct Hspec as (before & after & -> & Hc & _).
      rewrite Hnone in Hc; [discriminate|].
      apply elem_of_app. right. apply list_elem_of_here.
    + by split.
  - intros event. split.
    + intros Hsome. by rewrite Hsome in Hspec.
    + intros (before & after & -> & Hc & Hbefore). by apply find_first_split.
Qed.

(** X22.  [has_notes] is True exactly when some event of the track is a
    NoteOnEvent with a velocity above 0, which is when looking for the first
    new note finds one. *)
Theorem has_notes_iff_new_note {E : Type} (isinstance : E -> MidiUtils.event_class -> bool)
  (velocity : E -> Z) (track : list E) :
  (MidiUtils.has_notes isinstance velocity track = true <->
   exists event, event ∈ track /\ isinstance event MidiUtils.NoteOnEvent = true /\
                 0 < velocity event) /\
  (MidiUtils.has_notes isinstance velocity track = true <->
   MidiUtils.loop_track_and_return_event_on_condition track
     (MidiUtils.is_new_note isinstance velocity) <> None).
Proof.
  assert (Hnew : forall event,
            MidiUtils.is_new_note isinstance velocity event = true <->
            isinstance event MidiUtils.NoteOnEvent = true /\ 0 < velocity event).
  { intros event. unfold MidiUtils.is_new_note. by rewrite andb_true_iff, Z.ltb_lt. }
  split.
  - induction track as [|x track IH]; cbn [MidiUtils.has_notes].
    + split; [discriminate|]. intros (event & Hin & _). by apply elem_of_nil in Hin.
    + destruct (MidiUtils.is_new_note isinstance velocity x) eqn:Hx.
      * split; [|done]. intros _. exists x. split; [apply list_elem_of_here | by apply Hnew].
      * rewrite IH. split.
        -- intros (event & Hin & Hev). exists event. split; [by apply list_elem_of_further | done].
        -- intros (event & Hin & Hev). apply elem_of_cons in Hin as [-> | Hin].
           ++ apply Hnew in Hev. congruence.
           ++ by exists event.
  - induction track as [|x track IH];
      cbn [MidiUtils.has_notes MidiUtils.loop_track_and_return_event_on_condition].
    + split; [discriminate | done].
    + destruct (MidiUtils.is_new_note isinstance velocity x); [|exact IH].
      split; [discriminate | done].
Qed.

(** X23.  [get_instrument] looks at the first ProgramChangeEvent of the
    track and at nothing after it: it returns the first element of its data,
    raises IndexError when that data is empty, and returns None when the
    track has no ProgramChangeEvent. *)
Theorem get_instrument_first_program_change {E : Type}
  (isinstance : E -> MidiUtils.event_class -> bool) (data : E -> list Z) :
  (forall track,
     (forall event, event ∈ track -> isinstance event MidiUtils.ProgramChangeEvent = false) ->
     MidiUtils.get_instrument isinstance data track = MidiUtils.Return None) /\
  (forall before event after,
     (forall earlier, earlier ∈ before ->
        isinstance earlier MidiUtils.ProgramChangeEvent = false) ->
     isinstance event MidiUtils.ProgramChangeEvent = true ->
     MidiUtils.get_instrument isinstance data (before ++ event :: after) =
       match data event with
       | instrument :: _ => MidiUtils.Return (Some instrument)
       | [] => MidiUtils.Throw (MidiUtils.Builtin IndexError)
       end).
Proof.
  split.
  - intros track Hnone. unfold MidiUtils.get_instrument, MidiUtils.get_program_change_event.
    pose proof (find_first_spec track (MidiUtils.is_program_change_event isinstance)) as Hspec.
    destruct (MidiUtils.loop_track_and_return_event_on_condition track _) as [event|];
      [|reflexivity].
    destruct Hspec as (before & after & -> & Hc & _).
    unfold MidiUtils.is_program_change_event in Hc. rewrite Hnone in Hc; [discriminate|].
    apply elem_of_app. right. apply list_elem_of_here.
  - intros before event after Hbefore Hev.
    unfold MidiUtils.get_instrument, MidiUtils.get_program_change_event.
    rewrite find_first_split by done.
    by destruct (data event).
Qed.

(** X24.  For an event that is a NoteOnEvent and not a NoteOffEvent, with a
    velocity that is not negative, exactly one of [is_new_note] and
    [has_note_ended] holds: the note starts when the velocity is above 0 and
    has ended when it is 0. *)
Theorem note_on_starts_or_ends {E : Type} (isinstance : E -> MidiUtils.event_class -> bool)
  (velocity : E -> Z) (event : E) :
  isinstance event MidiUtils.NoteOnEvent = true ->
  isinstance event MidiUtils.NoteOffEvent = false ->
  0 <= velocity event ->
  MidiUtils.is_new_note isinstance velocity event =
    negb (MidiUtils.has_note_ended isinstance velocity event) /\
  (MidiUtils.has_note_ended isinstance velocity event = true <-> velocity event = 0).
Proof.
  intros Hon Hoff Hv. unfold MidiUtils.is_new_note, MidiUtils.has_note_ended.
  rewrite Hon, Hoff. cbn [andb orb]. split.
  - destruct (Z.ltb_spec 0 (velocity event)), (Z.eqb_spec (velocity event) 0);
      try reflexivity; lia.
  - apply Z.eqb_eq.
Qed.

Lemma note_on_starts_or_ends_witness :
  MidiUtils.is_new_note example_isinstance example_velocity (example_note_on 0 0 60 100) = true /\
  MidiUtils.has_note_ended example_isinstance example_velocity (example_note_on 0 0 60 100) = false.
Proof.
  destruct (note_on_starts_or_ends example_isinstance example_velocity
              (example_note_on 0 0 60 100)) as [Hnew Hend].
  - reflexivity.
  - reflexivity.
  - simpl. lia.
  - split; [reflexivity|]. apply negb_true_iff. rewrite <- Hnew. reflexivity.
Defined.

(** X25.  [to_note_off_event] builds a NoteOnEvent of velocity 0.  When the
    library's NoteOnEvent is a NoteOnEvent that reports the velocity it was
    given, the event returned has ended and is not a new note, so a track
    made of such events has no notes. *)
Theorem note_off_event_has_ended {E : Type}
  (isinstance : E -> MidiUtils.event_class -> bool) (velocity : E -> Z)
  (note_on_event : Z -> Z -> Z -> Z -> E) (note : Note.t) (channel : Z) :
  (forall c t p v, isinstance (note_on_event c t p v) MidiUtils.NoteOnEvent = true) ->
  (forall c t p v, velocity (note_on_event c t p v) = v) ->
  exists event,
    to_note_off_event note_on_event note channel = MidiUtils.Return event /\
    event = note_on_event channel 0 (Note.pitch note) 0 /\
    MidiUtils.has_note_ended isinstance velocity event = true /\
    MidiUtils.is_new_note isinstance velocity event = false /\
    MidiUtils.has_notes isinstance velocity [event] = false.
Proof.
  intros Hclass Hvel. eexists. split; [reflexivity|]. split; [reflexivity|].
  unfold MidiUtils.has_notes, MidiUtils.has_note_ended, MidiUtils.is_new_note.
  rewrite Hclass, Hvel. cbn. by rewrite orb_true_r.
Qed.

Lemma note_off_event_has_ended_witness :
  exists event,
    to_note_off_event example_note_on example_note_early 3 = MidiUtils.Return event /\
    MidiUtils.has_note_ended example_isinstance example_velocity event = true.
Proof.
  destruct (note_off_event_has_ended example_isinstance example_velocity example_note_on
              example_note_early 3) as (event & Hrun & _ & Hended & _).
  - reflexivity.
  - reflexivity.
  - by exists event.
Defined.

(** X26.  [to_note_on_event] reads [note.volume], an attribute that a Note
    does not have: on every Note as the constructor makes it, for every
    channel, it raises AttributeError and builds no event. *)
Theorem to_note_on_event_raises {E : Type} (note_on_event : Z -> Z -> Z -> Z -> E)
  (note : Note.t) (channel : Z) :
  to_note_on_event note_on_event note channel =
    MidiUtils.Throw (MidiUtils.Builtin AttributeError) /\
  note_attribute "velocity" note = Ok (Note.velocity note) /\
  note_attribute "volume" note = Raise AttributeError.
Proof. repeat split. Qed.

(** X27.  The instrument put in a ProgramChangeEvent by
    [to_program_change_event] is the one [get_instrument] reads back, when
    that event is the first ProgramChangeEvent of the track and the library's
    event keeps its class and the data it was given. *)
Theorem instrument_round_trip {E : Type}
  (isinstance : E -> MidiUtils.event_class -> bool) (data : E -> list Z)
  (program_change_event : list Z -> E) (before after : list E) (instrument : Z) :
  (forall d, isinstance (program_change_event d) MidiUtils.ProgramChangeEvent = true) ->
  (forall d, data (program_change_event d) = d) ->
  (forall earlier, earlier ∈ before ->
     isinstance earlier MidiUtils.ProgramChangeEvent = false) ->
  MidiUtils.get_instrument isinstance data
    (before ++ to_program_change_event program_change_event instrument :: after)
  = MidiUtils.Return (Some instrument).
Proof.
  intros Hclass Hdata Hbefore.
  unfold MidiUtils.get_instrument, MidiUtils.get_program_change_event.
  rewrite find_first_split; [| exact Hbefore | apply Hclass].
  unfold to_program_change_event. by rewrite Hdata.
Qed.

Lemma instrument_round_trip_witness :
  MidiUtils.get_instrument example_isinstance example_data
    ([example_note_on 0 0 60 100]
       ++ to_program_change_event example_program_change 19 :: [example_program_change [7]])
  = MidiUtils.Return (Some 19).
Proof.
  apply (instrument_round_trip example_isinstance example_data example_program_change).
  - reflexivity.
  - reflexivity.
  - intros earlier Hin. apply list_elem_of_singleton in Hin as ->. reflexivity.
Defined.

(** ** print_rhythmic_pattern *)

Lemma py_index_head {A : Type} (x : A) (l : list A) :
  MidiUtils.py_index (x :: l) 0 = MidiUtils.Return x.
Proof. reflexivity. Qed.

Section Rhythm.
Import MidiUtils.
Context {E : Type}.
Context (isinstance : E -> event_class -> bool) (data : E -> list Z).

Lemma tempo_of_value (d : list Z) :
  (3 <= length d)%nat -> tempo_of d = Return (tempo_value d).
Proof.
  intros Hlen. destruct d as [|d0 [|d1 [|d2 d]]]; simpl in Hlen; try lia. reflexivity.
Qed.

Lemma tempo_of_short (d : list Z) :
  (length d < 3)%nat -> tempo_of d = Throw (Builtin IndexError).
Proof.
  intros Hlen. destruct d as [|d0 [|d1 [|d2 d]]]; simpl in Hlen; try lia; reflexivity.
Qed.

Lemma tempos_cons (event : E) (track : list E) :
  tempos isinstance data (event :: track) =
    if is_set_tempo_event isinstance event
    then tempo_value (data event) :: tempos isinstance data track
    else tempos isinstance data track.
Proof.
  unfold tempos. destruct (is_set_tempo_event isinstance event) eqn:Hev.
  - by rewrite filter_cons_True.
  - rewrite filter_cons_False; [reflexivity | congruence].
Qed.

Lemma last_cons_default (t d : Z) (ts : list Z) :
  default d (last (t :: ts)) = default t (last ts).
Proof.
  destruct ts as [|x ts]; [reflexivity|].
  change (last (t :: x :: ts)) with (last (x :: ts)).
  destruct (last (x :: ts)) eqn:Hlast; [reflexivity|]. by apply last_None in Hlast.
Qed.

Lemma rhythm_eq (a a' b b' c c' d d' : Z) (p p' : list (Z * list Z * Z)) :
  a = a' -> b = b' -> c = c' -> d = d' -> p = p' ->
  mk_rhythm a b c d p = mk_rhythm a' b' c' d' p'.
Proof. by intros -> -> -> -> ->. Qed.

Lemma rhythm_step_tempo (event : E) (st : rhythm) :
  is_set_tempo_event isinstance event = true ->
  (3 <= length (data event))%nat ->
  rhythm_step isinstance data event st =
    Return {| total_tempo := total_tempo st + tempo_value (data event);
              total_change := total_change st + (tempo_value (data event) - previous_tempo st);
              number_of_events := number_of_events st + 1;
              previous_tempo := tempo_value (data event);
              printed :=
                printed st ++ [(tempo_value (data event), data event,
                                tempo_value (data event) - previous_tempo st)] |}.
Proof.
  intros Hev Hlen. unfold rhythm_step. by rewrite Hev, (tempo_of_value _ Hlen).
Qed.

Lemma rhythm_step_other (event : E) (st : rhythm) :
  is_set_tempo_event isinstance event = false ->
  rhythm_step isinstance data event st = Return st.
Proof. intros Hev. unfold rhythm_step. by rewrite Hev. Qed.

Lemma rhythm_loop (track : list E) :
  (forall event, event ∈ track -> is_set_tempo_event isinstance event = true ->
                 (3 <= length (data event))%nat) ->
  forall st : rhythm,
    exists lines,
      loop track (rhythm_step isinstance data) st =
        Return {| total_tempo := total_tempo st + foldr Z.add 0 (tempos isinstance data track);
                  total_change :=
                    total_change st +
                    (default (previous_tempo st) (last (tempos isinstance data track))
                     - previous_tempo st);
                  number_of_events :=
                    number_of_events st + Z.of_nat (length (tempos isinstance data track));
                  previous_tempo :=
                    default (previous_tempo st) (last (tempos isinstance data track));
                  printed := printed st ++ lines |} /\
      (fun line => fst (fst line)) <$> lines = tempos isinstance data track.
Proof.
  induction track as [|event track IH]; intros Hdata st.
  - exists []. split; [|reflexivity]. cbn. destruct st. cbn.
    apply (f_equal Return), rhythm_eq; [lia.. | by rewrite app_nil_r].
  - rewrite tempos_cons. cbn [loop].
    destruct (is_set_tempo_event isinstance event) eqn:Hev.
    + rewrite rhythm_step_tempo;
        [| done | apply Hdata; [apply list_elem_of_here | done]].
      cbn [mbind outcome_bind].
      destruct (IH (fun e He => Hdata e (list_elem_of_further _ _ _ He))
                  {| total_tempo := total_tempo st + tempo_value (data event);
                     total_change :=
                       total_change st + (tempo_value (data event) - previous_tempo st);
                     number_of_events := number_of_events st + 1;
                     previous_tempo := tempo_value (data event);
                     printed :=
                       printed st ++ [(tempo_value (data event), data event,
                                       tempo_value (data event) - previous_tempo st)] |})
        as (lines & -> & Hlines).
      exists ((tempo_value (data event), data event,
               tempo_value (data event) - previous_tempo st) :: lines).
      split; [|cbn; by rewrite Hlines].
      cbn [total_tempo total_change number_of_events previous_tempo printed foldr length].
      rewrite last_cons_default, <- app_assoc.
      apply (f_equal Return), rhythm_eq; [lia.. | reflexivity].
    + rewrite rhythm_step_other by done. cbn [mbind outcome_bind].
      apply IH. intros e He. by apply Hdata, list_elem_of_further.
Qed.

End Rhythm.

(** X28.  With every tempo event of the first track carrying at least three
    data bytes, [print_rhythmic_pattern] prints one line for each tempo event,
    in order, and ends with the sum of the tempos divided by their number and
    with the last tempo divided by their number: the changes of tempo add up
    to the last tempo, the first change being counted from 0.  Without a
    tempo event in the first track it raises ZeroDivisionError, and without a
    first track IndexError. *)
Theorem print_rhythmic_pattern_averages {E : Type}
  (isinstance : E -> MidiUtils.event_class -> bool) (data : E -> list Z)
  (track : list E) (rest : list (list E)) :
  (forall event, event ∈ track -> MidiUtils.is_set_tempo_event isinstance event = true ->
                 (3 <= length (data event))%nat) ->
  (tempos isinstance data track = [] ->
   MidiUtils.print_rhythmic_pattern isinstance data (track :: rest) =
     MidiUtils.Throw MidiUtils.ZeroDivisionError) /\
  (tempos isinstance data track <> [] ->
   exists lines,
     MidiUtils.print_rhythmic_pattern isinstance data (track :: rest) =
       MidiUtils.Return
         (lines,
          (foldr Z.add 0 (tempos isinstance data track)
             / Z.of_nat (length (tempos isinstance data track)),
           default 0 (last (tempos isinstance data track))
             / Z.of_nat (length (tempos isinstance data track)))) /\
     (fun line => fst (fst line)) <$> lines = tempos isinstance data track) /\
  MidiUtils.print_rhythmic_pattern isinstance data [] =
    MidiUtils.Throw (MidiUtils.Builtin IndexError).
Proof.
  intros Hdata.
  destruct (rhythm_loop isinstance data track Hdata
              {| MidiUtils.total_tempo := 0; MidiUtils.total_change := 0;
                 MidiUtils.number_of_events := 0; MidiUtils.previous_tempo := 0;
                 MidiUtils.printed := [] |}) as (lines & Hloop & Hlines).
  cbn [MidiUtils.total_tempo MidiUtils.total_change MidiUtils.number_of_events
       MidiUtils.previous_tempo MidiUtils.printed app] in Hloop.
  unfold MidiUtils.print_rhythmic_pattern.
  split; [|split; [|reflexivity]].
  - intros Hnone. rewrite py_index_head. cbn [mbind MidiUtils.outcome_bind].
    rewrite Hloop. cbn [mbind MidiUtils.outcome_bind MidiUtils.number_of_events].
    by rewrite Hnone.
  - intros Hsome. exists lines. split; [|exact Hlines].
    rewrite py_index_head. cbn [mbind MidiUtils.outcome_bind].
    rewrite Hloop.
    cbn [mbind MidiUtils.outcome_bind MidiUtils.number_of_events MidiUtils.total_tempo
         MidiUtils.total_change MidiUtils.printed].
    destruct (tempos isinstance data track) as [|t ts] eqn:Hts; [done|].
    destruct (Z.eqb_spec (0 + Z.of_nat (length (t :: ts))) 0) as [Hz | _].
    { cbn [length] in Hz. lia. }
    rewrite !Z.add_0_l, Z.sub_0_r. reflexivity.
Qed.

Lemma print_rhythmic_pattern_averages_witness :
  MidiUtils.print_rhythmic_pattern example_isinstance example_data
    [[example_note_on 0 0 60 100]] = MidiUtils.Throw MidiUtils.ZeroDivisionError /\
  exists lines,
    MidiUtils.print_rhythmic_pattern example_isinstance example_data
      [[example_set_tempo [7; 161; 32]; example_note_on 0 0 60 100;
        example_set_tempo [6; 138; 27]]]
    = MidiUtils.Return (lines, ((500000 + 428571) / 2, 428571 / 2)).
Proof.
  split.
  - apply (print_rhythmic_pattern_averages example_isinstance example_data
             [example_note_on 0 0 60 100] []).
    + intros event Hin. apply list_elem_of_singleton in Hin as ->. discriminate.
    + reflexivity.
  - destruct (print_rhythmic_pattern_averages example_isinstance example_data
                [example_set_tempo [7; 161; 32]; example_note_on 0 0 60 100;
                 example_set_tempo [6; 138; 27]] []) as (_ & Hsome & _).
    + intros event Hin Hev.
      repeat (apply elem_of_cons in Hin as [-> | Hin]);
        [first [discriminate Hev | cbn; lia] .. |].
      by apply elem_of_nil in Hin.
    + destruct Hsome as (lines & Hrun & _); [discriminate|].
      exists lines. exact Hrun.
Defined.

(** X29.  The tempo of a tempo event is read from its first three data
    bytes, most significant first: for bytes in 0..255 it is
    [data[0]*65536 + data[1]*256 + data[2]], below 2^24, whatever follows
    the three bytes; with fewer than three data bytes the read raises
    IndexError. *)
Theorem tempo_of_three_bytes (d0 d1 d2 : Z) (more : list Z) (short : list Z) :
  0 <= d0 < 256 -> 0 <= d1 < 256 -> 0 <= d2 < 256 ->
  MidiUtils.tempo_of (d0 :: d1 :: d2 :: more) = MidiUtils.Return (d0 * 65536 + d1 * 256 + d2) /\
  0 <= d0 * 65536 + d1 * 256 + d2 < 2 ^ 24 /\
  ((length short < 3)%nat ->
   MidiUtils.tempo_of short = MidiUtils.Throw (MidiUtils.Builtin IndexError)).
Proof.
  intros H0 H1 H2. split; [|split; [lia | apply tempo_of_short]].
  rewrite tempo_of_value by (cbn [length]; lia).
  unfold tempo_value. cbn [nth]. apply (f_equal MidiUtils.Return).
  replace (Z.shiftl d0 16) with (Z.shiftl (Z.shiftl d0 8) 8)
    by (rewrite Z.shiftl_shiftl by lia; reflexivity).
  rewrite <- Z.shiftl_lor.
  rewrite (lor_shiftl_low _ d2 8) by lia.
  rewrite (lor_shiftl_low d0 d1 8) by lia. lia.
Qed.

Lemma tempo_of_three_bytes_witness :
  MidiUtils.tempo_of [7; 161; 32] = MidiUtils.Return 500000.
Proof.
  destruct (tempo_of_three_bytes 7 161 32 [] []) as (Hrun & _); [lia..|].
  exact Hrun.
Defined.

(** ** delete_tracks *)

Section DeleteTracks.
Import MidiUtils.
Context {T : Type} `{EqDecision T}.

Lemma py_index_nonneg (l : list T) (i : nat) :
  py_index l (Z.of_nat i) =
    match l !! i with
    | Some x => Return x
    | None => Throw (Builtin IndexError)
    end.
Proof.
  unfold py_index. destruct (Z.ltb_spec (Z.of_nat i) 0) as [? | _]; [lia|].
  destruct (Z.ltb_spec (Z.of_nat i) 0) as [? | _]; [lia|].
  by rewrite Nat2Z.id.
Qed.

Lemma collect_range (pattern middle after : list T) :
  forall (before acc : list T),
    pattern = before ++ middle ++ after ->
    loop (seqZ (Z.of_nat (length before)) (Z.of_nat (length middle)))
      (fun i tracks => track ← py_index pattern i; Return (tracks ++ [track])) acc
    = Return (acc ++ middle).
Proof.
  induction middle as [|x middle IH]; intros before acc Hpattern.
  - cbn. by rewrite app_nil_r.
  - rewrite seqZ_cons by (cbn [length]; lia). cbn [loop].
    assert (Hx : pattern !! length before = Some x).
    { rewrite Hpattern, <- app_comm_cons. by apply list_lookup_middle. }
    rewrite py_index_nonneg, Hx. cbn [mbind outcome_bind].
    replace (Z.succ (Z.of_nat (length before))) with (Z.of_nat (length (before ++ [x])))
      by (rewrite length_app; cbn [length]; lia).
    replace (Z.pred (Z.of_nat (length (x :: middle)))) with (Z.of_nat (length middle))
      by (cbn [length]; lia).
    rewrite (IH (before ++ [x]) (acc ++ [x])).
    + by rewrite <- app_assoc.
    + by rewrite Hpattern, <- app_assoc.
Qed.

Lemma list_remove_middle (x : T) (before rest : list T) :
  x ∉ before -> list_remove x (before ++ x :: rest) = Return (before ++ rest).
Proof.
  induction before as [|y before IH]; intros Hnin; cbn [list_remove app].
  - by rewrite bool_decide_eq_true_2.
  - apply not_elem_of_cons in Hnin as [Hne Hnin].
    rewrite bool_decide_eq_false_2 by congruence.
    by rewrite IH.
Qed.

Lemma remove_range (middle : list T) :
  forall before after : list T,
    NoDup (before ++ middle ++ after) ->
    loop middle (fun track pattern => list_remove track pattern) (before ++ middle ++ after)
    = Return (before ++ after).
Proof.
  induction middle as [|x middle IH]; intros before after Hnd; [reflexivity|].
  cbn [loop]. rewrite <- app_comm_cons, list_remove_middle.
  - cbn [mbind outcome_bind]. apply IH.
    apply NoDup_app in Hnd as (Hb & Hdisj & Hrest).
    apply NoDup_cons in Hrest as [_ Hrest].
    apply NoDup_app. split; [done|]. split; [|done].
    intros z Hz Hz'. apply (Hdisj z Hz). by apply list_elem_of_further.
  - apply NoDup_app in Hnd as (_ & Hdisj & _).
    intros Hin. apply (Hdisj x Hin). apply list_elem_of_here.
Qed.

Lemma collect_out_of_range (pattern : list T) (n : nat) :
  forall (start : nat) (acc : list T),
    (length pattern < start + S n)%nat ->
    loop (seqZ (Z.of_nat start) (Z.of_nat (S n)))
      (fun i tracks => track ← py_index pattern i; Return (tracks ++ [track])) acc
    = Throw (Builtin IndexError).
Proof.
  induction n as [|n IH]; intros start acc Hlen.
  - rewrite seqZ_cons by lia. cbn [loop]. rewrite py_index_nonneg.
    rewrite lookup_ge_None_2 by lia. reflexivity.
  - rewrite seqZ_cons by lia. cbn [loop]. rewrite py_index_nonneg.
    destruct (pattern !! start) as [x|] eqn:Hx; [|reflexivity].
    cbn [mbind outcome_bind].
    replace (Z.succ (Z.of_nat start)) with (Z.of_nat (S start)) by lia.
    replace (Z.pred (Z.of_nat (S (S n)))) with (Z.of_nat (S n)) by lia.
    apply IH. lia.
Qed.

End DeleteTracks.

(** X30.  On a pattern whose tracks are pairwise different,
    [delete_tracks(pattern, start, stop)] with
    [0 <= start <= stop <= len(pattern)] removes exactly the tracks at the
    positions [start .. stop - 1] and keeps the others in order.  With
    [stop <= start] it leaves any pattern as it is, and with [0 <= start <
    stop] and [stop] beyond the length of the pattern it raises IndexError. *)
Theorem delete_tracks_removes_range {T : Type} `{EqDecision T}
  (before middle after : list T) :
  NoDup (before ++ middle ++ after) ->
  MidiUtils.delete_tracks (before ++ middle ++ after)
    (Z.of_nat (length before)) (Z.of_nat (length before + length middle))
  = MidiUtils.Return (before ++ after) /\
  (forall (pattern : list T) (start stop : Z),
     stop <= start -> MidiUtils.delete_tracks pattern start stop = MidiUtils.Return pattern) /\
  (forall (pattern : list T) (start stop : nat),
     (start < stop)%nat -> (length pattern < stop)%nat ->
     MidiUtils.delete_tracks pattern (Z.of_nat start) (Z.of_nat stop)
     = MidiUtils.Throw (MidiUtils.Builtin IndexError)).
Proof.
  intros Hnd. unfold MidiUtils.delete_tracks, MidiUtils.range. split; [|split].
  - replace (Z.of_nat (length before + length middle) - Z.of_nat (length before))
      with (Z.of_nat (length middle)) by lia.
    rewrite (collect_range _ middle after before []) by reflexivity.
    cbn [mbind MidiUtils.outcome_bind app]. by apply remove_range.
  - intros pattern start stop Hle. by rewrite seqZ_nil by lia.
  - intros pattern start stop Hlt Hlen.
    replace (Z.of_nat stop - Z.of_nat start) with (Z.of_nat (S (stop - start - 1))) by lia.
    rewrite collect_out_of_range; [reflexivity | lia].
Qed.

Lemma delete_tracks_removes_range_witness :
  MidiUtils.delete_tracks [10; 11; 12; 13; 14] 1 3 = MidiUtils.Return [10; 13; 14].
Proof.
  apply (delete_tracks_removes_range [10] [11; 12] [13; 14]).
  exact (NoDup_seqZ 10 5).
Defined.
